(** * The protocol orchestration engine (ProtocolEngine), embedded in Rocq

    The development follows [ProtocolEngine] of the tactical module: the
    protocol registry, activation, step execution, progression along the step
    graph and the re-evaluation pass run on every situational update.

    Layout:
    - [Js]: the JavaScript values that conditions compare, with the operators
      [===], [<], [>], [Array.isArray] and [Array.prototype.includes];
    - the data model ([Protocol], [ProtocolStep], [ProtocolCondition],
      [ProtocolContext]) and the machine state ([World]);
    - the collaborator ([TacticalCore]) as far as the engine calls it;
    - the engine's methods, under their names in the source;
    - the other classes: [TacticalCore] in full ([Tactical]), [ConvexStore],
      [SensorySystem], [SwarmCore] and the route processing of [MapSystem],
      each a module of its own with the class's state as a record and its
      methods as functions on it;
    - the properties of the engine that the specification states, and then
      further properties of the engine and of the other classes.

    How the source's effects are read:
    - the engine's two [Map]s, the collaborator's layers and the log of
      emitted notifications are fields of the [World] that every method
      transforms; a [throw] is an abrupt completion, caught by [tryCatch];
    - [Date.now()] reads a clock that is given as the sequence of its
      readings, so that a condition of type ["temporal"] may see another time
      at every evaluation;
    - an [await]ed call runs to completion before its caller goes on, and
      [Promise.all] runs its tasks one after the other in array order: the
      interleaving of sibling steps at their [await]s is not modelled;
    - the listeners of the engine's notifications are not part of the source
      and are taken not to throw: [emit] appends to the log;
    - the engine's own listener for ['situation:updated'] is an [async]
      function whose promise the collaborator's [emit] drops; its run is an
      operation of its own ([SituationUpdated]), not a part of the step that
      made the collaborator emit;
    - the mutual recursion of [executeProtocolStep] and [progressProtocol],
      which does not terminate on a cyclic step graph, and the iteration of
      [evaluateProtocols] over a [Map] that grows while it is iterated, carry
      a bound on their depth ([fuel]);
    - [Math.random()], [nanoid()], the transcription service and the recall
      of a memory vault are given, like the clock, as the sequences of their
      results; the methods of the other classes have no recursion and need
      no bound. *)

From Stdlib Require Import ZArith List Ascii String DecimalString.
From Stdlib Require Import PrimFloat SpecFloat FloatOps FloatAxioms.
From stdpp Require Import gmap strings list.

Open Scope string_scope.
Set Warnings "-register-all".

(** ** JavaScript values *)

Module Js.

(** Values are acyclic data: primitives, plain objects with own data
    properties and the default prototype, and arrays without extra
    properties.  A string is a sequence of code units below 256, one
    [ascii] each.  An object or array carries the reference that [===]
    compares. *)
Inductive Value : Type :=
| Undefined
| Null
| Bool (b : bool)
| Number (x : float)
| Str (s : string)
| Object (ref : N) (props : list (string * Value))
| Array (ref : N) (elems : list Value).

(** What a [throw] carries: [new Error(message)], or the [TypeError] the
    language raises itself. *)
Inductive Error : Type :=
| ErrorOf (message : string)
| TypeError (message : string).

Inductive Completion (A : Type) : Type :=
| Normal (a : A)
| Throw (e : Error).
Arguments Normal {A} a.
Arguments Throw {A} e.

Definition NaN : float := PrimFloat.nan.

(** *** Decimal and binary64 *)

Definition binary64 (negative : bool) (m : positive) : spec_float :=
  S754_finite negative m 0.

(** The Number value for [n * 10^e], [n >= 0]: the nearest binary64, ties to
    even.  [SFdiv] rounds the exact quotient of its two mantissas. *)
Definition decimalToNumber (n e : Z) : float :=
  match n with
  | Zpos p =>
      if (0 <=? e)%Z
      then SF2Prim (SFdiv prec emax (binary64 false (p * Z.to_pos (10 ^ e))) (binary64 false 1))
      else SF2Prim (SFdiv prec emax (binary64 false p) (binary64 false (Z.to_pos (10 ^ (- e)))))
  | _ => 0%float
  end.

Definition isDecimalDigit (c : ascii) : bool :=
  let n := nat_of_ascii c in (48 <=? n)%nat && (n <=? 57)%nat.

Definition digitValue (c : ascii) : Z :=
  let n := Z.of_nat (nat_of_ascii c) in
  if (48 <=? n)%Z && (n <=? 57)%Z then (n - 48)%Z
  else if (97 <=? n)%Z && (n <=? 102)%Z then (n - 87)%Z
  else if (65 <=? n)%Z && (n <=? 70)%Z then (n - 55)%Z
  else 16%Z.

Definition digitsValue (radix : Z) (ds : list ascii) : Z :=
  fold_left (fun acc c => (radix * acc + digitValue c)%Z) ds 0%Z.

Definition allDigits (radix : Z) (ds : list ascii) : bool :=
  match ds with
  | [] => false
  | _ => forallb (fun c => (digitValue c <? radix)%Z) ds
  end.

Fixpoint spanDigits (l : list ascii) : list ascii * list ascii :=
  match l with
  | c :: r =>
      if isDecimalDigit c
      then let '(ds, rest) := spanDigits r in (c :: ds, rest)
      else ([], l)
  | [] => ([], [])
  end.

(** WhiteSpace and LineTerminator code units below 256. *)
Definition isStrWhiteSpaceChar (c : ascii) : bool :=
  let n := nat_of_ascii c in
  ((9 <=? n)%nat && (n <=? 13)%nat) || (n =? 32)%nat || (n =? 160)%nat.

Fixpoint trimStart (l : list ascii) : list ascii :=
  match l with
  | c :: r => if isStrWhiteSpaceChar c then trimStart r else l
  | [] => []
  end.

Definition trim (l : list ascii) : list ascii :=
  rev (trimStart (rev (trimStart l))).

(** ExponentPart, optional: the exponent when [l] is empty or a well-formed
    exponent part. *)
Definition exponentPart (l : list ascii) : option Z :=
  match l with
  | [] => Some 0%Z
  | c :: r =>
      if (nat_of_ascii c =? 101)%nat || (nat_of_ascii c =? 69)%nat then
        match r with
        | s :: ds =>
            if (nat_of_ascii s =? 43)%nat
            then if allDigits 10 ds then Some (digitsValue 10 ds) else None
            else if (nat_of_ascii s =? 45)%nat
            then if allDigits 10 ds then Some (- digitsValue 10 ds)%Z else None
            else if allDigits 10 r then Some (digitsValue 10 r) else None
        | [] => None
        end
      else None
  end.

(** StrUnsignedDecimalLiteral. *)
Definition unsignedDecimalLiteral (l : list ascii) : option float :=
  if String.eqb (string_of_list_ascii l) "Infinity" then Some infinity
  else
    let '(int, rest) := spanDigits l in
    let '(frac, rest) :=
      match rest with
      | c :: r => if (nat_of_ascii c =? 46)%nat then spanDigits r else ([], rest)
      | [] => ([], [])
      end in
    match int, frac with
    | [], [] => None
    | _, _ =>
        match exponentPart rest with
        | Some e =>
            Some (decimalToNumber (digitsValue 10 (int ++ frac))
                    (e - Z.of_nat (length frac)))
        | None => None
        end
    end.

(** NonDecimalIntegerLiteral: [0x], [0o], [0b] and their digits. *)
Definition nonDecimalIntegerLiteral (l : list ascii) : option float :=
  match l with
  | z :: p :: ds =>
      if (nat_of_ascii z =? 48)%nat then
        let radix : Z :=
          let n := nat_of_ascii p in
          if (n =? 120)%nat || (n =? 88)%nat then 16%Z
          else if (n =? 111)%nat || (n =? 79)%nat then 8%Z
          else if (n =? 98)%nat || (n =? 66)%nat then 2%Z
          else 0%Z in
        if allDigits radix ds then Some (decimalToNumber (digitsValue radix ds) 0)
        else None
      else None
  | _ => None
  end.

(** StringToNumber: the value of the string as a StringNumericLiteral, [NaN]
    when it is none. *)
Definition StringToNumber (s : string) : float :=
  match trim (list_ascii_of_string s) with
  | [] => 0%float
  | (c :: r) as l =>
      match nonDecimalIntegerLiteral l with
      | Some x => x
      | None =>
          if (nat_of_ascii c =? 43)%nat
          then default NaN (unsignedDecimalLiteral r)
          else if (nat_of_ascii c =? 45)%nat
          then default NaN (PrimFloat.opp <$> unsignedDecimalLiteral r)
          else default NaN (unsignedDecimalLiteral l)
      end
  end.

(** *** Number::toString, radix 10 *)

Definition decimalString (z : Z) : string :=
  NilZero.string_of_uint (N.to_uint (Z.to_N z)).

Definition countDigits (z : Z) : Z := Z.of_nat (String.length (decimalString z)).

(** The [n] with [10^(n-1) <= num/den < 10^n], for positive [num], [den]. *)
Definition magnitude (num den : Z) : Z :=
  if (den <=? num)%Z then countDigits (num / den)
  else (1 - countDigits ((den + num - 1) / num - 1))%Z.

(** The candidates with [k] digits for [x = num/den] of magnitude [n0]: the
    two integers around [x / 10^(n0-k)], the nearer one first (the even one
    on a tie), each with its [n]; those that read back as [x] are kept. *)
Definition digitCandidates (x : float) (num den n0 k : Z) : list (Z * Z) :=
  let a := if (n0 <=? k)%Z then (num * 10 ^ (k - n0))%Z else num in
  let b := if (n0 <=? k)%Z then den else (den * 10 ^ (n0 - k))%Z in
  let lo := (a / b)%Z in
  let hi := (lo + 1)%Z in
  let below := (a - lo * b)%Z in
  let above := (hi * b - a)%Z in
  let hiFirst := (above <? below)%Z || ((above =? below)%Z && Z.even hi) in
  let normal (s : Z) : Z * Z :=
    if (s =? 10 ^ k)%Z then (10 ^ (k - 1), n0 + 1)%Z else (s, n0) in
  let reads '(s, n) := PrimFloat.eqb (decimalToNumber s (n - k)) x in
  List.filter reads
    (if hiFirst then [normal hi; normal lo] else [normal lo; normal hi]).

(** The digits [s], and [n], for the least [k] that has a candidate; 17
    digits always have one. *)
Fixpoint shortestDigits (fuel : nat) (x : float) (num den n0 k : Z) : Z * Z :=
  match fuel with
  | O => ((num * 10 ^ (k - n0)) / den, n0)%Z
  | S fuel' =>
      match digitCandidates x num den n0 k with
      | c :: _ => c
      | [] => shortestDigits fuel' x num den n0 (k + 1)
      end
  end.

Definition zeros (n : Z) : string :=
  string_of_list_ascii (List.repeat "0"%char (Z.to_nat n)).

(** Steps 6 to 10 of Number::toString: the digits [s] placed by [n]. *)
Definition placeDigits (s n : Z) : string :=
  let digits := decimalString s in
  let k := Z.of_nat (String.length digits) in
  if (k <=? n)%Z && (n <=? 21)%Z then digits ++ zeros (n - k)
  else if (0 <? n)%Z && (n <=? 21)%Z then
    substring 0 (Z.to_nat n) digits ++ "." ++
    substring (Z.to_nat n) (Z.to_nat (k - n)) digits
  else if (-6 <? n)%Z && (n <=? 0)%Z then "0." ++ zeros (- n) ++ digits
  else
    let e := (n - 1)%Z in
    let sign := if (e <? 0)%Z then "-" else "+" in
    if (k =? 1)%Z then digits ++ "e" ++ sign ++ decimalString (Z.abs e)
    else substring 0 1 digits ++ "." ++ substring 1 (Z.to_nat (k - 1)) digits
         ++ "e" ++ sign ++ decimalString (Z.abs e).

Definition NumberToString (x : float) : string :=
  match Prim2SF x with
  | S754_nan => "NaN"
  | S754_zero _ => "0"
  | S754_infinity negative => if negative then "-Infinity" else "Infinity"
  | S754_finite negative m e =>
      let num := if (0 <=? e)%Z then (Zpos m * 2 ^ e)%Z else Zpos m in
      let den := if (0 <=? e)%Z then 1%Z else (2 ^ (- e))%Z in
      let '(s, n) :=
        shortestDigits 17 (PrimFloat.abs x) num den (magnitude num den) 1 in
      (if negative then "-" else "") ++ placeDigits s n
  end.

(** *** Conversions and operators *)

Inductive Primitive : Type :=
| PUndefined
| PNull
| PBool (b : bool)
| PNumber (x : float)
| PString (s : string).

Definition Properties : Type := list (string * Value).

(** [O[key]] over own properties ([undefined] when there is none; nothing
    the engine reads is inherited). *)
Fixpoint Get (props : Properties) (key : string) : Value :=
  match props with
  | (k, v) :: rest => if String.eqb k key then v else Get rest key
  | [] => Undefined
  end.

(** [{...props, key: v}]: a present key keeps its place. *)
Fixpoint Put (props : Properties) (key : string) (v : Value) : Properties :=
  match props with
  | (k, old) :: rest =>
      if String.eqb k key then (k, v) :: rest else (k, old) :: Put rest key v
  | [] => [(key, v)]
  end.

Definition hasOwnProperty (props : Properties) (key : string) : bool :=
  existsb (fun kv => String.eqb (fst kv) key) props.

Definition indexed (l : list Value) : Properties :=
  imap (fun i v => (decimalString (Z.of_nat i), v)) l.

(** The own enumerable properties that an object spread [{...v}] copies. *)
Definition ownEnumerableProperties (v : Value) : Properties :=
  match v with
  | Object _ props => props
  | Array _ elems => indexed elems
  | Str s => indexed (List.map (fun c => Str (String c EmptyString)) (list_ascii_of_string s))
  | _ => []
  end.

Definition primitiveToString (p : Primitive) : string :=
  match p with
  | PUndefined => "undefined"
  | PNull => "null"
  | PBool b => if b then "true" else "false"
  | PNumber x => NumberToString x
  | PString s => s
  end.

Definition joinStrings (parts : list string) : string :=
  match parts with
  | [] => ""
  | first :: rest => fold_left (fun acc s => acc ++ "," ++ s) rest first
  end.

(** ToPrimitive.  A plain object inherits [valueOf], which returns the
    object, and [toString], which returns ["[object Object]"]; an own
    [toString] property holds data here, is not callable, and leaves no
    method to call.  An array's [toString] is [join]. *)
Fixpoint ToPrimitive (v : Value) : Completion Primitive :=
  match v with
  | Undefined => Normal PUndefined
  | Null => Normal PNull
  | Bool b => Normal (PBool b)
  | Number x => Normal (PNumber x)
  | Str s => Normal (PString s)
  | Object _ props =>
      if hasOwnProperty props "toString"
      then Throw (TypeError "Cannot convert object to primitive value")
      else Normal (PString "[object Object]")
  | Array _ elems =>
      let element (e : Value) (converted : Completion Primitive) : Completion string :=
        match e, converted with
        | Undefined, _ | Null, _ => Normal ""
        | _, Normal p => Normal (primitiveToString p)
        | _, Throw err => Throw err
        end in
      let parts :=
        (fix each (l : list Value) : Completion (list string) :=
           match l with
           | [] => Normal []
           | e :: rest =>
               match element e (ToPrimitive e) with
               | Normal part =>
                   match each rest with
                   | Normal parts => Normal (part :: parts)
                   | Throw err => Throw err
                   end
               | Throw err => Throw err
               end
           end) elems in
      match parts with
      | Normal parts => Normal (PString (joinStrings parts))
      | Throw err => Throw err
      end
  end.

Definition ToNumber (p : Primitive) : float :=
  match p with
  | PUndefined => NaN
  | PNull => 0%float
  | PBool b => if b then 1%float else 0%float
  | PNumber x => x
  | PString s => StringToNumber s
  end.

(** IsLessThan on primitives; [None] is its [undefined]. *)
Definition IsLessThan (px py : Primitive) : option bool :=
  match px, py with
  | PString a, PString b => Some (String.ltb a b)
  | _, _ =>
      let nx := ToNumber px in
      let ny := ToNumber py in
      if PrimFloat.is_nan nx || PrimFloat.is_nan ny then None
      else Some (PrimFloat.ltb nx ny)
  end.

(** [a < b] and [a > b]; both convert the left operand first. *)
Definition lessThan (a b : Value) : Completion bool :=
  match ToPrimitive a with
  | Normal pa =>
      match ToPrimitive b with
      | Normal pb => Normal (default false (IsLessThan pa pb))
      | Throw err => Throw err
      end
  | Throw err => Throw err
  end.

Definition greaterThan (a b : Value) : Completion bool :=
  match ToPrimitive a with
  | Normal pa =>
      match ToPrimitive b with
      | Normal pb => Normal (default false (IsLessThan pb pa))
      | Throw err => Throw err
      end
  | Throw err => Throw err
  end.

(** [a === b]. *)
Definition strictEquals (a b : Value) : bool :=
  match a, b with
  | Undefined, Undefined | Null, Null => true
  | Bool x, Bool y => Bool.eqb x y
  | Number x, Number y => PrimFloat.eqb x y
  | Str x, Str y => String.eqb x y
  | Object r _, Object r' _ | Array r _, Array r' _ => N.eqb r r'
  | _, _ => false
  end.

(** SameValueZero, the comparison of [includes]: [NaN] equals itself. *)
Definition SameValueZero (a b : Value) : bool :=
  match a, b with
  | Number x, Number y =>
      PrimFloat.eqb x y || (PrimFloat.is_nan x && PrimFloat.is_nan y)
  | _, _ => strictEquals a b
  end.

Definition isArray (v : Value) : bool :=
  match v with
  | Array _ _ => true
  | _ => false
  end.

Definition includes (elems : list Value) (searchElement : Value) : bool :=
  existsb (fun e => SameValueZero e searchElement) elems.

End Js.

(** ** Data model *)

(** A condition's [type] and [operator] are kept as the strings they are at
    run time: the [switch] statements that read them have [default] cases. *)
Module ProtocolCondition.
Record t : Type := mk {
  type : string;
  operator : string;
  value : Js.Value;
}.
End ProtocolCondition.
Abbreviation ProtocolCondition := ProtocolCondition.t.

Module ProtocolStep.
Record t : Type := mk {
  id : string;
  action : string;
  parameters : Js.Properties;
  nextSteps : list string;
  completionCriteria : option (list ProtocolCondition);
}.
End ProtocolStep.
Abbreviation ProtocolStep := ProtocolStep.t.

Inductive ProtocolType : Type := standard | emergency | custom.

Module Protocol.
Record t : Type := mk {
  id : string;
  name : string;
  type : ProtocolType;
  steps : list ProtocolStep;
  conditions : list ProtocolCondition;
}.
End Protocol.
Abbreviation Protocol := Protocol.t.

(** An absent field of a context reads as [undefined]. *)
Module ProtocolContext.
Record t : Type := mk {
  environmental : Js.Value;
  tactical : Js.Value;
  activeSteps : option (list string);
}.

(** The default argument [{}] of [activateProtocol]. *)
Definition empty : t := mk Js.Undefined Js.Undefined None.
End ProtocolContext.
Abbreviation ProtocolContext := ProtocolContext.t.

(** The notifications of the engine's emitter. *)
Inductive Event : Type :=
| protocol_loaded (id name : string)
| protocol_activated (id initialStep : string)
| protocol_deactivated (id : string)
| step_executed (protocolId stepId : string) (complete : bool)
| step_error (protocolId stepId : string) (error : Js.Error).

(** ** [Map] with its iteration order

    The entries of a [Map] in insertion order, as the language keeps them:
    [delete] empties an entry and leaves its slot, [set] on a present key
    writes in place, [set] on an absent key appends.  An iterator is an index
    into the entries, so entries added during an iteration are visited.  The
    entries of a [Map] hold distinct keys; [write] and [delete] act on every
    entry that holds the key, which on such entries is the one. *)
Module JsMap.
Section Entries.
Context {V : Type}.

Definition t : Type := list (option (string * V)).

Definition holds (key : string) (entry : option (string * V)) : bool :=
  match entry with
  | Some (k, _) => String.eqb k key
  | None => false
  end.

Fixpoint get (key : string) (m : t) : option V :=
  match m with
  | Some (k, v) :: rest => if String.eqb k key then Some v else get key rest
  | None :: rest => get key rest
  | [] => None
  end.

Definition has (key : string) (m : t) : bool :=
  existsb (holds key) m.

Definition write (key : string) (v : V) (m : t) : t :=
  (fun entry => if holds key entry then Some (key, v) else entry) <$> m.

Definition set (key : string) (v : V) (m : t) : t :=
  if has key m then write key v m else (m ++ [Some (key, v)])%list.

Definition delete (key : string) (m : t) : t :=
  (fun entry => if holds key entry then None else entry) <$> m.
End Entries.
Arguments t V : clear implicits.
End JsMap.

(** ** The collaborator

    [TacticalCore] as far as the engine calls it.  A layer holds its elements
    in insertion order; the identifiers the source draws from the clock and
    [Math.random] are not modelled, nor are the notifications of the
    collaborator's own emitter other than ['situation:updated'].  Of a
    situational update the model keeps the timestamp: the rest of the payload
    is constant or a copy of the layers. *)
Module TacticalElement.
Record t : Type := mk {
  type : string;
  position : Js.Value;
  metadata : Js.Properties;
}.
End TacticalElement.
Abbreviation TacticalElement := TacticalElement.t.

Module TacticalCore.
Record t : Type := mk {
  layers : gmap string (list TacticalElement);
  situationUpdates : list float;
}.
End TacticalCore.
Abbreviation TacticalCore := TacticalCore.t.

(** ** The machine *)

(** The engine's two maps and its collaborator, the notifications emitted so
    far, and the wall clock: [clock k] is what the [k]-th call of [Date.now()]
    returns, [clockReads] counts the calls made. *)
Record World : Type := {
  protocols : gmap string Protocol;
  activeProtocols : JsMap.t (list string);
  tacticalCore : TacticalCore;
  emitted : list Event;
  clock : nat -> float;
  clockReads : nat;
}.

Definition withProtocols (f : gmap string Protocol -> gmap string Protocol) (w : World) : World :=
  {| protocols := f (protocols w); activeProtocols := activeProtocols w;
     tacticalCore := tacticalCore w; emitted := emitted w;
     clock := clock w; clockReads := clockReads w |}.

Definition withActiveProtocols (f : JsMap.t (list string) -> JsMap.t (list string)) (w : World) : World :=
  {| protocols := protocols w; activeProtocols := f (activeProtocols w);
     tacticalCore := tacticalCore w; emitted := emitted w;
     clock := clock w; clockReads := clockReads w |}.

Definition withTacticalCore (f : TacticalCore -> TacticalCore) (w : World) : World :=
  {| protocols := protocols w; activeProtocols := activeProtocols w;
     tacticalCore := f (tacticalCore w); emitted := emitted w;
     clock := clock w; clockReads := clockReads w |}.

Definition withEmitted (f : list Event -> list Event) (w : World) : World :=
  {| protocols := protocols w; activeProtocols := activeProtocols w;
     tacticalCore := tacticalCore w; emitted := f (emitted w);
     clock := clock w; clockReads := clockReads w |}.

Definition tick (w : World) : World :=
  {| protocols := protocols w; activeProtocols := activeProtocols w;
     tacticalCore := tacticalCore w; emitted := emitted w;
     clock := clock w; clockReads := S (clockReads w) |}.

(** A computation runs on the world and completes normally or abruptly;
    [None] is a run cut short by the bound on nested calls that the recursive
    methods carry. *)
Definition M (A : Type) : Type := World -> option (Js.Completion A * World).

Definition ret {A} (a : A) : M A := fun w => Some (Js.Normal a, w).

Definition throw {A} (e : Js.Error) : M A := fun w => Some (Js.Throw e, w).

Definition bind {A B} (m : M A) (k : A -> M B) : M B :=
  fun w =>
    match m w with
    | Some (Js.Normal a, w') => k a w'
    | Some (Js.Throw e, w') => Some (Js.Throw e, w')
    | None => None
    end.

Notation "x <- m ;; k" := (bind m (fun x => k))
  (at level 90, m at next level, right associativity).
Notation "m ;;; k" := (bind m (fun _ => k))
  (at level 90, right associativity).

Definition tryCatch {A} (body : M A) (handler : Js.Error -> M A) : M A :=
  fun w =>
    match body w with
    | Some (Js.Throw e, w') => handler e w'
    | outcome => outcome
    end.

Definition completion {A} (c : Js.Completion A) : M A :=
  fun w => Some (c, w).

Definition gets {A} (f : World -> A) : M A := fun w => Some (Js.Normal (f w), w).

Definition modify (f : World -> World) : M unit := fun w => Some (Js.Normal tt, f w).

Definition outOfFuel {A} : M A := fun _ => None.

(** [this.emit(...)]: the notification joins the log. *)
Definition emit (e : Event) : M unit := modify (withEmitted (fun log => (log ++ [e])%list)).

(** [Date.now()]. *)
Definition DateNow : M float :=
  fun w => Some (Js.Normal (clock w (clockReads w)), tick w).

(** [array.every(predicate)]: stops at the first [false]. *)
Fixpoint every {A} (l : list A) (predicate : A -> M bool) : M bool :=
  match l with
  | [] => ret true
  | a :: rest => b <- predicate a ;; if b then every rest predicate else ret false
  end.

(** [array.forEach(callback)]. *)
Fixpoint forEach {A} (l : list A) (callback : A -> M unit) : M unit :=
  match l with
  | [] => ret tt
  | a :: rest => callback a ;;; forEach rest callback
  end.

(** [await Promise.all(tasks)], the tasks run to completion one after the
    other in array order: every task runs, and the first rejection is the
    rejection of the whole. *)
Fixpoint PromiseAll (tasks : list (M unit)) : M unit :=
  match tasks with
  | [] => ret tt
  | task :: rest =>
      fun w =>
        match task w with
        | Some (Js.Normal _, w') => PromiseAll rest w'
        | Some (Js.Throw e, w') =>
            match PromiseAll rest w' with
            | Some (_, w'') => Some (Js.Throw e, w'')
            | None => None
            end
        | None => None
        end
  end.

(** ** The errors thrown, by message *)

Definition EmptyProtocol (protocolId : string) : Js.Error :=
  Js.ErrorOf ("Protocol " ++ protocolId ++ " must have at least one step").

Definition InvalidStepReference (nextId protocolId : string) : Js.Error :=
  Js.ErrorOf ("Invalid step reference " ++ nextId ++ " in protocol " ++ protocolId).

Definition NotFound (protocolId : string) : Js.Error :=
  Js.ErrorOf ("Protocol " ++ protocolId ++ " not found").

Definition ConditionsNotMet (protocolId : string) : Js.Error :=
  Js.ErrorOf ("Conditions not met for protocol " ++ protocolId).

Definition UnknownAction (action : string) : Js.Error :=
  Js.ErrorOf ("Unknown action type: " ++ action).

Definition LayerNotFound (layerId : string) : Js.Error :=
  Js.ErrorOf ("Layer " ++ layerId ++ " not found").

(** Reading [.id] of [protocol.steps[0]] when there is no first step. *)
Definition NoFirstStep : Js.Error :=
  Js.TypeError "Cannot read properties of undefined (reading 'id')".

(** ** [TacticalCore]'s two methods *)

(** [addTacticalElement(layerId, element)]: two clock readings, for the
    identifier and for the timestamp that replaces the element's. *)
Definition addTacticalElement (layerId : string) (element : TacticalElement) : M unit :=
  layer <- gets (fun w => TacticalCore.layers (tacticalCore w) !! layerId) ;;
  match layer with
  | None => throw (LayerNotFound layerId)
  | Some elements =>
      _ <- DateNow ;;
      timestamp <- DateNow ;;
      let fullElement :=
        TacticalElement.mk (TacticalElement.type element)
          (TacticalElement.position element)
          (Js.Put (TacticalElement.metadata element) "timestamp" (Js.Number timestamp)) in
      modify (withTacticalCore (fun core =>
        TacticalCore.mk
          (<[layerId := (elements ++ [fullElement])%list]> (TacticalCore.layers core))
          (TacticalCore.situationUpdates core)))
  end.

(** [updateSituationalAwareness(center, radius)]: the three feeds are stubs;
    the update is stamped and emitted as ['situation:updated'].  The engine's
    listener for it is an [async] function whose promise [emit] drops: it runs
    as an operation of its own, [evaluateProtocols] below. *)
Definition updateSituationalAwareness (center radius : Js.Value) : M unit :=
  timestamp <- DateNow ;;
  modify (withTacticalCore (fun core =>
    TacticalCore.mk (TacticalCore.layers core)
      (TacticalCore.situationUpdates core ++ [timestamp])%list)).

(** ** The engine *)

Definition getContextValue (type : string) (context : ProtocolContext) : M Js.Value :=
  if String.eqb type "environmental" then ret (ProtocolContext.environmental context)
  else if String.eqb type "tactical" then ret (ProtocolContext.tactical context)
  else if String.eqb type "temporal" then (now <- DateNow ;; ret (Js.Number now))
  else ret Js.Null.

Definition evaluateCondition (condition : ProtocolCondition) (context : ProtocolContext) : M bool :=
  actualValue <- getContextValue (ProtocolCondition.type condition) context ;;
  let operator := ProtocolCondition.operator condition in
  let value := ProtocolCondition.value condition in
  if String.eqb operator "equals" then ret (Js.strictEquals actualValue value)
  else if String.eqb operator "greater" then completion (Js.greaterThan actualValue value)
  else if String.eqb operator "less" then completion (Js.lessThan actualValue value)
  else if String.eqb operator "contains" then
    ret (Js.isArray actualValue &&
         match actualValue with
         | Js.Array _ elems => Js.includes elems value
         | _ => false
         end)
  else ret false.

Definition validateProtocol (protocol : Protocol) : M unit :=
  if Nat.eqb (length (Protocol.steps protocol)) 0
  then throw (EmptyProtocol (Protocol.id protocol))
  else
    let stepIds : gset string := list_to_set (ProtocolStep.id <$> Protocol.steps protocol) in
    forEach (Protocol.steps protocol) (fun step =>
      forEach (ProtocolStep.nextSteps step) (fun nextId =>
        if bool_decide (nextId ∈ stepIds) then ret tt
        else throw (InvalidStepReference nextId (Protocol.id protocol)))).

Definition loadProtocol (protocol : Protocol) : M unit :=
  validateProtocol protocol ;;;
  modify (withProtocols (insert (Protocol.id protocol) protocol)) ;;;
  emit (protocol_loaded (Protocol.id protocol) (Protocol.name protocol)).

Definition executeAction (action : string) (parameters : Js.Properties)
    (context : ProtocolContext) : M unit :=
  if String.eqb action "mark_location" then
    timestamp <- DateNow ;;
    addTacticalElement "operations"
      (TacticalElement.mk "marker" (Js.Get parameters "position")
         (Js.Put (Js.ownEnumerableProperties (Js.Get parameters "metadata"))
            "timestamp" (Js.Number timestamp)))
  else if String.eqb action "update_situation" then
    updateSituationalAwareness (Js.Get parameters "center") (Js.Get parameters "radius")
  else throw (UnknownAction action).

(** [protocol.steps.find(s => s.id === id)]. *)
Definition findStep (protocol : Protocol) (id : string) : option ProtocolStep :=
  List.find (fun s => String.eqb (ProtocolStep.id s) id) (Protocol.steps protocol).

(** [activeSteps.filter(id => id !== currentStep.id)] with
    [...currentStep.nextSteps] pushed. *)
Definition updatedSteps (activeSteps : list string) (currentStep : ProtocolStep) : list string :=
  (List.filter (fun id => negb (String.eqb id (ProtocolStep.id currentStep))) activeSteps
   ++ ProtocolStep.nextSteps currentStep)%list.

(** [progressProtocol], over the method it calls for each successor. *)
Definition progressProtocolWith
    (executeProtocolStep : Protocol -> ProtocolStep -> ProtocolContext -> M unit)
    (protocol : Protocol) (currentStep : ProtocolStep) (context : ProtocolContext) : M unit :=
  activeSteps <- gets (fun w =>
    default [] (JsMap.get (Protocol.id protocol) (activeProtocols w))) ;;
  modify (withActiveProtocols
    (JsMap.set (Protocol.id protocol) (updatedSteps activeSteps currentStep))) ;;;
  PromiseAll (List.map (fun nextId =>
    match findStep protocol nextId with
    | Some nextStep => executeProtocolStep protocol nextStep context
    | None => ret tt
    end) (ProtocolStep.nextSteps currentStep)).

(** [!step.completionCriteria || step.completionCriteria.every(...)]. *)
Definition isComplete (step : ProtocolStep) (context : ProtocolContext) : M bool :=
  match ProtocolStep.completionCriteria step with
  | None => ret true
  | Some criteria => every criteria (fun condition => evaluateCondition condition context)
  end.

(** [executeProtocolStep] and [progressProtocol] call each other; [fuel]
    bounds the depth of the nesting. *)
Fixpoint executeProtocolStep (fuel : nat) (protocol : Protocol) (step : ProtocolStep)
    (context : ProtocolContext) : M unit :=
  match fuel with
  | O => outOfFuel
  | S fuel' =>
      tryCatch
        (executeAction (ProtocolStep.action step) (ProtocolStep.parameters step) context ;;;
         complete <- isComplete step context ;;
         (if complete : bool
          then progressProtocolWith (executeProtocolStep fuel') protocol step context
          else ret tt) ;;;
         emit (step_executed (Protocol.id protocol) (ProtocolStep.id step) complete))
        (fun error =>
           emit (step_error (Protocol.id protocol) (ProtocolStep.id step) error))
  end.

Definition progressProtocol (fuel : nat) : Protocol -> ProtocolStep -> ProtocolContext -> M unit :=
  progressProtocolWith (executeProtocolStep fuel).

Definition activateProtocol (fuel : nat) (protocolId : string) (context : ProtocolContext) : M unit :=
  registered <- gets (fun w => protocols w !! protocolId) ;;
  match registered with
  | None => throw (NotFound protocolId)
  | Some protocol =>
      conditionsMet <-
        every (Protocol.conditions protocol)
          (fun condition => evaluateCondition condition context) ;;
      if negb conditionsMet then throw (ConditionsNotMet protocolId)
      else
        match Protocol.steps protocol with
        | [] => throw NoFirstStep
        | first :: _ =>
            modify (withActiveProtocols (JsMap.set protocolId [ProtocolStep.id first])) ;;;
            executeProtocolStep fuel protocol first context ;;;
            emit (protocol_activated protocolId (ProtocolStep.id first))
        end
  end.

Definition deactivateProtocol (protocolId : string) : M unit :=
  modify (withActiveProtocols (JsMap.delete protocolId)) ;;;
  emit (protocol_deactivated protocolId).

(** [{...situationUpdate, activeSteps}] read as a context. *)
Definition updateContext (situationUpdate : Js.Value) (activeSteps : list string) : ProtocolContext :=
  let spread := Js.ownEnumerableProperties situationUpdate in
  ProtocolContext.mk (Js.Get spread "environmental") (Js.Get spread "tactical")
    (Some activeSteps).

(** The body of the loop of [evaluateProtocols], for one entry. *)
Definition evaluateProtocolsEntry (fuel : nat) (situationUpdate : Js.Value)
    (protocolId : string) (activeSteps : list string) : M unit :=
  registered <- gets (fun w => protocols w !! protocolId) ;;
  match registered with
  | None => ret tt
  | Some protocol =>
      let context := updateContext situationUpdate activeSteps in
      conditionsMet <-
        every (Protocol.conditions protocol)
          (fun condition => evaluateCondition condition context) ;;
      if negb conditionsMet then deactivateProtocol protocolId
      else
        PromiseAll (List.map (fun stepId =>
          match findStep protocol stepId with
          | Some step => executeProtocolStep fuel protocol step context
          | None => ret tt
          end) activeSteps)
  end.

(** [for (const [protocolId, activeSteps] of this.activeProtocols)]: the
    iterator stands at [index]. *)
Fixpoint evaluateProtocolsFrom (fuel : nat) (situationUpdate : Js.Value) (index : nat) : M unit :=
  match fuel with
  | O => outOfFuel
  | S fuel' =>
      fun w =>
        match activeProtocols w !! index with
        | None => ret tt w
        | Some None => evaluateProtocolsFrom fuel' situationUpdate (S index) w
        | Some (Some (protocolId, activeSteps)) =>
            (evaluateProtocolsEntry fuel' situationUpdate protocolId activeSteps ;;;
             evaluateProtocolsFrom fuel' situationUpdate (S index)) w
        end
  end.

Definition evaluateProtocols (fuel : nat) (situationUpdate : Js.Value) : M unit :=
  evaluateProtocolsFrom fuel situationUpdate 0.

(** ** Initial state and runs *)

(** [new TacticalCore()] once [initializeTacticalSystems] has created its
    three layers (the first, ['operations'], within the constructor call). *)
Definition newTacticalCore : TacticalCore :=
  TacticalCore.mk (<["operations" := []]> (<["intel" := []]> (<["assets" := []]> ∅))) [].

(** [new ProtocolEngine(tacticalCore)], under a given clock. *)
Definition newProtocolEngine (tacticalCore : TacticalCore) (clock : nat -> float) : World :=
  {| protocols := ∅; activeProtocols := []; tacticalCore := tacticalCore;
     emitted := []; clock := clock; clockReads := 0 |}.

(** What the engine is asked to do: the two public methods, the listener of
    ['situation:updated'], and [deactivateProtocol], which the source calls
    from that listener and the specification lists among the operations. *)
Inductive Operation : Type :=
| LoadProtocol (protocol : Protocol)
| ActivateProtocol (protocolId : string) (context : ProtocolContext)
| SituationUpdated (situationUpdate : Js.Value)
| DeactivateProtocol (protocolId : string).

Definition run (fuel : nat) (operation : Operation) : M unit :=
  match operation with
  | LoadProtocol protocol => loadProtocol protocol
  | ActivateProtocol protocolId context => activateProtocol fuel protocolId context
  | SituationUpdated situationUpdate => evaluateProtocols fuel situationUpdate
  | DeactivateProtocol protocolId => deactivateProtocol protocolId
  end.

(** The states the engine is in between operations. *)
Inductive reachable : World -> Prop :=
| reachable_new tacticalCore clock :
    reachable (newProtocolEngine tacticalCore clock)
| reachable_run w fuel operation outcome w' :
    reachable w ->
    run fuel operation w = Some (outcome, w') ->
    reachable w'.

(** ** Notions of the statements *)

Open Scope list_scope.
Open Scope nat_scope.

(** Only the count of clock readings moved. *)
Definition clockOnly (w w' : World) : Prop :=
  protocols w' = protocols w ∧ activeProtocols w' = activeProtocols w ∧
  tacticalCore w' = tacticalCore w ∧ emitted w' = emitted w ∧
  clock w' = clock w ∧ (clockReads w ≤ clockReads w')%nat.

(** A step notification of the given protocol. *)
Definition stepEventOf (protocolId : string) (e : Event) : Prop :=
  match e with
  | step_executed p _ _ | step_error p _ _ => p = protocolId
  | _ => False
  end.

(** From [w] to [w']: the registry is kept, the active steps of the other
    protocols are kept, and what was emitted are step notifications of the
    one protocol. *)
Definition cascade (protocolId : string) (w w' : World) : Prop :=
  protocols w' = protocols w ∧
  (∀ k, k ≠ protocolId →
     JsMap.get k (activeProtocols w') = JsMap.get k (activeProtocols w)) ∧
  ∃ log, emitted w' = (emitted w ++ log)%list ∧ Forall (stepEventOf protocolId) log.

(** A computation keeps a relation when every run of it, however it
    completes, relates the world before to the world after. *)
Definition keeps {A} (R : World -> World -> Prop) (m : M A) : Prop :=
  ∀ w r w', m w = Some (r, w') → R w w'.


(** A step of the protocol names a successor that is no step of it. *)
Definition danglingReference (protocol : Protocol) : Prop :=
  ∃ step nextId,
    step ∈ Protocol.steps protocol ∧
    nextId ∈ ProtocolStep.nextSteps step ∧
    nextId ∉ (ProtocolStep.id <$> Protocol.steps protocol).

Definition malformed (protocol : Protocol) : Prop :=
  Protocol.steps protocol = [] ∨ danglingReference protocol.

(** The two errors of [validateProtocol]. *)
Definition StructuralError (protocol : Protocol) (e : Js.Error) : Prop :=
  e = EmptyProtocol (Protocol.id protocol) ∨
  ∃ nextId, e = InvalidStepReference nextId (Protocol.id protocol).

(** Every protocol is registered under its own id, and every protocol with
    an entry in [activeProtocols] has one in [protocols]. *)
Definition activeAreRegistered (w : World) : Prop :=
  (∀ k protocol, protocols w !! k = Some protocol → Protocol.id protocol = k) ∧
  (∀ k, is_Some (JsMap.get k (activeProtocols w)) → is_Some (protocols w !! k)).





(** A deactivation notification is meaningful when the call that emits it,
    made in the world [before], removes an entry. *)
Definition meaningfulDeactivation (protocolId : string) (before : World) : bool :=
  JsMap.has protocolId (activeProtocols before).

(** The notification of an execution of the step [stepId] of [protocolId]. *)
Definition notifies (protocolId stepId : string) (e : Event) : Prop :=
  (∃ complete, e = step_executed protocolId stepId complete) ∨
  (∃ error, e = step_error protocolId stepId error).

(** What the turn of the entry of [protocolId] in a re-evaluation pass
    touches: the registry and the other entries stay, and what is emitted
    are step notifications and the deactivation of that protocol. *)
Definition turn (protocolId : string) (w w' : World) : Prop :=
  protocols w' = protocols w ∧
  (∀ k, k ≠ protocolId →
     JsMap.get k (activeProtocols w') = JsMap.get k (activeProtocols w)) ∧
  ∃ log, emitted w' = emitted w ++ log ∧
         Forall (fun e => stepEventOf protocolId e ∨ e = protocol_deactivated protocolId) log.

(** The registry is as it was. *)
Definition registryKept (w w' : World) : Prop := protocols w' = protocols w.

(** ** Data of the examples *)

(** A clock that stands still. *)
Definition quietWorld : World := newProtocolEngine newTacticalCore (fun _ => 0%float).

(** [{type: "tactical", operator: "greater", value: 5}]. *)
Definition threatAbove5 : ProtocolCondition :=
  ProtocolCondition.mk "tactical" "greater" (Js.Number 5).

(** [{tactical: {threat: n}}]. *)
Definition threatContext (ref : N) (threat : float) : ProtocolContext :=
  ProtocolContext.mk Js.Undefined (Js.Object ref [("threat", Js.Number threat)]) None.

(** The protocol of the specification's example: [s1] marks a location and
    leads to [s2], which updates the situation. *)
Definition stepS1 : ProtocolStep := ProtocolStep.mk "s1" "mark_location" [] ["s2"] None.
Definition stepS2 : ProtocolStep := ProtocolStep.mk "s2" "update_situation" [] [] None.
Definition protocolP1 : Protocol :=
  Protocol.mk "p1" "p1" standard [stepS1; stepS2] [].

(** The world a run ends in. *)
Definition worldAfter (m : M unit) (w : World) : World :=
  match m w with
  | Some (_, w') => w'
  | None => w
  end.

Definition p1Loaded : World := worldAfter (loadProtocol protocolP1) quietWorld.
Definition p1Active : World :=
  worldAfter (activateProtocol 3 "p1" ProtocolContext.empty) p1Loaded.

(** The protocol that [TonyCore] loads at start-up; [executeAction] knows
    neither of its two actions. *)
Definition initComm : ProtocolStep :=
  ProtocolStep.mk "init-comm" "establish_communication"
    [("mode", Js.Str "secure")] ["confirm-receipt"] None.
Definition confirmReceipt : ProtocolStep :=
  ProtocolStep.mk "confirm-receipt" "verify_transmission"
    [("requireAck", Js.Bool true)] [] None.
Definition rogerRoger : Protocol :=
  Protocol.mk "roger-roger" "Roger Roger Protocol" standard [initComm; confirmReceipt] [].

(** The first step of [protocolP1] dispatched, and then progressed. *)
Definition s1Dispatched : World :=
  worldAfter (executeAction "mark_location" [] ProtocolContext.empty) quietWorld.
Definition s1Progressed : World :=
  worldAfter (progressProtocol 2 protocolP1 stepS1 ProtocolContext.empty) s1Dispatched.



(** A protocol to be activated before a deadline: the clock reads 500 at
    first and 2000 from then on.  Its one step stays active until the
    context reports ["clear"]. *)
Definition beforeDeadline : ProtocolCondition :=
  ProtocolCondition.mk "temporal" "less" (Js.Number 1000).
Definition lookout : ProtocolStep :=
  ProtocolStep.mk "lookout" "mark_location" [] []
    (Some [ProtocolCondition.mk "tactical" "equals" (Js.Str "clear")]).
Definition watch : Protocol :=
  Protocol.mk "watch" "Watch" emergency [lookout] [beforeDeadline].
Definition deadlineClock (k : nat) : float :=
  if k <? 1 then 500%float else 2000%float.
Definition watchActive : World :=
  worldAfter (loadProtocol watch ;;; activateProtocol 2 "watch" ProtocolContext.empty)
    (newProtocolEngine newTacticalCore deadlineClock).

(** A protocol whose one step stays active, while it is active; and the
    definition loaded over it, whose one step has another id. *)
Definition hold : ProtocolStep :=
  ProtocolStep.mk "hold" "mark_location" [] []
    (Some [ProtocolCondition.mk "tactical" "equals" (Js.Str "clear")]).
Definition patrol : Protocol := Protocol.mk "patrol" "Patrol" standard [hold] [].
Definition regroup : ProtocolStep := ProtocolStep.mk "regroup" "mark_location" [] [] None.
Definition patrolRevised : Protocol := Protocol.mk "patrol" "Patrol" standard [regroup] [].
Definition patrolActive : World :=
  worldAfter (loadProtocol patrol ;;; activateProtocol 2 "patrol" ProtocolContext.empty)
    quietWorld.
Definition patrolReloaded : World := worldAfter (loadProtocol patrolRevised) patrolActive.

(** A definition without steps, under the id of the example protocol. *)
Definition emptyP1 : Protocol := Protocol.mk "p1" "p1" standard [] [].

(** A situational update as [correlateTacticalData] shapes it:
    [{timestamp, weather: {conditions, alerts}, traffic: {incidents,
    congestion}, tacticalElements}]. *)
Definition quietUpdate : Js.Value :=
  Js.Object 10
    [("timestamp", Js.Number 0);
     ("weather", Js.Object 11 [("conditions", Js.Object 12 []); ("alerts", Js.Array 13 [])]);
     ("traffic", Js.Object 14 [("incidents", Js.Array 15 []); ("congestion", Js.Object 16 [])]);
     ("tacticalElements", Js.Array 17 [])].

(** * The other classes *)

(** ** Further operators of the language *)

Module JsOps.

(** [v.key], for a key that is neither ["length"] nor a property of a
    prototype. *)
Definition member (v : Js.Value) (key : string) : Js.Completion Js.Value :=
  match v with
  | Js.Undefined =>
      Js.Throw (Js.TypeError ("Cannot read properties of undefined (reading '" ++ key ++ "')")%string)
  | Js.Null =>
      Js.Throw (Js.TypeError ("Cannot read properties of null (reading '" ++ key ++ "')")%string)
  | _ => Js.Normal (Js.Get (Js.ownEnumerableProperties v) key)
  end.

(** ToBoolean. *)
Definition ToBoolean (v : Js.Value) : bool :=
  match v with
  | Js.Undefined | Js.Null => false
  | Js.Bool b => b
  | Js.Number x => negb (PrimFloat.eqb x 0 || PrimFloat.is_nan x)
  | Js.Str s => negb (String.eqb s "")
  | Js.Object _ _ | Js.Array _ _ => true
  end.

(** [v === undefined || v === null], the test of [?.]. *)
Definition nullish (v : Js.Value) : bool :=
  match v with
  | Js.Undefined | Js.Null => true
  | _ => false
  end.

End JsOps.

(** ** [TacticalCore] in full

    The class with its layers of identified elements, its feeds and its own
    notifications.  An element is the object that the caller passes, spread
    into a new one; [Math.random().toString(36).substr(2, 9)] is given, like
    the clock, as the sequence of its results; every object that a method
    creates takes the next free reference. *)
Module TacticalLayer.
Record t : Type := mk {
  id : string;
  name : string;
  elements : JsMap.t Js.Value;
  visible : bool;
}.
End TacticalLayer.
Abbreviation TacticalLayer := TacticalLayer.t.

Module OSINTFeed.
Record t : Type := mk {
  url : string;
  lastUpdate : Js.Value;
  data : Js.Value;
}.
End OSINTFeed.
Abbreviation OSINTFeed := OSINTFeed.t.

Module Tactical.

(** The notifications of the class's emitter. *)
Inductive Notification : Type :=
| ready (container : Js.Value)
| layer_created (id name : string)
| element_added (layerId : string) (element : Js.Value)
| situation_updated (situationalUpdate : Js.Value).

Record Core : Type := {
  layers : JsMap.t TacticalLayer;
  osintFeeds : JsMap.t OSINTFeed;
  emitted : list Notification;
  clock : nat -> float;
  clockReads : nat;
  random : nat -> string;
  randomReads : nat;
  allocated : N;
}.

Definition withLayers (f : JsMap.t TacticalLayer -> JsMap.t TacticalLayer) (core : Core) : Core :=
  {| layers := f (layers core); osintFeeds := osintFeeds core; emitted := emitted core;
     clock := clock core; clockReads := clockReads core;
     random := random core; randomReads := randomReads core; allocated := allocated core |}.

Definition withOsintFeeds (f : JsMap.t OSINTFeed -> JsMap.t OSINTFeed) (core : Core) : Core :=
  {| layers := layers core; osintFeeds := f (osintFeeds core); emitted := emitted core;
     clock := clock core; clockReads := clockReads core;
     random := random core; randomReads := randomReads core; allocated := allocated core |}.

(** A method runs on the object and completes normally or abruptly. *)
Definition Method (A : Type) : Type := Core -> Js.Completion A * Core.

Definition ret {A} (a : A) : Method A := fun core => (Js.Normal a, core).

Definition throw {A} (e : Js.Error) : Method A := fun core => (Js.Throw e, core).

Definition bind {A B} (m : Method A) (k : A -> Method B) : Method B :=
  fun core =>
    match m core with
    | (Js.Normal a, core') => k a core'
    | (Js.Throw e, core') => (Js.Throw e, core')
    end.

Declare Scope method_scope.
Delimit Scope method_scope with method.
Notation "x <- m ;; k" := (bind m (fun x => k))
  (at level 90, m at next level, right associativity) : method_scope.
Notation "m ;;; k" := (bind m (fun _ => k))
  (at level 90, right associativity) : method_scope.
Local Open Scope method_scope.

Definition completion {A} (c : Js.Completion A) : Method A := fun core => (c, core).

Definition gets {A} (f : Core -> A) : Method A := fun core => (Js.Normal (f core), core).

Definition modify (f : Core -> Core) : Method unit := fun core => (Js.Normal tt, f core).

Definition emit (n : Notification) : Method unit :=
  modify (fun core =>
    {| layers := layers core; osintFeeds := osintFeeds core;
       emitted := (emitted core ++ [n])%list;
       clock := clock core; clockReads := clockReads core;
       random := random core; randomReads := randomReads core;
       allocated := allocated core |}).

(** [Date.now()]. *)
Definition DateNow : Method float :=
  fun core =>
    (Js.Normal (clock core (clockReads core)),
     {| layers := layers core; osintFeeds := osintFeeds core; emitted := emitted core;
        clock := clock core; clockReads := S (clockReads core);
        random := random core; randomReads := randomReads core;
        allocated := allocated core |}).

(** [Math.random().toString(36).substr(2, 9)]. *)
Definition randomSuffix : Method string :=
  fun core =>
    (Js.Normal (random core (randomReads core)),
     {| layers := layers core; osintFeeds := osintFeeds core; emitted := emitted core;
        clock := clock core; clockReads := clockReads core;
        random := random core; randomReads := S (randomReads core);
        allocated := allocated core |}).

(** The reference of a new object or array. *)
Definition fresh : Method N :=
  fun core =>
    (Js.Normal (allocated core),
     {| layers := layers core; osintFeeds := osintFeeds core; emitted := emitted core;
        clock := clock core; clockReads := clockReads core;
        random := random core; randomReads := randomReads core;
        allocated := N.succ (allocated core) |}).

(** [Array.from(map.values())]. *)
Definition values {V} (m : JsMap.t V) : list V :=
  omap (fun entry : option (string * V) => snd <$> entry) m.

(** [v || alternative]. *)
Definition orElse (v : Js.Value) (alternative : Method Js.Value) : Method Js.Value :=
  if JsOps.ToBoolean v then ret v else alternative.

Definition newObject (props : Js.Properties) : Method Js.Value :=
  ref <- fresh ;; ret (Js.Object ref props).

Definition newArray (elems : list Js.Value) : Method Js.Value :=
  ref <- fresh ;; ret (Js.Array ref elems).

Definition initialize (container : Js.Value) : Method unit :=
  emit (ready container).

Definition createLayer (id name : string) : Method TacticalLayer :=
  let layer := TacticalLayer.mk id name [] true in
  modify (withLayers (JsMap.set id layer)) ;;;
  emit (layer_created id name) ;;;
  ret layer.

Definition initializeOSINTFeeds : Method unit :=
  let feeds :=
    [("weather", "https://api.weather.gov/points/");
     ("traffic", "https://api.mapbox.com/traffic/v1/");
     ("alerts", "https://api.weather.gov/alerts/active")] in
  modify (withOsintFeeds (fun osintFeeds =>
    fold_left (fun osintFeeds feed =>
                 JsMap.set (fst feed) (OSINTFeed.mk (snd feed) Js.Null Js.Null) osintFeeds)
      feeds osintFeeds)).

Definition initializeTacticalSystems : Method unit :=
  createLayer "operations" "Operations" ;;;
  createLayer "intel" "Intelligence" ;;;
  createLayer "assets" "Assets" ;;;
  initializeOSINTFeeds.

(** [layer.elements.set(id, element)] on the layer that [layers] holds under
    [layerId]. *)
Definition setElement (layerId id : string) (element : Js.Value) : Method unit :=
  modify (withLayers (fun layers =>
    match JsMap.get layerId layers with
    | Some layer =>
        JsMap.write layerId
          (TacticalLayer.mk (TacticalLayer.id layer) (TacticalLayer.name layer)
             (JsMap.set id element (TacticalLayer.elements layer))
             (TacticalLayer.visible layer))
          layers
    | None => layers
    end)).

Definition addTacticalElement (layerId : string) (element : Js.Value) : Method string :=
  layer <- gets (fun core => JsMap.get layerId (layers core)) ;;
  match layer with
  | None => throw (LayerNotFound layerId)
  | Some _ =>
      now <- DateNow ;;
      suffix <- randomSuffix ;;
      let id := ("tac-" ++ Js.NumberToString now ++ "-" ++ suffix)%string in
      ref <- fresh ;;
      metadataRef <- fresh ;;
      metadata <- completion (JsOps.member element "metadata") ;;
      timestamp <- DateNow ;;
      let fullElement :=
        Js.Object ref
          (Js.Put (Js.Put (Js.ownEnumerableProperties element) "id" (Js.Str id))
             "metadata"
             (Js.Object metadataRef
                (Js.Put (Js.ownEnumerableProperties metadata)
                   "timestamp" (Js.Number timestamp)))) in
      setElement layerId id fullElement ;;;
      emit (element_added layerId fullElement) ;;;
      ret id
  end.

Definition updateWeatherData (center : Js.Value) : Method Js.Value :=
  conditions <- newObject [] ;;
  alerts <- newArray [] ;;
  newObject [("conditions", conditions); ("alerts", alerts)].

Definition updateTrafficData (center radius : Js.Value) : Method Js.Value :=
  incidents <- newArray [] ;;
  congestion <- newObject [] ;;
  newObject [("incidents", incidents); ("congestion", congestion)].

Definition updateAlertData (center : Js.Value) : Method Js.Value :=
  features <- newArray [] ;;
  newObject [("features", features)].

(** The elements of all layers, layer after layer. *)
Definition tacticalElements (core : Core) : list Js.Value :=
  flat_map (fun layer => values (TacticalLayer.elements layer)) (values (layers core)).

Definition correlateTacticalData (weather traffic alerts : Js.Value) : Method Js.Value :=
  timestamp <- DateNow ;;
  conditions <- completion (JsOps.member weather "conditions") ;;
  conditions <- orElse conditions (newObject []) ;;
  features <- completion (JsOps.member alerts "features") ;;
  features <- orElse features (newArray []) ;;
  weatherPart <- newObject [("conditions", conditions); ("alerts", features)] ;;
  incidents <- completion (JsOps.member traffic "incidents") ;;
  incidents <- orElse incidents (newArray []) ;;
  congestion <- completion (JsOps.member traffic "congestion") ;;
  congestion <- orElse congestion (newObject []) ;;
  trafficPart <- newObject [("incidents", incidents); ("congestion", congestion)] ;;
  elements <- gets tacticalElements ;;
  elements <- newArray elements ;;
  newObject
    [("timestamp", Js.Number timestamp); ("weather", weatherPart);
     ("traffic", trafficPart); ("tacticalElements", elements)].

Definition updateSituationalAwareness (center radius : Js.Value) : Method Js.Value :=
  weather <- updateWeatherData center ;;
  traffic <- updateTrafficData center radius ;;
  alerts <- updateAlertData center ;;
  situationalUpdate <- correlateTacticalData weather traffic alerts ;;
  emit (situation_updated situationalUpdate) ;;;
  ret situationalUpdate.

(** [new TacticalCore()], once [initializeTacticalSystems] has run through. *)
Definition new (clock : nat -> float) (random : nat -> string) : Core :=
  snd (initializeTacticalSystems
         {| layers := []; osintFeeds := []; emitted := [];
            clock := clock; clockReads := 0; random := random; randomReads := 0;
            allocated := 0 |}).

End Tactical.

(** ** [ConvexStore]

    The vector store of the memory module.  A [Float32Array] is the list of
    its elements; the store keeps the array it is given, which is taken not
    to be written to afterwards.  [nanoid()] is given as the sequence of its
    results. *)
Module MemoryMetadata.
Record t : Type := mk {
  type : string;
  context : string;
  timestamp : float;
  importance : float;
}.
End MemoryMetadata.
Abbreviation MemoryMetadata := MemoryMetadata.t.

Module MemoryVector.
Record t : Type := mk {
  id : string;
  vector : list float;
  metadata : MemoryMetadata;
}.
End MemoryVector.
Abbreviation MemoryVector := MemoryVector.t.

Module ConvexStore.

Record t : Type := {
  dimensions : float;
  memories : JsMap.t MemoryVector;
  nanoid : nat -> string;
  nanoidCalls : nat;
}.

(** [new ConvexStore(dimensions)]; the default is 1536. *)
Definition new (dimensions : float) (nanoid : nat -> string) : t :=
  {| dimensions := dimensions; memories := []; nanoid := nanoid; nanoidCalls := 0 |}.

(** [array.length]. *)
Definition lengthOf {A} (array : list A) : float :=
  Js.decimalToNumber (Z.of_nat (length array)) 0.

Definition DimensionMismatch (dimensions : float) : Js.Error :=
  Js.ErrorOf ("Vector must have " ++ Js.NumberToString dimensions ++ " dimensions")%string.

Definition storeVector (vector : list float) (metadata : MemoryMetadata) (store : t) :
    Js.Completion string * t :=
  if negb (PrimFloat.eqb (lengthOf vector) (dimensions store))
  then (Js.Throw (DimensionMismatch (dimensions store)), store)
  else
    let id := ("mem-" ++ nanoid store (nanoidCalls store))%string in
    (Js.Normal id,
     {| dimensions := dimensions store;
        memories := JsMap.set id (MemoryVector.mk id vector metadata) (memories store);
        nanoid := nanoid store;
        nanoidCalls := S (nanoidCalls store) |}).

(** [getMemory(id)]; [None] is its [null]. *)
Definition getMemory (id : string) (store : t) : option MemoryVector :=
  JsMap.get id (memories store).

(** [v[i]] as an operand of a product: an index out of range reads
    [undefined], which converts to [NaN]. *)
Definition component (v : list float) (i : nat) : float :=
  default Js.NaN (v !! i).

(** The three sums of the loop of [cosineSimilarity], over the indices it
    is run on. *)
Definition sums (a b : list float) (indices : list nat) (start : float * float * float) :
    float * float * float :=
  fold_left
    (fun '(dotProduct, normA, normB) i =>
       ((dotProduct + component a i * component b i)%float,
        (normA + component a i * component a i)%float,
        (normB + component b i * component b i)%float))
    indices start.

Definition cosineSimilarity (a b : list float) : float :=
  let '(dotProduct, normA, normB) := sums a b (seq 0 (length a)) (0, 0, 0)%float in
  (dotProduct / (PrimFloat.sqrt normA * PrimFloat.sqrt normB))%float.

End ConvexStore.

(** ** [SensorySystem]

    The queue and the three processors.  An input is a [Blob], with its MIME
    type and content, an image, or any other value.  The transcription
    service is given as the sequence of the outcomes of its calls: a response
    or a rejection. *)
Module SensorySystem.

Inductive Input : Type :=
| blob (type : string) (content : list Byte.byte)
| imageData
| htmlImageElement
| other (v : Js.Value).

Module SensoryInput.
Record t : Type := mk {
  type : string;
  data : Input;
  timestamp : float;
}.
End SensoryInput.
Abbreviation SensoryInput := SensoryInput.t.

(** The [context] of a result: [{transcript}], [{}] or [{text}]. *)
Inductive Context : Type :=
| transcriptOf (transcript : Js.Value)
| noContext
| textOf (text : Input).

Module ProcessedData.
Record t : Type := mk {
  vector : list float;
  type : string;
  confidence : Js.Value;
  context : Context;
}.
End ProcessedData.
Abbreviation ProcessedData := ProcessedData.t.

Record t : Type := {
  processingQueue : list SensoryInput;
  clock : nat -> float;
  clockReads : nat;
  preRecorded : nat -> Js.Completion Js.Value;
  transcriptions : nat;
}.

Definition new (clock : nat -> float) (preRecorded : nat -> Js.Completion Js.Value) : t :=
  {| processingQueue := []; clock := clock; clockReads := 0;
     preRecorded := preRecorded; transcriptions := 0 |}.

Definition withQueue (f : list SensoryInput -> list SensoryInput) (system : t) : t :=
  {| processingQueue := f (processingQueue system);
     clock := clock system; clockReads := clockReads system;
     preRecorded := preRecorded system; transcriptions := transcriptions system |}.

Definition NoInput : Js.Error := Js.ErrorOf "No input to process".

Definition UnknownInputType (type : string) : Js.Error :=
  Js.ErrorOf ("Unknown input type: " ++ type)%string.

Definition InvalidAudio : Js.Error := Js.ErrorOf "Invalid audio input format".

(** [new Float32Array(1536)]. *)
Definition emptyVector : list float := List.repeat 0%float 1536.

Definition detectInputType (input : Input) : string :=
  match input with
  | blob type _ => if String.prefix "audio/" type then "audio" else "text"
  | imageData | htmlImageElement => "visual"
  | other _ => "text"
  end.

Definition categorizeInput (input : Input) (system : t) : SensoryInput * t :=
  (SensoryInput.mk (detectInputType input) input (clock system (clockReads system)),
   {| processingQueue := processingQueue system;
      clock := clock system; clockReads := S (clockReads system);
      preRecorded := preRecorded system; transcriptions := transcriptions system |}).

(** [response.results?.channels[0]?.alternatives[0]?.key]. *)
Definition firstAlternative (response : Js.Value) (key : string) : Js.Completion Js.Value :=
  match JsOps.member response "results" with
  | Js.Throw e => Js.Throw e
  | Js.Normal results =>
      if JsOps.nullish results then Js.Normal Js.Undefined
      else
        match JsOps.member results "channels" with
        | Js.Throw e => Js.Throw e
        | Js.Normal channels =>
            match JsOps.member channels "0" with
            | Js.Throw e => Js.Throw e
            | Js.Normal channel =>
                if JsOps.nullish channel then Js.Normal Js.Undefined
                else
                  match JsOps.member channel "alternatives" with
                  | Js.Throw e => Js.Throw e
                  | Js.Normal alternatives =>
                      match JsOps.member alternatives "0" with
                      | Js.Throw e => Js.Throw e
                      | Js.Normal alternative =>
                          if JsOps.nullish alternative then Js.Normal Js.Undefined
                          else JsOps.member alternative key
                      end
                  end
            end
        end
  end.

Definition processAudio (input : SensoryInput) (system : t) : Js.Completion ProcessedData * t :=
  match SensoryInput.data input with
  | blob _ _ =>
      let called :=
        {| processingQueue := processingQueue system;
           clock := clock system; clockReads := clockReads system;
           preRecorded := preRecorded system;
           transcriptions := S (transcriptions system) |} in
      match preRecorded system (transcriptions system) with
      | Js.Throw e => (Js.Throw e, called)
      | Js.Normal response =>
          match firstAlternative response "confidence" with
          | Js.Throw e => (Js.Throw e, called)
          | Js.Normal confidence =>
              match firstAlternative response "transcript" with
              | Js.Throw e => (Js.Throw e, called)
              | Js.Normal transcript =>
                  (Js.Normal
                     (ProcessedData.mk emptyVector "audio"
                        (if JsOps.ToBoolean confidence then confidence else Js.Number 0)
                        (transcriptOf transcript)),
                   called)
              end
          end
      end
  | _ => (Js.Throw InvalidAudio, system)
  end.

(** The Number value of the literal [0.8]. *)
Definition visualConfidence : float := 0x1.999999999999ap-1%float.

Definition processVisual (input : SensoryInput) (system : t) : Js.Completion ProcessedData * t :=
  (Js.Normal (ProcessedData.mk emptyVector "visual" (Js.Number visualConfidence) noContext),
   system).

Definition processText (input : SensoryInput) (system : t) : Js.Completion ProcessedData * t :=
  (Js.Normal
     (ProcessedData.mk emptyVector "text" (Js.Number 1) (textOf (SensoryInput.data input))),
   system).

Definition processNext (system : t) : Js.Completion ProcessedData * t :=
  match processingQueue system with
  | [] => (Js.Throw NoInput, system)
  | input :: rest =>
      let shifted := withQueue (fun _ => rest) system in
      if String.eqb (SensoryInput.type input) "audio" then processAudio input shifted
      else if String.eqb (SensoryInput.type input) "visual" then processVisual input shifted
      else if String.eqb (SensoryInput.type input) "text" then processText input shifted
      else (Js.Throw (UnknownInputType (SensoryInput.type input)), shifted)
  end.

Definition process (input : Input) (system : t) : Js.Completion ProcessedData * t :=
  let '(sensoryInput, system) := categorizeInput input system in
  processNext (withQueue (fun queue => queue ++ [sensoryInput]) system).

End SensorySystem.

(** ** [SwarmCore]

    The agents and their evaluation metrics.  Of an agent the model keeps
    what the class reads; its [position], a new [Vector3], and its [memory],
    a vault under the agent's name, are objects of other modules.  The
    recall of a vault is given as the sequence of the outcomes of its calls,
    and [Math.random()] as the sequence of its results.  The clock of the
    run time is kept with the sensory system. *)
Module SwarmCore.

Inductive Role : Type := primary | support.

Module SwarmAgent.
Record t : Type := mk {
  id : string;
  name : string;
  role : Role;
  active : bool;
}.
End SwarmAgent.
Abbreviation SwarmAgent := SwarmAgent.t.

(** [{agentId, response, confidence}]. *)
Module Response.
Record t : Type := mk {
  agentId : string;
  response : string;
  confidence : float;
}.
End Response.
Abbreviation Response := Response.t.

(** ['agent:created'], with [{id, name}]. *)
Inductive Notification : Type :=
| agent_created (id name : string).

Record t : Type := {
  agents : JsMap.t SwarmAgent;
  sensorySystem : SensorySystem.t;
  evaluationMetrics : JsMap.t float;
  emitted : list Notification;
  random : nat -> float;
  randomReads : nat;
  recall : nat -> Js.Completion Js.Value;
  recalls : nat;
}.

Definition isPrimary (role : Role) : bool :=
  match role with
  | primary => true
  | support => false
  end.

Definition createAgent (name : string) (role : Role) (swarm : t) : t :=
  let senses := sensorySystem swarm in
  let now := SensorySystem.clock senses (SensorySystem.clockReads senses) in
  let agent :=
    SwarmAgent.mk ("agent-" ++ name ++ "-" ++ Js.NumberToString now)%string name role true in
  {| agents := JsMap.set (SwarmAgent.id agent) agent (agents swarm);
     sensorySystem :=
       {| SensorySystem.processingQueue := SensorySystem.processingQueue senses;
          SensorySystem.clock := SensorySystem.clock senses;
          SensorySystem.clockReads := S (SensorySystem.clockReads senses);
          SensorySystem.preRecorded := SensorySystem.preRecorded senses;
          SensorySystem.transcriptions := SensorySystem.transcriptions senses |};
     evaluationMetrics := evaluationMetrics swarm;
     emitted := emitted swarm ++ [agent_created (SwarmAgent.id agent) name];
     random := random swarm; randomReads := randomReads swarm;
     recall := recall swarm; recalls := recalls swarm |}.

Definition initializeSwarm (swarm : t) : t :=
  let swarm := createAgent "tony" primary swarm in
  let swarm := createAgent "natasha" primary swarm in
  fold_left (fun swarm name => createAgent name support swarm)
    ["jarvis"; "friday"; "edith"] swarm.

(** [new SwarmCore()], once [initializeSwarm] has run through. *)
Definition new (senses : SensorySystem.t) (random : nat -> float)
    (recall : nat -> Js.Completion Js.Value) : t :=
  initializeSwarm
    {| agents := []; sensorySystem := senses; evaluationMetrics := []; emitted := [];
       random := random; randomReads := 0; recall := recall; recalls := 0 |}.

Definition getActiveAgent (swarm : t) : option SwarmAgent :=
  List.find (fun agent => SwarmAgent.active agent && isPrimary (SwarmAgent.role agent))
    (Tactical.values (agents swarm)).

Definition generateResponse (agent : SwarmAgent) (swarm : t) : Response * t :=
  (Response.mk (SwarmAgent.id agent) "Processing input..." (random swarm (randomReads swarm)),
   {| agents := agents swarm; sensorySystem := sensorySystem swarm;
      evaluationMetrics := evaluationMetrics swarm; emitted := emitted swarm;
      random := random swarm; randomReads := S (randomReads swarm);
      recall := recall swarm; recalls := recalls swarm |}).

(** [this.evaluationMetrics.get(agentId) || 0]. *)
Definition currentScore (agentId : string) (swarm : t) : float :=
  match JsMap.get agentId (evaluationMetrics swarm) with
  | Some score => if JsOps.ToBoolean (Js.Number score) then score else 0%float
  | None => 0%float
  end.

Definition updateEvaluationMetrics (agentId : string) (response : Response) (swarm : t) : t :=
  {| agents := agents swarm; sensorySystem := sensorySystem swarm;
     evaluationMetrics :=
       JsMap.set agentId (currentScore agentId swarm + Response.confidence response)%float
         (evaluationMetrics swarm);
     emitted := emitted swarm;
     random := random swarm; randomReads := randomReads swarm;
     recall := recall swarm; recalls := recalls swarm |}.

Definition evaluateAndRespond (agent : SwarmAgent) (swarm : t) : Response * t :=
  let '(response, swarm) := generateResponse agent swarm in
  (response, updateEvaluationMetrics (SwarmAgent.id agent) response swarm).

(** [processInput(input)]; [None] is its [null]. *)
Definition processInput (input : string) (swarm : t) : Js.Completion (option Response) * t :=
  match getActiveAgent swarm with
  | None => (Js.Normal None, swarm)
  | Some agent =>
      let '(sensoryData, senses) :=
        SensorySystem.process (SensorySystem.other (Js.Str input)) (sensorySystem swarm) in
      let sensed :=
        {| agents := agents swarm; sensorySystem := senses;
           evaluationMetrics := evaluationMetrics swarm; emitted := emitted swarm;
           random := random swarm; randomReads := randomReads swarm;
           recall := recall swarm; recalls := recalls swarm |} in
      match sensoryData with
      | Js.Throw e => (Js.Throw e, sensed)
      | Js.Normal _ =>
          let recalled :=
            {| agents := agents swarm; sensorySystem := senses;
               evaluationMetrics := evaluationMetrics swarm; emitted := emitted swarm;
               random := random swarm; randomReads := randomReads swarm;
               recall := recall swarm; recalls := S (recalls swarm) |} in
          match recall swarm (recalls swarm) with
          | Js.Throw e => (Js.Throw e, recalled)
          | Js.Normal _ =>
              let '(response, swarm) := evaluateAndRespond agent recalled in
              (Js.Normal (Some response), swarm)
          end
      end
  end.

End SwarmCore.

(** ** [MapSystem.processRoutes]

    The one method of [MapSystem] that does not go through the map widget:
    it reads the routes of a directions response, which is JSON, and builds
    the routes that [getDirections] returns. *)
Module MapSystem.

Module RouteStep.
Record t : Type := mk {
  instruction : Js.Value;
  distance : Js.Value;
  duration : Js.Value;
}.
End RouteStep.
Abbreviation RouteStep := RouteStep.t.

Module Route.
Record t : Type := mk {
  distance : Js.Value;
  duration : Js.Value;
  geometry : Js.Value;
  steps : list RouteStep;
}.
End Route.
Abbreviation Route := Route.t.

(** [elems.map(callback)] on the elements of an array: the first error of
    the callback is the error of the whole. *)
Fixpoint mapElements {A} (callback : Js.Value -> Js.Completion A) (elems : list Js.Value) :
    Js.Completion (list A) :=
  match elems with
  | [] => Js.Normal []
  | e :: rest =>
      match callback e with
      | Js.Throw err => Js.Throw err
      | Js.Normal a =>
          match mapElements callback rest with
          | Js.Throw err => Js.Throw err
          | Js.Normal others => Js.Normal (a :: others)
          end
      end
  end.

(** [v.map(callback)], [what] being the text of the expression [v]: only an
    array has the method. *)
Definition mapOver {A} (what : string) (v : Js.Value) (callback : Js.Value -> Js.Completion A) :
    Js.Completion (list A) :=
  match v with
  | Js.Array _ elems => mapElements callback elems
  | Js.Undefined =>
      Js.Throw (Js.TypeError "Cannot read properties of undefined (reading 'map')")
  | Js.Null =>
      Js.Throw (Js.TypeError "Cannot read properties of null (reading 'map')")
  | _ => Js.Throw (Js.TypeError (what ++ ".map is not a function")%string)
  end.

(** A sequence of evaluations, the first error ending it. *)
Definition andThen {A B} (c : Js.Completion A) (k : A -> Js.Completion B) : Js.Completion B :=
  match c with
  | Js.Normal a => k a
  | Js.Throw e => Js.Throw e
  end.

Definition processStep (step : Js.Value) : Js.Completion RouteStep :=
  andThen (JsOps.member step "maneuver") (fun maneuver =>
  andThen (JsOps.member maneuver "instruction") (fun instruction =>
  andThen (JsOps.member step "distance") (fun distance =>
  andThen (JsOps.member step "duration") (fun duration =>
  Js.Normal (RouteStep.mk instruction distance duration))))).

Definition processRoute (route : Js.Value) : Js.Completion Route :=
  andThen (JsOps.member route "distance") (fun distance =>
  andThen (JsOps.member route "duration") (fun duration =>
  andThen (JsOps.member route "geometry") (fun geometry =>
  andThen (JsOps.member route "legs") (fun legs =>
  andThen (JsOps.member legs "0") (fun leg =>
  andThen (JsOps.member leg "steps") (fun steps =>
  andThen (mapOver "route.legs[0].steps" steps processStep) (fun steps =>
  Js.Normal (Route.mk distance duration geometry steps)))))))).

Definition processRoutes (routes : Js.Value) : Js.Completion (list Route) :=
  mapOver "routes" routes processRoute.

End MapSystem.

(** * Notions and data of the further properties *)

(** ** Notions *)


(** [b] is a step that a progression from [a] executes. *)
Definition leadsTo (protocol : Protocol) (a b : ProtocolStep) : Prop :=
  ∃ nextId, nextId ∈ ProtocolStep.nextSteps a ∧ findStep protocol nextId = Some b.

(** The collaborator has the layer that ['mark_location'] writes to. *)
Definition operational (w : World) : Prop :=
  is_Some (TacticalCore.layers (tacticalCore w) !! "operations").

(** The action of the step is one of the two that [executeAction] knows, and
    its completion criteria hold at any time. *)
Definition completesAlways (step : ProtocolStep) (context : ProtocolContext) : Prop :=
  (ProtocolStep.action step = "mark_location" ∨
   ProtocolStep.action step = "update_situation") ∧
  ∀ w, ∃ w', isComplete step context w = Some (Js.Normal true, w').





(** The steps reached from the steps that the ids name. *)
Definition below (protocol : Protocol) (ids : list string) (t : ProtocolStep) : Prop :=
  ∃ nextId next,
    nextId ∈ ids ∧ findStep protocol nextId = Some next ∧ rtc (leadsTo protocol) next t.

(** The calls that the class answers, and the object after a call. *)
Inductive TacticalCall : Type :=
| Initialize (container : Js.Value)
| CreateLayer (id name : string)
| AddTacticalElement (layerId : string) (element : Js.Value)
| UpdateSituationalAwareness (center radius : Js.Value).

Definition perform (call : TacticalCall) (core : Tactical.Core) : Tactical.Core :=
  match call with
  | Initialize container => snd (Tactical.initialize container core)
  | CreateLayer id name => snd (Tactical.createLayer id name core)
  | AddTacticalElement layerId element =>
      snd (Tactical.addTacticalElement layerId element core)
  | UpdateSituationalAwareness center radius =>
      snd (Tactical.updateSituationalAwareness center radius core)
  end.

Definition called (core core' : Tactical.Core) : Prop :=
  ∃ call, perform call core = core'.


(** The condition is of type ["environmental"] or ["tactical"] and does not
    hold when the context has nothing for that type: it is not an equality
    with [undefined], and its value is converted without error when the
    operator is an ordering. *)
Definition unmetWithoutContext (condition : ProtocolCondition) : Prop :=
  (ProtocolCondition.type condition = "environmental" ∨
   ProtocolCondition.type condition = "tactical") ∧
  (ProtocolCondition.operator condition = "equals" →
   ProtocolCondition.value condition ≠ Js.Undefined) ∧
  (ProtocolCondition.operator condition = "greater" ∨
   ProtocolCondition.operator condition = "less" →
   ∃ p, Js.ToPrimitive (ProtocolCondition.value condition) = Js.Normal p).

(** One call of [processInput] leads from the one swarm to the other. *)
Definition serves (swarm swarm' : SwarmCore.t) : Prop :=
  ∃ input outcome, SwarmCore.processInput input swarm = (outcome, swarm').

(** The number is a zero or [NaN]. *)
Definition zeroOrNaN (x : float) : Prop :=
  match Prim2SF x with
  | S754_zero _ | S754_nan => True
  | _ => False
  end.

(** ** Data of the examples *)

(** A protocol whose one step names itself as its successor. *)
Definition spinStep : ProtocolStep := ProtocolStep.mk "spin" "update_situation" [] ["spin"] None.
Definition spin : Protocol := Protocol.mk "spin" "Spin" custom [spinStep] [].

(** The engine once [TonyCore.loadCoreProtocols] has run on a new one. *)
Definition coreProtocolsLoaded : World := worldAfter (loadProtocol rogerRoger) quietWorld.

(** A condition that cannot be evaluated: its value is an object whose
    [toString] is not a function.  And [patrol] with that condition, loaded
    over the active [patrol]. *)
Definition unreadable : ProtocolCondition :=
  ProtocolCondition.mk "temporal" "less" (Js.Object 7 [("toString", Js.Str "soon")]).
Definition patrolUnreadable : Protocol :=
  Protocol.mk "patrol" "Patrol" standard [hold] [unreadable].
Definition patrolMisloaded : World := worldAfter (loadProtocol patrolUnreadable) patrolActive.

(** A collaborator under a clock that stands still and a generator that
    repeats itself, and a marker as [executeAction] passes it, with a
    timestamp of its own. *)
Definition quietCore : Tactical.Core := Tactical.new (fun _ => 0%float) (fun _ => "k3x9q0z1a").
Definition marker : Js.Value :=
  Js.Object 100
    [("type", Js.Str "marker");
     ("position", Js.Array 101 [Js.Number 40; Js.Number 74]);
     ("metadata", Js.Object 102 [("timestamp", Js.Number 5)])].


(** A protocol to be active while the context reports ["clear"]; its one
    step never completes.  It is activated under such a context. *)
Definition stand : ProtocolStep :=
  ProtocolStep.mk "stand" "mark_location" [] []
    (Some [ProtocolCondition.mk "temporal" "less" (Js.Number 0)]).
Definition whileClear : ProtocolCondition :=
  ProtocolCondition.mk "tactical" "equals" (Js.Str "clear").
Definition guarded : Protocol :=
  Protocol.mk "guarded" "Guarded" standard [stand] [whileClear].
Definition guardedActive : World :=
  worldAfter
    (loadProtocol guarded ;;;
     activateProtocol 2 "guarded"
       (ProtocolContext.mk Js.Undefined (Js.Str "clear") None))
    quietWorld.

(** The first update of a new collaborator. *)
Definition firstUpdate : Js.Value :=
  match fst (Tactical.updateSituationalAwareness Js.Undefined Js.Undefined quietCore) with
  | Js.Normal situationalUpdate => situationalUpdate
  | Js.Throw _ => Js.Undefined
  end.

(** A sensory system under a clock that stands still, whose transcription
    service rejects every call, and a [Blob] that is not audio. *)
Definition quietSenses : SensorySystem.t :=
  SensorySystem.new (fun _ => 0%float) (fun _ => Js.Throw (Js.ErrorOf "offline")).
Definition videoClip : SensorySystem.Input := SensorySystem.blob "video/mp4" [].

(** A swarm whose vaults recall nothing and whose responses are all given
    the confidence one half. *)
Definition quietSwarm : SwarmCore.t :=
  SwarmCore.new quietSenses (fun _ => 0.5%float) (fun _ => Js.Normal Js.Undefined).

(** A route with two legs, as the directions service answers for a route
    through one waypoint. *)
Definition firstLeg : Js.Value :=
  Js.Object 3
    [("steps",
      Js.Array 4
        [Js.Object 5
           [("maneuver", Js.Object 6 [("instruction", Js.Str "Head north")]);
            ("distance", Js.Number 500); ("duration", Js.Number 120)]])].
Definition secondLeg : Js.Value :=
  Js.Object 7
    [("steps",
      Js.Array 8
        [Js.Object 9
           [("maneuver", Js.Object 10 [("instruction", Js.Str "Turn left")]);
            ("distance", Js.Number 700); ("duration", Js.Number 180)]])].
Definition twoLegs : Js.Value :=
  Js.Object 1
    [("distance", Js.Number 1200); ("duration", Js.Number 300);
     ("legs", Js.Array 2 [firstLeg; secondLeg])].

(** * Properties *)

(** ** Conditions *)

(** C5, counterexample: against [{tactical: {threat: 9}}] the condition
    [{type: "tactical", operator: "greater", value: 5}] evaluates to [false],
    not [true]: [getContextValue] returns the whole [tactical] object, and
    [{threat: 9} > 5] compares ["[object Object]"], that is [NaN], with 5. *)
Lemma threat9_not_above5 :
  evaluateCondition threatAbove5 (threatContext 1 9) quietWorld
  = Some (Js.Normal false, quietWorld).
Proof. reflexivity. Qed.

(** C5, amended: the condition [{type: "tactical", operator: "greater",
    value: 5}] evaluates to [false], without raising and without touching the
    state, against [{tactical: {threat: 3}}], against [{tactical: {threat: 9}}]
    and against the empty context. *)
Theorem tactical_greater_is_false (w : World) (ref : N) :
  evaluateCondition threatAbove5 (threatContext ref 3) w = Some (Js.Normal false, w) ∧
  evaluateCondition threatAbove5 (threatContext ref 9) w = Some (Js.Normal false, w) ∧
  evaluateCondition threatAbove5 ProtocolContext.empty w = Some (Js.Normal false, w).
Proof. repeat (apply conj); vm_compute; reflexivity. Qed.

(** ** Loading *)

(** A [forEach] whose callback leaves the world alone either runs through or
    stops at the first element that throws. *)
Lemma forEach_check {A} (callback : A -> M unit) (w : World) (l : list A) :
  (∀ a, a ∈ l → ∃ r, callback a w = Some (r, w)) →
  (forEach l callback w = Some (Js.Normal tt, w) ∧
   ∀ a, a ∈ l → callback a w = Some (Js.Normal tt, w))
  ∨ ∃ a e, a ∈ l ∧ callback a w = Some (Js.Throw e, w) ∧
           forEach l callback w = Some (Js.Throw e, w).
Proof.
  induction l as [|a l IH]; intros Hpure; simpl.
  - left. split; [reflexivity|]. intros a Ha. inversion Ha.
  - destruct (Hpure a) as [r Hr]; [left|].
    unfold bind. rewrite Hr. destruct r as [[]|e].
    + destruct IH as [[Hall Hok]|(b & e & Hb & Hthrow & Hall)].
      * intros b Hb. apply Hpure. by right.
      * left. split; [exact Hall|]. intros b Hb.
        apply elem_of_cons in Hb as [->|Hb]; [exact Hr|by apply Hok].
      * right. exists b, e. split; [by right|]. by split.
    + right. exists a, e. split; [left|]. by split.
Qed.

(** [validateProtocol] leaves the world alone, and throws exactly on a
    malformed protocol. *)
Lemma validateProtocol_cases (protocol : Protocol) (w : World) :
  (¬ malformed protocol ∧ validateProtocol protocol w = Some (Js.Normal tt, w))
  ∨ (malformed protocol ∧
     ∃ e, StructuralError protocol e ∧
          validateProtocol protocol w = Some (Js.Throw e, w)).
Proof.
  unfold validateProtocol, malformed.
  destruct (Protocol.steps protocol) as [|s0 steps] eqn:Hsteps; simpl.
  { right. split; [by left|]. exists (EmptyProtocol (Protocol.id protocol)).
    split; [by left|reflexivity]. }
  set (all := s0 :: steps) in *.
  set (stepIds := list_to_set (ProtocolStep.id <$> all) : gset string).
  set (inner := fun nextId : string =>
    if bool_decide (nextId ∈ stepIds) then ret tt
    else throw (InvalidStepReference nextId (Protocol.id protocol))).
  assert (Hinner : ∀ l : list string,
    (forEach l inner w = Some (Js.Normal tt, w) ∧
     ∀ a, a ∈ l → a ∈ (ProtocolStep.id <$> all))
    ∨ ∃ a, a ∈ l ∧ (a ∉ (ProtocolStep.id <$> all)) ∧
           forEach l inner w
           = Some (Js.Throw (InvalidStepReference a (Protocol.id protocol)), w)).
  { intros l. destruct (forEach_check inner w l) as [[Hall Hok]|(a & e & Ha & Hthrow & Hall)].
    - intros a _. unfold inner. case_bool_decide; eauto.
    - left. split; [exact Hall|]. intros a Ha. specialize (Hok a Ha).
      unfold inner in Hok. case_bool_decide as Hin; [|discriminate].
      by apply elem_of_list_to_set in Hin.
    - right. exists a. unfold inner in Hthrow.
      case_bool_decide as Hin; [discriminate|]. inversion Hthrow; subst e.
      split; [exact Ha|]. split; [|exact Hall].
      intros Hin'. apply Hin. by apply elem_of_list_to_set. }
  destruct (forEach_check (fun step => forEach (ProtocolStep.nextSteps step) inner) w all)
    as [[Hall Hok]|(s & e & Hs & Hthrow & Hall)].
  - intros s _. destruct (Hinner (ProtocolStep.nextSteps s)) as [[H _]|(a & _ & _ & H)]; eauto.
  - left. split; [|exact Hall].
    intros [Hempty|(s & nextId & Hs & Hnext & Habsent)]; [discriminate|].
    rewrite Hsteps in Hs, Habsent.
    destruct (Hinner (ProtocolStep.nextSteps s)) as [[_ Hin]|(a & _ & _ & H)].
    + by apply Habsent, Hin.
    + rewrite (Hok s Hs) in H. discriminate.
  - right. destruct (Hinner (ProtocolStep.nextSteps s)) as [[H _]|(a & Ha & Habsent & H)].
    + rewrite Hthrow in H. discriminate.
    + rewrite Hthrow in H. inversion H; subst e. split.
      * right. exists s, a. by rewrite Hsteps.
      * exists (InvalidStepReference a (Protocol.id protocol)).
        split; [right; by exists a|exact Hall].
Qed.

(** ** How computations compose *)

Lemma bind_Some {A B} (m : M A) (k : A -> M B) (w w' : World) (r : Js.Completion B) :
  bind m k w = Some (r, w') →
  (∃ a w1, m w = Some (Js.Normal a, w1) ∧ k a w1 = Some (r, w'))
  ∨ (∃ e, m w = Some (Js.Throw e, w') ∧ r = Js.Throw e).
Proof.
  unfold bind. destruct (m w) as [[[a|e] w1]|]; intros H.
  - left. by exists a, w1.
  - right. exists e. by inversion H.
  - discriminate.
Qed.

Lemma tryCatch_Some {A} (body : M A) (handler : Js.Error -> M A) (w w' : World)
    (r : Js.Completion A) :
  tryCatch body handler w = Some (r, w') →
  (∃ a, body w = Some (Js.Normal a, w') ∧ r = Js.Normal a)
  ∨ (∃ e w1, body w = Some (Js.Throw e, w1) ∧ handler e w1 = Some (r, w')).
Proof.
  unfold tryCatch. destruct (body w) as [[[a|e] w1]|]; intros H.
  - left. exists a. by inversion H.
  - right. by exists e, w1.
  - discriminate.
Qed.

(** A relation on worlds that every task keeps is kept by [Promise.all], and
    no task throwing, neither does the whole. *)
Lemma PromiseAll_keeps (R : World -> World -> Prop) (tasks : list (M unit)) :
  (∀ w, R w w) →
  (∀ w1 w2 w3, R w1 w2 → R w2 w3 → R w1 w3) →
  (∀ task w r w', task ∈ tasks → task w = Some (r, w') → r = Js.Normal tt ∧ R w w') →
  ∀ w r w', PromiseAll tasks w = Some (r, w') → r = Js.Normal tt ∧ R w w'.
Proof.
  intros Hrefl Htrans. induction tasks as [|task tasks IH]; intros Htasks w r w'; simpl.
  - intros H. inversion H. by split.
  - destruct (task w) as [[c w1]|] eqn:Htask; [|discriminate].
    destruct (Htasks task w c w1) as [-> HR]; [left|exact Htask|].
    intros H. destruct (IH (fun t w0 r0 w0' Ht => Htasks t w0 r0 w0' (list_elem_of_further _ _ _ Ht))
                          w1 r w' H) as [-> HR'].
    split; [reflexivity|]. by eapply Htrans.
Qed.

(** ** Frames: what each method leaves alone *)

Lemma clockOnly_refl (w : World) : clockOnly w w.
Proof. by repeat split. Qed.

Lemma clockOnly_trans (w1 w2 w3 : World) :
  clockOnly w1 w2 → clockOnly w2 w3 → clockOnly w1 w3.
Proof.
  intros (?&?&?&?&?&?) (?&?&?&?&?&?). repeat split; try congruence. lia.
Qed.

Lemma clockOnly_tick (w : World) : clockOnly w (tick w).
Proof. repeat split. simpl. lia. Qed.

(** Evaluating a condition always completes, and moves the clock at most. *)
Lemma evaluateCondition_total (condition : ProtocolCondition) (context : ProtocolContext)
    (w : World) :
  ∃ r w', evaluateCondition condition context w = Some (r, w') ∧ clockOnly w w'.
Proof.
  unfold evaluateCondition, getContextValue, bind, DateNow, ret, completion.
  repeat (case_match; simplify_eq);
    eauto using clockOnly_refl, clockOnly_tick.
Qed.

Lemma every_total (conditions : list ProtocolCondition) (context : ProtocolContext)
    (w : World) :
  ∃ r w', every conditions (fun condition => evaluateCondition condition context) w
          = Some (r, w') ∧ clockOnly w w'.
Proof.
  revert w. induction conditions as [|c l IH]; intros w; simpl.
  - eexists _, w. split; [reflexivity|apply clockOnly_refl].
  - unfold bind.
    destruct (evaluateCondition_total c context w) as (r & w1 & -> & H1).
    destruct r as [[]|e].
    + destruct (IH w1) as (r & w2 & -> & H2).
      exists r, w2. split; [reflexivity|]. by eapply clockOnly_trans.
    + by eexists _, w1.
    + by eexists _, w1.
Qed.

(** ** The [Map] *)

Section JsMapFacts.
Context {V : Type}.
Implicit Types (m : JsMap.t V) (key : string) (v : V).

Lemma get_None_has key m : JsMap.has key m = false → JsMap.get key m = None.
Proof.
  induction m as [|[[k v]|] m IH]; simpl; [done| |done].
  destruct (String.eqb k key); [discriminate|done].
Qed.

Lemma get_write_eq key v m : JsMap.has key m = true → JsMap.get key (JsMap.write key v m) = Some v.
Proof.
  induction m as [|[[k v']|] m IH]; simpl; [discriminate| |done].
  destruct (String.eqb k key) eqn:E; simpl.
  - by rewrite String.eqb_refl.
  - by rewrite E.
Qed.

Lemma get_write_ne key key' v m : key' ≠ key → JsMap.get key' (JsMap.write key v m) = JsMap.get key' m.
Proof.
  intros Hne. induction m as [|[[k v']|] m IH]; simpl; [done| |done].
  destruct (String.eqb k key) eqn:E; simpl.
  - apply String.eqb_eq in E as ->.
    apply String.eqb_neq in Hne. rewrite String.eqb_sym in Hne. by rewrite Hne.
  - by rewrite IH.
Qed.

Lemma get_app key m m' :
  JsMap.get key (m ++ m')%list
  = match JsMap.get key m with Some v => Some v | None => JsMap.get key m' end.
Proof.
  induction m as [|[[k v']|] m IH]; simpl; [done| |done].
  by destruct (String.eqb k key).
Qed.

Lemma get_set_eq key v m : JsMap.get key (JsMap.set key v m) = Some v.
Proof.
  unfold JsMap.set. destruct (JsMap.has key m) eqn:H.
  - by apply get_write_eq.
  - rewrite get_app, (get_None_has _ _ H). simpl. by rewrite String.eqb_refl.
Qed.

Lemma get_set_ne key key' v m : key' ≠ key → JsMap.get key' (JsMap.set key v m) = JsMap.get key' m.
Proof.
  intros Hne. unfold JsMap.set. destruct (JsMap.has key m).
  - by apply get_write_ne.
  - rewrite get_app. destruct (JsMap.get key' m); [done|]. simpl.
    apply String.eqb_neq in Hne. rewrite String.eqb_sym in Hne. by rewrite Hne.
Qed.

Lemma get_delete_eq key m : JsMap.get key (JsMap.delete key m) = None.
Proof.
  induction m as [|[[k v']|] m IH]; simpl; [done| |done].
  destruct (String.eqb k key) eqn:E; simpl; [done|]. by rewrite E.
Qed.

Lemma get_delete_ne key key' m : key' ≠ key → JsMap.get key' (JsMap.delete key m) = JsMap.get key' m.
Proof.
  intros Hne. induction m as [|[[k v']|] m IH]; simpl; [done| |done].
  destruct (String.eqb k key) eqn:E; simpl.
  - apply String.eqb_eq in E as ->.
    apply String.eqb_neq in Hne. rewrite String.eqb_sym in Hne. by rewrite Hne.
  - by rewrite IH.
Qed.

Lemma has_delete key m : JsMap.has key (JsMap.delete key m) = false.
Proof.
  unfold JsMap.has, JsMap.delete.
  induction m as [|[[k v']|] m IH]; simpl; [done| |done].
  destruct (String.eqb k key) eqn:E; simpl; [done|]. by rewrite E.
Qed.

Lemma delete_absent key m : JsMap.has key m = false → JsMap.delete key m = m.
Proof.
  induction m as [|[[k v']|] m IH]; simpl; [done| |].
  - destruct (String.eqb k key); [discriminate|]. intros H. by rewrite (IH H).
  - intros H. by rewrite (IH H).
Qed.

Lemma lookup_has key m (i : nat) v :
  m !! i = Some (Some (key, v)) → JsMap.has key m = true.
Proof.
  intros H. unfold JsMap.has. apply existsb_exists. exists (Some (key, v)).
  split; [|simpl; apply String.eqb_refl].
  apply list_elem_of_In, list_elem_of_lookup. by exists i.
Qed.

End JsMapFacts.

(** ** What a cascade of step executions touches *)

Lemma cascade_refl (protocolId : string) (w : World) : cascade protocolId w w.
Proof.
  split; [done|]. split; [done|]. exists []. by rewrite app_nil_r.
Qed.

Lemma cascade_trans (protocolId : string) (w1 w2 w3 : World) :
  cascade protocolId w1 w2 → cascade protocolId w2 w3 → cascade protocolId w1 w3.
Proof.
  intros (Hp & Ha & l & Hl & Hf) (Hp' & Ha' & l' & Hl' & Hf').
  split; [congruence|]. split.
  - intros k Hk. by rewrite Ha', Ha.
  - exists (l ++ l')%list. split; [by rewrite Hl', Hl, app_assoc|by apply Forall_app].
Qed.

Lemma clockOnly_cascade (protocolId : string) (w w' : World) :
  clockOnly w w' → cascade protocolId w w'.
Proof.
  intros (Hp & Ha & _ & He & _). split; [done|]. split; [by rewrite Ha|].
  exists []. by rewrite app_nil_r.
Qed.

(** Dispatching an action always completes, and leaves the engine's maps and
    log alone. *)
Lemma executeAction_total (action : string) (parameters : Js.Properties)
    (context : ProtocolContext) (w : World) :
  ∃ r w', executeAction action parameters context w = Some (r, w') ∧
          protocols w' = protocols w ∧ activeProtocols w' = activeProtocols w ∧
          emitted w' = emitted w.
Proof.
  unfold executeAction, addTacticalElement, updateSituationalAwareness,
    bind, DateNow, gets, modify, throw.
  repeat (case_match; simplify_eq); simpl; eauto 10.
Qed.

Lemma executeAction_emitted (action : string) (parameters : Js.Properties)
    (context : ProtocolContext) (w w' : World) (r : Js.Completion unit) :
  executeAction action parameters context w = Some (r, w') → emitted w' = emitted w.
Proof.
  intros H. destruct (executeAction_total action parameters context w)
    as (r' & w'' & H' & _ & _ & He).
  rewrite H in H'. by inversion H'; subst.
Qed.

Lemma executeAction_cascade (protocolId action : string) (parameters : Js.Properties)
    (context : ProtocolContext) (w w' : World) (r : Js.Completion unit) :
  executeAction action parameters context w = Some (r, w') → cascade protocolId w w'.
Proof.
  intros H. destruct (executeAction_total action parameters context w)
    as (r' & w'' & H' & Hp & Ha & He).
  rewrite H in H'. inversion H'; subst. split; [done|]. split; [by rewrite Ha|].
  exists []. by rewrite app_nil_r.
Qed.

Lemma emit_step_cascade (protocolId : string) (e : Event) (w : World) :
  stepEventOf protocolId e → cascade protocolId w (withEmitted (fun log => (log ++ [e])%list) w).
Proof.
  intros He. split; [done|]. split; [done|]. exists [e]. split; [done|]. by constructor.
Qed.

Lemma setActive_cascade (protocolId : string) (steps : list string) (w : World) :
  cascade protocolId w (withActiveProtocols (JsMap.set protocolId steps) w).
Proof.
  split; [done|]. split.
  - intros k Hk. simpl. by apply get_set_ne.
  - exists []. simpl. by rewrite app_nil_r.
Qed.

Lemma bind_keeps {A B} (R : World -> World -> Prop) (m : M A) (k : A -> M B) :
  (∀ w1 w2 w3, R w1 w2 → R w2 w3 → R w1 w3) →
  keeps R m → (∀ a, keeps R (k a)) → keeps R (bind m k).
Proof.
  intros Htrans Hm Hk w r w' H.
  apply bind_Some in H as [(a & w1 & H1 & H2)|(e & H1 & _)].
  - eapply Htrans; [by eapply Hm|by eapply Hk].
  - by eapply Hm.
Qed.

Lemma isComplete_total (step : ProtocolStep) (context : ProtocolContext) (w : World) :
  ∃ r w', isComplete step context w = Some (r, w') ∧ clockOnly w w'.
Proof.
  unfold isComplete. destruct (ProtocolStep.completionCriteria step) as [criteria|].
  - apply every_total.
  - eexists _, w. split; [reflexivity|apply clockOnly_refl].
Qed.

Lemma isComplete_keeps_cascade (protocolId : string) (step : ProtocolStep)
    (context : ProtocolContext) :
  keeps (cascade protocolId) (isComplete step context).
Proof.
  intros w r w' H. destruct (isComplete_total step context w) as (r' & w'' & H' & Hc).
  rewrite H in H'. inversion H'; subst. by apply clockOnly_cascade.
Qed.

Lemma every_keeps_cascade (protocolId : string) (conditions : list ProtocolCondition)
    (context : ProtocolContext) :
  keeps (cascade protocolId)
    (every conditions (fun condition => evaluateCondition condition context)).
Proof.
  intros w r w' H. destruct (every_total conditions context w) as (r' & w'' & H' & Hc).
  rewrite H in H'. inversion H'; subst. by apply clockOnly_cascade.
Qed.

Lemma progressProtocolWith_cascade
    (execute : Protocol -> ProtocolStep -> ProtocolContext -> M unit)
    (protocol : Protocol) (currentStep : ProtocolStep) (context : ProtocolContext) :
  (∀ step w r w', execute protocol step context w = Some (r, w') →
     r = Js.Normal tt ∧ cascade (Protocol.id protocol) w w') →
  ∀ w r w', progressProtocolWith execute protocol currentStep context w = Some (r, w') →
    r = Js.Normal tt ∧ cascade (Protocol.id protocol) w w'.
Proof.
  intros Hexecute w r w'. unfold progressProtocolWith, bind, gets, modify. simpl.
  intros H. eapply PromiseAll_keeps in H as [-> H];
    [| apply cascade_refl | apply cascade_trans |].
  - split; [done|]. eapply cascade_trans; [apply setActive_cascade|exact H].
  - intros task w0 r0 w0' Htask Hrun.
    apply list_elem_of_In, in_map_iff in Htask as (nextId & <- & _).
    destruct (findStep protocol nextId) as [nextStep|].
    + by eapply Hexecute.
    + inversion Hrun. split; [done|apply cascade_refl].
Qed.

(** An execution of a step never completes abruptly, and touches only the
    active steps of its own protocol. *)
Lemma executeProtocolStep_cascade (fuel : nat) (protocol : Protocol) (step : ProtocolStep)
    (context : ProtocolContext) (w w' : World) (r : Js.Completion unit) :
  executeProtocolStep fuel protocol step context w = Some (r, w') →
  r = Js.Normal tt ∧ cascade (Protocol.id protocol) w w'.
Proof.
  revert step w w' r. induction fuel as [|fuel IH]; intros step w w' r; [discriminate|].
  simpl. set (pid := Protocol.id protocol).
  set (body := bind _ _).
  assert (Hbody : keeps (cascade pid) body).
  { apply bind_keeps; [apply cascade_trans| |intros _].
    { intros w0 r0 w0'. apply executeAction_cascade. }
    apply bind_keeps; [apply cascade_trans| |intros complete].
    { apply isComplete_keeps_cascade. }
    apply bind_keeps; [apply cascade_trans| |intros _].
    { destruct complete.
      - intros w0 r0 w0' H.
        eapply progressProtocolWith_cascade in H as [_ H]; [exact H|].
        intros s0 w1 r1 w1'. apply IH.
      - intros w0 r0 w0' H. inversion H. apply cascade_refl. }
    intros w0 r0 w0' H. inversion H. by apply emit_step_cascade. }
  intros H. apply tryCatch_Some in H as [([] & H & ->)|(e & w1 & H & Hh)].
  - split; [done|]. by eapply Hbody.
  - inversion Hh; subst. split; [done|].
    eapply cascade_trans; [by eapply Hbody|]. by apply emit_step_cascade.
Qed.

Lemma progressProtocol_cascade (fuel : nat) (protocol : Protocol) (step : ProtocolStep)
    (context : ProtocolContext) (w w' : World) (r : Js.Completion unit) :
  progressProtocol fuel protocol step context w = Some (r, w') →
  r = Js.Normal tt ∧ cascade (Protocol.id protocol) w w'.
Proof.
  apply progressProtocolWith_cascade. intros ????. apply executeProtocolStep_cascade.
Qed.

(** ** The registry covers the active protocols *)

Lemma activeAreRegistered_cascade (protocolId : string) (w w' : World) :
  activeAreRegistered w → is_Some (protocols w !! protocolId) →
  cascade protocolId w w' → activeAreRegistered w'.
Proof.
  intros [Hids Hactive] Hreg (Hp & Ha & _). split; rewrite Hp; [done|].
  intros k Hk. destruct (decide (k = protocolId)) as [->|Hne]; [done|].
  apply Hactive. by rewrite <- Ha.
Qed.

Lemma activeAreRegistered_every (conditions : list ProtocolCondition)
    (context : ProtocolContext) (w w' : World) (r : Js.Completion bool) :
  every conditions (fun condition => evaluateCondition condition context) w = Some (r, w') →
  activeAreRegistered w →
  activeAreRegistered w' ∧ protocols w' = protocols w.
Proof.
  intros H [Hids Hactive]. destruct (every_total conditions context w) as (r' & w'' & H' & Hc).
  rewrite H in H'. inversion H'; subst. destruct Hc as (Hp & Ha & _).
  split; [|done]. split; rewrite ?Hp, ?Ha; done.
Qed.

Lemma loadProtocol_keeps_registered (protocol : Protocol) (w w' : World)
    (r : Js.Completion unit) :
  loadProtocol protocol w = Some (r, w') → activeAreRegistered w → activeAreRegistered w'.
Proof.
  unfold loadProtocol, bind.
  destruct (validateProtocol_cases protocol w) as [[_ ->]|(_ & e & _ & ->)].
  - intros H [Hids Hactive]. inversion H; subst. split; simpl.
    + intros k p Hk. apply lookup_insert_Some in Hk as [[<- <-]|[_ Hk]]; [done|by apply Hids].
    + intros k Hk. apply lookup_insert_is_Some'. right. by apply Hactive.
  - intros H. by inversion H; subst.
Qed.

Lemma deactivateProtocol_keeps_registered (protocolId : string) (w w' : World)
    (r : Js.Completion unit) :
  deactivateProtocol protocolId w = Some (r, w') → activeAreRegistered w → activeAreRegistered w'.
Proof.
  intros H [Hids Hactive]. inversion H; subst. split; simpl; [done|].
  intros k Hk. apply Hactive. destruct (decide (k = protocolId)) as [->|Hne].
  - rewrite get_delete_eq in Hk. by destruct Hk.
  - by rewrite get_delete_ne in Hk.
Qed.

Lemma activateProtocol_keeps_registered (fuel : nat) (protocolId : string)
    (context : ProtocolContext) (w w' : World) (r : Js.Completion unit) :
  activateProtocol fuel protocolId context w = Some (r, w') →
  activeAreRegistered w → activeAreRegistered w'.
Proof.
  intros H Hinv. unfold activateProtocol in H.
  apply bind_Some in H as [(registered & w0 & H0 & H)|(e & H0 & _)]; [|by inversion H0].
  inversion H0; subst w0 registered. clear H0.
  destruct (protocols w !! protocolId) as [protocol|] eqn:Hreg; [|by inversion H; subst].
  assert (Hid : Protocol.id protocol = protocolId) by by apply Hinv.
  apply bind_Some in H as [(met & w1 & Hmet & H)|(e & Hmet & _)].
  2:{ by eapply activeAreRegistered_every in Hmet as [? _]. }
  eapply activeAreRegistered_every in Hmet as [Hinv1 Hp1]; [|exact Hinv].
  destruct met; simpl in H; [|by inversion H; subst].
  destruct (Protocol.steps protocol) as [|first rest]; [by inversion H; subst|].
  apply bind_Some in H as [([] & w2 & H2 & H)|(e & H2 & _)]; [|by inversion H2].
  inversion H2; subst w2. clear H2.
  assert (Hreg1 : is_Some (protocols w1 !! protocolId)) by (rewrite Hp1, Hreg; eauto).
  assert (Hinv2 : activeAreRegistered
    (withActiveProtocols (JsMap.set protocolId [ProtocolStep.id first]) w1)).
  { eapply activeAreRegistered_cascade; [exact Hinv1|exact Hreg1|apply setActive_cascade]. }
  apply bind_Some in H as [([] & w3 & H3 & H)|(e & H3 & _)].
  - apply executeProtocolStep_cascade in H3 as [_ H3]. rewrite Hid in H3.
    inversion H; subst.
    eapply activeAreRegistered_cascade in H3; [|exact Hinv2|exact Hreg1].
    destruct H3 as [? ?]. by split.
  - apply executeProtocolStep_cascade in H3 as [_ H3]. rewrite Hid in H3.
    by eapply activeAreRegistered_cascade in H3.
Qed.

Lemma evaluateProtocolsEntry_keeps_registered (fuel : nat) (situationUpdate : Js.Value)
    (protocolId : string) (activeSteps : list string) (w w' : World)
    (r : Js.Completion unit) :
  evaluateProtocolsEntry fuel situationUpdate protocolId activeSteps w = Some (r, w') →
  activeAreRegistered w → activeAreRegistered w'.
Proof.
  intros H Hinv. unfold evaluateProtocolsEntry in H.
  apply bind_Some in H as [(registered & w0 & H0 & H)|(e & H0 & _)]; [|by inversion H0].
  inversion H0; subst w0 registered. clear H0.
  destruct (protocols w !! protocolId) as [protocol|] eqn:Hreg; [|by inversion H; subst].
  assert (Hid : Protocol.id protocol = protocolId) by by apply Hinv.
  apply bind_Some in H as [(met & w1 & Hmet & H)|(e & Hmet & _)].
  2:{ by eapply activeAreRegistered_every in Hmet as [? _]. }
  eapply activeAreRegistered_every in Hmet as [Hinv1 Hp1]; [|exact Hinv].
  destruct met; simpl in H.
  - eapply PromiseAll_keeps in H as [_ H];
      [| apply (cascade_refl protocolId) | apply cascade_trans |].
    + eapply activeAreRegistered_cascade; [exact Hinv1| |exact H].
      rewrite Hp1, Hreg. eauto.
    + intros task w2 r2 w2' Htask Hrun.
      apply list_elem_of_In, in_map_iff in Htask as (stepId & <- & _).
      destruct (findStep protocol stepId) as [step|].
      * apply executeProtocolStep_cascade in Hrun. by rewrite Hid in Hrun.
      * inversion Hrun. split; [done|apply cascade_refl].
  - by eapply deactivateProtocol_keeps_registered.
Qed.

Lemma evaluateProtocolsFrom_keeps_registered (fuel : nat) (situationUpdate : Js.Value)
    (index : nat) (w w' : World) (r : Js.Completion unit) :
  evaluateProtocolsFrom fuel situationUpdate index w = Some (r, w') →
  activeAreRegistered w → activeAreRegistered w'.
Proof.
  revert index w. induction fuel as [|fuel IH]; intros index w; [discriminate|].
  simpl. destruct (activeProtocols w !! index) as [[[protocolId activeSteps]|]|].
  - intros H Hinv. apply bind_Some in H as [([] & w1 & H1 & H)|(e & H1 & _)].
    + eapply IH; [exact H|]. by eapply evaluateProtocolsEntry_keeps_registered.
    + by eapply evaluateProtocolsEntry_keeps_registered.
  - apply IH.
  - intros H. by inversion H; subst.
Qed.

Lemma reachable_activeAreRegistered (w : World) : reachable w → activeAreRegistered w.
Proof.
  induction 1 as [core clk|w fuel operation outcome w' _ IH Hrun].
  - split; simpl.
    + intros k p Hk. by rewrite lookup_empty in Hk.
    + intros k [v Hk]. discriminate.
  - destruct operation; simpl in Hrun.
    + by eapply loadProtocol_keeps_registered.
    + by eapply activateProtocol_keeps_registered.
    + by eapply evaluateProtocolsFrom_keeps_registered.
    + by eapply deactivateProtocol_keeps_registered.
Qed.

(** ** The registry holds what passed validation *)

(** A step that completes at once, in a world with the same registry. *)
Ltac same_registry :=
  let H := fresh "H" in
  intros ? ? ? H; inversion H; subst; done.

Lemma registryKept_trans (w1 w2 w3 : World) :
  registryKept w1 w2 → registryKept w2 w3 → registryKept w1 w3.
Proof. unfold registryKept. congruence. Qed.

Lemma executeProtocolStep_registry (fuel : nat) (protocol : Protocol) (step : ProtocolStep)
    (context : ProtocolContext) :
  keeps registryKept (executeProtocolStep fuel protocol step context).
Proof. intros w r w' H. by apply executeProtocolStep_cascade in H as [_ [H _]]. Qed.

Lemma every_registry (conditions : list ProtocolCondition) (context : ProtocolContext) :
  keeps registryKept
    (every conditions (fun condition => evaluateCondition condition context)).
Proof. intros w r w' H. by apply (every_keeps_cascade "") in H as [H _]. Qed.

Lemma deactivateProtocol_registry (protocolId : string) :
  keeps registryKept (deactivateProtocol protocolId).
Proof. same_registry. Qed.

Lemma activateProtocol_registry (fuel : nat) (protocolId : string) (context : ProtocolContext) :
  keeps registryKept (activateProtocol fuel protocolId context).
Proof.
  unfold activateProtocol.
  apply bind_keeps; [apply registryKept_trans|same_registry|].
  intros [protocol|]; [|same_registry].
  apply bind_keeps; [apply registryKept_trans|apply every_registry|].
  intros met. destruct met; simpl; [|same_registry].
  destruct (Protocol.steps protocol) as [|first rest]; [same_registry|].
  apply bind_keeps; [apply registryKept_trans|same_registry|intros _].
  apply bind_keeps; [apply registryKept_trans|apply executeProtocolStep_registry|intros _].
  same_registry.
Qed.

Lemma evaluateProtocolsEntry_registry (fuel : nat) (situationUpdate : Js.Value)
    (protocolId : string) (activeSteps : list string) :
  keeps registryKept (evaluateProtocolsEntry fuel situationUpdate protocolId activeSteps).
Proof.
  unfold evaluateProtocolsEntry.
  apply bind_keeps; [apply registryKept_trans|same_registry|].
  intros [protocol|]; [|same_registry].
  apply bind_keeps; [apply registryKept_trans|apply every_registry|].
  intros met. destruct met; simpl; [|apply deactivateProtocol_registry].
  intros w r w' H. eapply PromiseAll_keeps in H as [_ H];
    [exact H|done|apply registryKept_trans|].
  intros task w2 r2 w2' Htask Hrun.
  apply list_elem_of_In, in_map_iff in Htask as (stepId & <- & _).
  destruct (findStep protocol stepId) as [step|].
  - by apply executeProtocolStep_cascade in Hrun as [-> [Hrun _]].
  - by inversion Hrun.
Qed.

Lemma evaluateProtocolsFrom_registry (fuel : nat) (situationUpdate : Js.Value) (index : nat) :
  keeps registryKept (evaluateProtocolsFrom fuel situationUpdate index).
Proof.
  revert index. induction fuel as [|fuel IH]; intros index w r w'; [discriminate|].
  simpl. destruct (activeProtocols w !! index) as [[[protocolId activeSteps]|]|].
  - apply bind_keeps; [apply registryKept_trans|apply evaluateProtocolsEntry_registry|].
    intros _. apply IH.
  - apply IH.
  - intros H. by inversion H.
Qed.

(** In a reachable state every registered protocol passed validation. *)
Lemma reachable_wellFormed (w : World) :
  reachable w → ∀ k protocol, protocols w !! k = Some protocol → ¬ malformed protocol.
Proof.
  induction 1 as [core clk|w fuel operation outcome w' _ IH Hrun]; intros k p0.
  - simpl. by rewrite lookup_empty.
  - destruct operation as [protocol|protocolId context|situationUpdate|protocolId];
      simpl in Hrun.
    + unfold loadProtocol, bind in Hrun.
      destruct (validateProtocol_cases protocol w) as [[Hok Hv]|(_ & e & _ & Hv)];
        rewrite Hv in Hrun; inversion Hrun; subst; [|apply IH].
      simpl. intros Hk. apply lookup_insert_Some in Hk as [[_ <-]|[_ Hk]]; [done|by eapply IH].
    + apply activateProtocol_registry in Hrun. rewrite Hrun. apply IH.
    + apply evaluateProtocolsFrom_registry in Hrun. rewrite Hrun. apply IH.
    + apply deactivateProtocol_registry in Hrun. rewrite Hrun. apply IH.
Qed.

(** The registry only grows. *)
Lemma run_registry_grows (fuel : nat) (operation : Operation) (w w' : World)
    (outcome : Js.Completion unit) :
  run fuel operation w = Some (outcome, w') →
  ∀ k, is_Some (protocols w !! k) → is_Some (protocols w' !! k).
Proof.
  intros Hrun k Hk.
  destruct operation as [protocol|protocolId context|situationUpdate|protocolId];
    simpl in Hrun.
  - unfold loadProtocol, bind in Hrun.
    destruct (validateProtocol_cases protocol w) as [[_ Hv]|(_ & e & _ & Hv)];
      rewrite Hv in Hrun; inversion Hrun; subst; [|done].
    simpl. apply lookup_insert_is_Some'. by right.
  - apply activateProtocol_registry in Hrun. by rewrite Hrun.
  - apply evaluateProtocolsFrom_registry in Hrun. by rewrite Hrun.
  - apply deactivateProtocol_registry in Hrun. by rewrite Hrun.
Qed.

Lemma p1Loaded_reachable : reachable p1Loaded.
Proof.
  apply (reachable_run quietWorld 0 (LoadProtocol protocolP1) (Js.Normal tt)).
  - apply reachable_new.
  - vm_compute. reflexivity.
Defined.

Lemma p1Active_reachable : reachable p1Active.
Proof.
  apply (reachable_run p1Loaded 3 (ActivateProtocol "p1" ProtocolContext.empty) (Js.Normal tt)).
  - exact p1Loaded_reachable.
  - vm_compute. reflexivity.
Defined.

(** C9: in every reachable state, a protocol id with an entry in the
    active-protocols map has an entry in the registry; and no operation
    removes an entry of the registry. *)
Theorem active_protocols_are_registered (w : World) :
  reachable w →
  (∀ protocolId,
     is_Some (JsMap.get protocolId (activeProtocols w)) →
     is_Some (protocols w !! protocolId)) ∧
  (∀ fuel operation outcome w',
     run fuel operation w = Some (outcome, w') →
     ∀ k, is_Some (protocols w !! k) → is_Some (protocols w' !! k)).
Proof.
  intros Hw. split.
  - apply (reachable_activeAreRegistered w Hw).
  - intros fuel operation outcome w'. apply run_registry_grows.
Qed.

(** C9, witness: the example protocol, loaded and activated. *)
Lemma active_protocols_are_registered_witness :
  reachable p1Active ∧
  JsMap.get "p1" (activeProtocols p1Active) = Some [] ∧
  is_Some (protocols p1Active !! "p1").
Proof.
  split; [exact p1Active_reachable|]. split; [reflexivity|].
  apply (proj1 (active_protocols_are_registered p1Active p1Active_reachable) "p1").
  exists []. reflexivity.
Defined.

(** C1: [loadProtocol] fails with a structural error exactly when the protocol
    has no step or a step names a successor that is no step of the protocol;
    then nothing is stored: the world, registry included, is as before, and
    in a reachable state no lookup gives the rejected protocol.  Otherwise
    the protocol is stored under its id, whatever was there, and the
    notification is emitted. *)
Theorem loadProtocol_stores_exactly_the_well_formed (protocol : Protocol) (w : World) :
  (malformed protocol ∧
   ∃ e, StructuralError protocol e ∧
        loadProtocol protocol w = Some (Js.Throw e, w) ∧
        (reachable w → ∀ k, protocols w !! k ≠ Some protocol))
  ∨ (¬ malformed protocol ∧
     ∃ w', loadProtocol protocol w = Some (Js.Normal tt, w') ∧
           protocols w' = <[Protocol.id protocol := protocol]> (protocols w) ∧
           protocols w' !! Protocol.id protocol = Some protocol ∧
           activeProtocols w' = activeProtocols w ∧
           emitted w' = emitted w ++
             [protocol_loaded (Protocol.id protocol) (Protocol.name protocol)]).
Proof.
  destruct (validateProtocol_cases protocol w) as [[Hok Hv]|(Hbad & e & He & Hv)].
  - right. split; [exact Hok|]. unfold loadProtocol, bind. rewrite Hv.
    eexists. split; [reflexivity|]. simpl.
    split; [reflexivity|]. split; [apply lookup_insert_eq|]. by split.
  - left. split; [exact Hbad|]. exists e. split; [exact He|]. split.
    + unfold loadProtocol, bind. by rewrite Hv.
    + intros Hw k Hk. by apply (reachable_wellFormed w Hw k protocol Hk).
Qed.

(** C1, witness: a definition without steps, loaded over the example
    protocol, is rejected, and the lookup of its id still gives the example
    protocol. *)
Lemma loadProtocol_stores_exactly_the_well_formed_witness :
  malformed emptyP1 ∧
  (∃ e, StructuralError emptyP1 e ∧
        loadProtocol emptyP1 p1Loaded = Some (Js.Throw e, p1Loaded)) ∧
  protocols p1Loaded !! "p1" = Some protocolP1 ∧
  protocols p1Loaded !! "p1" ≠ Some emptyP1.
Proof.
  assert (Hbad : malformed emptyP1) by (left; reflexivity).
  destruct (loadProtocol_stores_exactly_the_well_formed emptyP1 p1Loaded)
    as [(_ & e & He & Hload & Hnot)|(Hok & _)]; [|by destruct (Hok Hbad)].
  split; [exact Hbad|]. split; [by exists e|]. split; [vm_compute; reflexivity|].
  exact (Hnot p1Loaded_reachable "p1").
Defined.

(** ** Termination on acyclic step graphs *)

















(** ** Executing a step *)

Lemma executeProtocolStep_unfold (fuel : nat) (protocol : Protocol) (step : ProtocolStep)
    (context : ProtocolContext) (w : World) :
  executeProtocolStep (S fuel) protocol step context w
  = match executeAction (ProtocolStep.action step) (ProtocolStep.parameters step) context w with
    | Some (Js.Normal _, w1) =>
        match isComplete step context w1 with
        | Some (Js.Normal complete, w2) =>
            match (if complete then progressProtocol fuel protocol step context else ret tt) w2 with
            | Some (Js.Normal _, w3) =>
                Some (Js.Normal tt,
                      withEmitted (fun log => log ++
                        [step_executed (Protocol.id protocol) (ProtocolStep.id step) complete]) w3)
            | Some (Js.Throw e, w3) =>
                Some (Js.Normal tt,
                      withEmitted (fun log => log ++
                        [step_error (Protocol.id protocol) (ProtocolStep.id step) e]) w3)
            | None => None
            end
        | Some (Js.Throw e, w2) =>
            Some (Js.Normal tt,
                  withEmitted (fun log => log ++
                    [step_error (Protocol.id protocol) (ProtocolStep.id step) e]) w2)
        | None => None
        end
    | Some (Js.Throw e, w1) =>
        Some (Js.Normal tt,
              withEmitted (fun log => log ++
                [step_error (Protocol.id protocol) (ProtocolStep.id step) e]) w1)
    | None => None
    end.
Proof.
  cbn [executeProtocolStep]. unfold tryCatch, bind, progressProtocol.
  destruct (executeAction _ _ _ w) as [[[[]|e] w1]|]; [|done|done].
  destruct (isComplete step context w1) as [[[complete|e] w2]|]; [|done|done].
  by destruct (_ w2) as [[[[]|e] w3]|].
Qed.

(** C6: a failed dispatch stays with its step.  An action name outside the
    table fails; when the dispatch of a step fails, the execution completes
    normally in the world the dispatch left plus the error notification, so
    the completion criteria are not evaluated, nothing progresses, and the
    active steps are as before; and no execution of a step completes
    abruptly, so the caller, the sibling steps and the other protocols go
    on. *)
Theorem dispatch_failure_is_local (fuel : nat) (protocol : Protocol) (step : ProtocolStep)
    (context : ProtocolContext) (w : World) :
  (ProtocolStep.action step ≠ "mark_location" →
   ProtocolStep.action step ≠ "update_situation" →
   executeAction (ProtocolStep.action step) (ProtocolStep.parameters step) context w
   = Some (Js.Throw (UnknownAction (ProtocolStep.action step)), w)) ∧
  (∀ e w1,
     executeAction (ProtocolStep.action step) (ProtocolStep.parameters step) context w
     = Some (Js.Throw e, w1) →
     executeProtocolStep (S fuel) protocol step context w
     = Some (Js.Normal tt,
             withEmitted (fun log => log ++
               [step_error (Protocol.id protocol) (ProtocolStep.id step) e]) w1) ∧
     activeProtocols w1 = activeProtocols w ∧
     protocols w1 = protocols w ∧
     emitted w1 = emitted w) ∧
  (∀ n r w', executeProtocolStep n protocol step context w = Some (r, w') → r = Js.Normal tt).
Proof.
  split; [|split].
  - intros Hmark Hupdate. unfold executeAction.
    apply String.eqb_neq in Hmark, Hupdate. by rewrite Hmark, Hupdate.
  - intros e w1 Hfail. split; [by rewrite executeProtocolStep_unfold, Hfail|].
    destruct (executeAction_total (ProtocolStep.action step) (ProtocolStep.parameters step)
                context w) as (r & w1' & H & Hp & Ha & He).
    rewrite Hfail in H. by inversion H; subst.
  - intros n r w' H. by apply executeProtocolStep_cascade in H as [-> _].
Qed.

(** C6, witness: the first step of [rogerRoger], whose action is unknown. *)
Lemma dispatch_failure_is_local_witness :
  executeAction "establish_communication" [("mode", Js.Str "secure")]
    ProtocolContext.empty quietWorld
  = Some (Js.Throw (UnknownAction "establish_communication"), quietWorld) ∧
  executeProtocolStep 1 rogerRoger initComm ProtocolContext.empty quietWorld
  = Some (Js.Normal tt,
          withEmitted (fun log => log ++
            [step_error "roger-roger" "init-comm" (UnknownAction "establish_communication")])
            quietWorld).
Proof.
  pose proof (dispatch_failure_is_local 0 rogerRoger initComm ProtocolContext.empty quietWorld)
    as (Hunknown & Hlocal & _).
  assert (Hfail : executeAction (ProtocolStep.action initComm) (ProtocolStep.parameters initComm)
                    ProtocolContext.empty quietWorld
                  = Some (Js.Throw (UnknownAction "establish_communication"), quietWorld)).
  { apply Hunknown; discriminate. }
  split; [exact Hfail|]. exact (proj1 (Hlocal _ _ Hfail)).
Defined.

(** C7, counterexample: executing the first step of [rogerRoger] emits an
    error notification and nothing else; no execution notification with a
    completion flag is emitted. *)
Lemma failed_step_emits_no_execution_notification :
  executeProtocolStep 1 rogerRoger initComm ProtocolContext.empty quietWorld
  = Some (Js.Normal tt,
          withEmitted (fun _ =>
            [step_error "roger-roger" "init-comm" (UnknownAction "establish_communication")])
            quietWorld).
Proof. reflexivity. Qed.

(** C7, amended: an execution of a step whose dispatch succeeds and whose
    completion criteria evaluate without raising emits, once its progression
    has returned, the execution notification with the protocol id, the step
    id and the completion flag; an execution whose dispatch fails, or whose
    criteria raise, emits the error notification with the protocol id, the
    step id and the error instead. *)
Theorem execution_notification (fuel : nat) (protocol : Protocol) (step : ProtocolStep)
    (context : ProtocolContext) (w : World) :
  (∀ w1 complete w2 r w3,
     executeAction (ProtocolStep.action step) (ProtocolStep.parameters step) context w
     = Some (Js.Normal tt, w1) →
     isComplete step context w1 = Some (Js.Normal complete, w2) →
     (if complete then progressProtocol fuel protocol step context else ret tt) w2
     = Some (r, w3) →
     executeProtocolStep (S fuel) protocol step context w
     = Some (Js.Normal tt,
             withEmitted (fun log => log ++
               [step_executed (Protocol.id protocol) (ProtocolStep.id step) complete]) w3)) ∧
  (∀ e w1,
     executeAction (ProtocolStep.action step) (ProtocolStep.parameters step) context w
     = Some (Js.Throw e, w1) →
     executeProtocolStep (S fuel) protocol step context w
     = Some (Js.Normal tt,
             withEmitted (fun log => log ++
               [step_error (Protocol.id protocol) (ProtocolStep.id step) e]) w1)) ∧
  (∀ w1 e w2,
     executeAction (ProtocolStep.action step) (ProtocolStep.parameters step) context w
     = Some (Js.Normal tt, w1) →
     isComplete step context w1 = Some (Js.Throw e, w2) →
     executeProtocolStep (S fuel) protocol step context w
     = Some (Js.Normal tt,
             withEmitted (fun log => log ++
               [step_error (Protocol.id protocol) (ProtocolStep.id step) e]) w2)).
Proof.
  split; [|split].
  - intros w1 complete w2 r w3 Hact Hcomplete Hprogress.
    rewrite executeProtocolStep_unfold, Hact, Hcomplete, Hprogress.
    assert (r = Js.Normal tt) as ->; [|done].
    destruct complete.
    + by apply progressProtocol_cascade in Hprogress as [-> _].
    + by inversion Hprogress.
  - intros e w1 Hact. by rewrite executeProtocolStep_unfold, Hact.
  - intros w1 e w2 Hact Hcomplete. by rewrite executeProtocolStep_unfold, Hact, Hcomplete.
Qed.

(** C7, witness: the first step of the example protocol; its notification
    follows that of the successor it progressed to. *)
Lemma execution_notification_witness :
  executeAction "mark_location" [] ProtocolContext.empty quietWorld
  = Some (Js.Normal tt, s1Dispatched) ∧
  isComplete stepS1 ProtocolContext.empty s1Dispatched = Some (Js.Normal true, s1Dispatched) ∧
  progressProtocol 2 protocolP1 stepS1 ProtocolContext.empty s1Dispatched
  = Some (Js.Normal tt, s1Progressed) ∧
  executeProtocolStep 3 protocolP1 stepS1 ProtocolContext.empty quietWorld
  = Some (Js.Normal tt,
          withEmitted (fun log => log ++ [step_executed "p1" "s1" true]) s1Progressed) ∧
  emitted s1Progressed = [step_executed "p1" "s2" true].
Proof.
  assert (H1 : executeAction (ProtocolStep.action stepS1) (ProtocolStep.parameters stepS1)
                 ProtocolContext.empty quietWorld = Some (Js.Normal tt, s1Dispatched))
    by reflexivity.
  assert (H2 : isComplete stepS1 ProtocolContext.empty s1Dispatched
               = Some (Js.Normal true, s1Dispatched)) by reflexivity.
  assert (H3 : (if true then progressProtocol 2 protocolP1 stepS1 ProtocolContext.empty
                else ret tt) s1Dispatched = Some (Js.Normal tt, s1Progressed)) by reflexivity.
  split; [exact H1|]. split; [exact H2|]. split; [exact H3|]. split; [|reflexivity].
  exact (proj1 (execution_notification 2 protocolP1 stepS1 ProtocolContext.empty quietWorld)
           _ _ _ _ _ H1 H2 H3).
Defined.

(** ** Progression *)

Lemma PromiseAll_found (protocol : Protocol) (task : ProtocolStep -> M unit)
    (ids : list string) (w : World) :
  PromiseAll (List.map (fun id =>
    match findStep protocol id with
    | Some step => task step
    | None => ret tt
    end) ids) w
  = PromiseAll (task <$> omap (findStep protocol) ids) w.
Proof.
  revert w. induction ids as [|id ids IH]; intros w; [done|]. simpl.
  destruct (findStep protocol id) as [step|]; simpl.
  - destruct (task step w) as [[[[]|e] w1]|]; [apply IH|by rewrite IH|done].
  - apply IH.
Qed.







(** ** Deactivation *)

(** C8: deactivating twice leaves the active-protocols map as deactivating
    once leaves it, with no entry for the protocol.  Each call emits its
    notification; the second call finds nothing to remove, so at most the
    first of the two notifications is meaningful. *)
Theorem deactivateProtocol_idempotent (protocolId : string) (w : World) :
  let once :=
    withEmitted (fun log => log ++ [protocol_deactivated protocolId])
      (withActiveProtocols (JsMap.delete protocolId) w) in
  let twice :=
    withEmitted (fun log => log ++ [protocol_deactivated protocolId])
      (withActiveProtocols (JsMap.delete protocolId) once) in
  deactivateProtocol protocolId w = Some (Js.Normal tt, once) ∧
  (deactivateProtocol protocolId ;;; deactivateProtocol protocolId) w
  = Some (Js.Normal tt, twice) ∧
  activeProtocols twice = activeProtocols once ∧
  JsMap.get protocolId (activeProtocols once) = None ∧
  JsMap.get protocolId (activeProtocols twice) = None ∧
  protocols twice = protocols once ∧
  tacticalCore twice = tacticalCore once ∧
  meaningfulDeactivation protocolId once = false ∧
  emitted twice
  = emitted w ++ [protocol_deactivated protocolId; protocol_deactivated protocolId].
Proof.
  intros once twice. repeat split.
  - simpl. apply delete_absent, has_delete.
  - apply get_delete_eq.
  - simpl. rewrite (delete_absent _ _ (has_delete _ _)). apply get_delete_eq.
  - apply has_delete.
  - simpl. by rewrite <- app_assoc.
Qed.

(** ** Activation *)

(** C2, counterexample: [watch] was activated before its deadline and is
    active on [lookout]; activating it again after the deadline fails with
    the conditions-not-met error, and the entry is still there. *)
Lemma failed_reactivation_keeps_the_entry :
  (loadProtocol watch ;;; activateProtocol 2 "watch" ProtocolContext.empty)
    (newProtocolEngine newTacticalCore deadlineClock)
  = Some (Js.Normal tt, watchActive) ∧
  JsMap.get "watch" (activeProtocols watchActive) = Some ["lookout"] ∧
  activateProtocol 2 "watch" ProtocolContext.empty watchActive
  = Some (Js.Throw (ConditionsNotMet "watch"), tick watchActive) ∧
  JsMap.get "watch" (activeProtocols (tick watchActive)) = Some ["lookout"].
Proof. repeat (apply conj); vm_compute; reflexivity. Qed.

(** C2, amended: activating an id that is not registered fails with the
    not-found error and changes nothing.  Activating a registered protocol
    whose conditions, evaluated in order, come to one that is false fails with
    the conditions-not-met error and leaves the active-protocols map as it
    was: a protocol that had no entry has none afterwards.  When the
    conditions hold, the entry of the protocol is exactly the id of its first
    declared step before that step is executed and before anything is
    emitted. *)
Theorem activateProtocol_outcomes (fuel : nat) (protocolId : string)
    (context : ProtocolContext) (w : World) :
  (protocols w !! protocolId = None →
   activateProtocol fuel protocolId context w = Some (Js.Throw (NotFound protocolId), w)) ∧
  (∀ protocol w1,
     protocols w !! protocolId = Some protocol →
     every (Protocol.conditions protocol)
       (fun condition => evaluateCondition condition context) w
     = Some (Js.Normal false, w1) →
     activateProtocol fuel protocolId context w
     = Some (Js.Throw (ConditionsNotMet protocolId), w1) ∧
     activeProtocols w1 = activeProtocols w ∧
     emitted w1 = emitted w ∧
     tacticalCore w1 = tacticalCore w ∧
     (JsMap.get protocolId (activeProtocols w) = None →
      JsMap.get protocolId (activeProtocols w1) = None)) ∧
  (∀ protocol w1 first rest,
     protocols w !! protocolId = Some protocol →
     every (Protocol.conditions protocol)
       (fun condition => evaluateCondition condition context) w
     = Some (Js.Normal true, w1) →
     Protocol.steps protocol = first :: rest →
     let seeded :=
       withActiveProtocols (JsMap.set protocolId [ProtocolStep.id first]) w1 in
     JsMap.get protocolId (activeProtocols seeded) = Some [ProtocolStep.id first] ∧
     emitted seeded = emitted w ∧
     tacticalCore seeded = tacticalCore w ∧
     activateProtocol fuel protocolId context w
     = (executeProtocolStep fuel protocol first context ;;;
        emit (protocol_activated protocolId (ProtocolStep.id first))) seeded).
Proof.
  split; [|split].
  - intros Hnone. unfold activateProtocol, bind, gets. by rewrite Hnone.
  - intros protocol w1 Hreg Hmet.
    destruct (every_total (Protocol.conditions protocol) context w)
      as (r & w1' & H & _ & Ha & Hc & He & _).
    rewrite Hmet in H. inversion H; subst r w1'.
    split; [|by rewrite Ha].
    unfold activateProtocol, bind at 1, gets. rewrite Hreg.
    unfold bind at 1. by rewrite Hmet.
  - intros protocol w1 first rest Hreg Hmet Hsteps seeded.
    destruct (every_total (Protocol.conditions protocol) context w)
      as (r & w1' & H & _ & Ha & Hc & He & _).
    rewrite Hmet in H. inversion H; subst r w1'.
    split; [apply get_set_eq|]. split; [done|]. split; [done|].
    unfold activateProtocol, bind at 1, gets. rewrite Hreg.
    unfold bind at 1. rewrite Hmet, Hsteps. reflexivity.
Qed.

(** C2, witness: an unknown id; [watch] loaded after its deadline; the
    example protocol loaded. *)
Lemma activateProtocol_outcomes_witness :
  activateProtocol 3 "ghost" ProtocolContext.empty quietWorld
  = Some (Js.Throw (NotFound "ghost"), quietWorld) ∧
  (let late := worldAfter (loadProtocol watch)
                 (newProtocolEngine newTacticalCore (fun _ => 2000%float)) in
   activateProtocol 3 "watch" ProtocolContext.empty late
   = Some (Js.Throw (ConditionsNotMet "watch"), tick late) ∧
   JsMap.get "watch" (activeProtocols (tick late)) = None) ∧
  JsMap.get "p1" (activeProtocols (withActiveProtocols (JsMap.set "p1" ["s1"]) p1Loaded))
  = Some ["s1"] ∧
  activateProtocol 3 "p1" ProtocolContext.empty p1Loaded
  = (executeProtocolStep 3 protocolP1 stepS1 ProtocolContext.empty ;;;
     emit (protocol_activated "p1" "s1"))
      (withActiveProtocols (JsMap.set "p1" ["s1"]) p1Loaded).
Proof.
  split; [|split; [|split]].
  - apply (proj1 (activateProtocol_outcomes 3 "ghost" ProtocolContext.empty quietWorld)).
    reflexivity.
  - intros late.
    destruct (proj1 (proj2 (activateProtocol_outcomes 3 "watch" ProtocolContext.empty late))
                watch (tick late) eq_refl eq_refl) as (Hfail & _ & _ & _ & Hnone).
    split; [exact Hfail|]. apply Hnone. reflexivity.
  - exact (proj1 (proj2 (proj2 (activateProtocol_outcomes 3 "p1" ProtocolContext.empty p1Loaded))
                    protocolP1 p1Loaded stepS1 [stepS2] eq_refl eq_refl eq_refl)).
  - exact (proj2 (proj2 (proj2 (proj2 (proj2
             (activateProtocol_outcomes 3 "p1" ProtocolContext.empty p1Loaded))
             protocolP1 p1Loaded stepS1 [stepS2] eq_refl eq_refl eq_refl)))).
Defined.

(** ** Re-evaluation *)

Lemma has_get_is_Some {V} (key : string) (m : JsMap.t V) :
  JsMap.has key m = true → is_Some (JsMap.get key m).
Proof.
  induction m as [|[[k v]|] m IH]; simpl; [discriminate| |done].
  destruct (String.eqb k key); [eauto|done].
Qed.

Lemma cascade_turn (protocolId : string) (w w' : World) :
  cascade protocolId w w' → turn protocolId w w'.
Proof.
  intros (Hp & Ha & log & Hlog & Hsteps). split; [done|]. split; [done|].
  exists log. split; [done|]. eapply Forall_impl; [exact Hsteps|]. by left.
Qed.

Lemma turn_trans (protocolId : string) (w1 w2 w3 : World) :
  turn protocolId w1 w2 → turn protocolId w2 w3 → turn protocolId w1 w3.
Proof.
  intros (Hp & Ha & l & Hl & Hf) (Hp' & Ha' & l' & Hl' & Hf').
  split; [congruence|]. split.
  - intros k Hk. by rewrite Ha', Ha.
  - exists (l ++ l'). split; [by rewrite Hl', Hl, app_assoc|by apply Forall_app].
Qed.

(** The turn of an entry, in a world whose registry keys are ids. *)
Lemma evaluateProtocolsEntry_turn (fuel : nat) (situationUpdate : Js.Value)
    (protocolId : string) (activeSteps : list string) (w w' : World)
    (r : Js.Completion unit) :
  activeAreRegistered w →
  evaluateProtocolsEntry fuel situationUpdate protocolId activeSteps w = Some (r, w') →
  turn protocolId w w'.
Proof.
  intros Hinv H. unfold evaluateProtocolsEntry in H.
  apply bind_Some in H as [(registered & w0 & H0 & H)|(e & H0 & _)]; [|by inversion H0].
  inversion H0; subst w0 registered. clear H0.
  destruct (protocols w !! protocolId) as [protocol|] eqn:Hreg.
  2:{ inversion H; subst. apply cascade_turn, cascade_refl. }
  assert (Hid : Protocol.id protocol = protocolId) by by apply Hinv.
  apply bind_Some in H as [(met & w1 & Hmet & H)|(e & Hmet & _)].
  2:{ apply (every_keeps_cascade protocolId) in Hmet. by apply cascade_turn. }
  apply (every_keeps_cascade protocolId) in Hmet. apply cascade_turn in Hmet.
  eapply turn_trans; [exact Hmet|]. destruct met; simpl in H.
  - eapply PromiseAll_keeps in H as [_ H];
      [apply cascade_turn, H| apply (cascade_refl protocolId) | apply cascade_trans |].
    intros task w2 r2 w2' Htask Hrun.
    apply list_elem_of_In, in_map_iff in Htask as (stepId & <- & _).
    destruct (findStep protocol stepId) as [step|].
    + apply executeProtocolStep_cascade in Hrun. by rewrite Hid in Hrun.
    + inversion Hrun. split; [done|apply cascade_refl].
  - clear Hid. inversion H; subst. split; [done|]. split.
    + intros k Hk. simpl. by apply get_delete_ne.
    + exists [protocol_deactivated protocolId]. split; [done|]. constructor; [by right|constructor].
Qed.

(** Once a protocol has no entry, the rest of the pass executes no step of
    it and gives it no entry. *)
Lemma rest_of_pass_skips (protocolId : string) (fuel : nat) (situationUpdate : Js.Value)
    (index : nat) (w w' : World) (r : Js.Completion unit) :
  activeAreRegistered w →
  JsMap.get protocolId (activeProtocols w) = None →
  evaluateProtocolsFrom fuel situationUpdate index w = Some (r, w') →
  JsMap.get protocolId (activeProtocols w') = None ∧
  ∃ log, emitted w' = emitted w ++ log ∧ Forall (fun e => ¬ stepEventOf protocolId e) log.
Proof.
  revert index w. induction fuel as [|fuel IH]; intros index w Hinv Hnone; [discriminate|].
  simpl. destruct (activeProtocols w !! index) as [[[k activeSteps]|]|] eqn:Hentry.
  - assert (Hk : k ≠ protocolId).
    { intros ->. apply lookup_has, has_get_is_Some in Hentry. rewrite Hnone in Hentry.
      by destruct Hentry. }
    assert (Hturn : ∀ r1 w1, evaluateProtocolsEntry fuel situationUpdate k activeSteps w
                             = Some (r1, w1) →
              activeAreRegistered w1 ∧ JsMap.get protocolId (activeProtocols w1) = None ∧
              ∃ log, emitted w1 = emitted w ++ log ∧
                     Forall (fun e => ¬ stepEventOf protocolId e) log).
    { intros r1 w1 H1. split; [by eapply evaluateProtocolsEntry_keeps_registered|].
      apply evaluateProtocolsEntry_turn in H1 as (_ & Ha & log & Hlog & Hev); [|done].
      split; [by rewrite Ha|]. exists log. split; [done|].
      eapply Forall_impl; [exact Hev|]. intros e [He| ->] Hstep; [|done].
      destruct e; simpl in *; congruence. }
    intros H. apply bind_Some in H as [([] & w1 & H1 & H)|(e & H1 & _)].
    + destruct (Hturn _ _ H1) as (Hinv1 & Hnone1 & log1 & Hlog1 & Hev1).
      destruct (IH _ _ Hinv1 Hnone1 H) as (Hnone' & log & Hlog & Hev).
      split; [done|]. exists (log1 ++ log).
      split; [by rewrite Hlog, Hlog1, app_assoc|by apply Forall_app].
    + by destruct (Hturn _ _ H1) as (_ & ? & ?).
  - by apply IH.
  - intros H. inversion H; subst. split; [done|]. exists []. by rewrite app_nil_r.
Qed.

(** Every execution of a step that returns has emitted the notification of
    that step, last. *)
Lemma executeProtocolStep_notifies (fuel : nat) (protocol : Protocol) (step : ProtocolStep)
    (context : ProtocolContext) (w w' : World) (r : Js.Completion unit) :
  executeProtocolStep fuel protocol step context w = Some (r, w') →
  ∃ log e, emitted w' = emitted w ++ log ++ [e] ∧
           notifies (Protocol.id protocol) (ProtocolStep.id step) e.
Proof.
  destruct fuel as [|fuel]; [discriminate|]. rewrite executeProtocolStep_unfold.
  destruct (executeAction _ _ _ w) as [[r1 w1]|] eqn:Hact; [|discriminate].
  pose proof (executeAction_emitted _ _ _ _ _ _ Hact) as He1.
  destruct r1 as [[]|e].
  2:{ intros H. inversion H; subst.
      exists [], (step_error (Protocol.id protocol) (ProtocolStep.id step) e).
      simpl. split; [by rewrite He1|right; by eexists]. }
  destruct (isComplete step context w1) as [[[complete|e] w2]|] eqn:Hc; [| |discriminate].
  2:{ intros H. inversion H; subst.
      apply (isComplete_keeps_cascade (Protocol.id protocol)) in Hc as (_ & _ & log & Hlog & _).
      exists log, (step_error (Protocol.id protocol) (ProtocolStep.id step) e).
      simpl. split; [by rewrite Hlog, He1, app_assoc|right; by eexists]. }
  apply (isComplete_keeps_cascade (Protocol.id protocol)) in Hc as (_ & _ & log2 & Hlog2 & _).
  destruct ((if complete then progressProtocol fuel protocol step context else ret tt) w2)
    as [[r3 w3]|] eqn:Hp; [|discriminate].
  assert (Hlog3 : ∃ log3, emitted w3 = emitted w2 ++ log3).
  { destruct complete.
    - apply progressProtocol_cascade in Hp as (_ & _ & _ & log3 & Hlog3 & _). eauto.
    - inversion Hp; subst. exists []. by rewrite app_nil_r. }
  destruct Hlog3 as [log3 Hlog3].
  destruct r3 as [[]|e]; intros H; inversion H; subst; simpl.
  - exists (log2 ++ log3), (step_executed (Protocol.id protocol) (ProtocolStep.id step) complete).
    split; [|left; by eexists].
    by rewrite Hlog3, Hlog2, He1, !app_assoc.
  - exists (log2 ++ log3), (step_error (Protocol.id protocol) (ProtocolStep.id step) e).
    split; [|right; by eexists].
    by rewrite Hlog3, Hlog2, He1, !app_assoc.
Qed.

(** When [Promise.all] over the executions of some steps returns, each of
    them has emitted its notification. *)
Lemma PromiseAll_notifies (fuel : nat) (protocol : Protocol) (context : ProtocolContext)
    (steps : list ProtocolStep) (w w' : World) (r : Js.Completion unit) :
  PromiseAll ((fun step => executeProtocolStep fuel protocol step context) <$> steps) w
  = Some (r, w') →
  ∃ log, emitted w' = emitted w ++ log ∧
         ∀ step, step ∈ steps →
           ∃ e, e ∈ log ∧ notifies (Protocol.id protocol) (ProtocolStep.id step) e.
Proof.
  revert w r. induction steps as [|step steps IH]; intros w r; simpl.
  - intros H. inversion H; subst. exists []. split; [by rewrite app_nil_r|].
    intros step Hstep. inversion Hstep.
  - destruct (executeProtocolStep fuel protocol step context w) as [[r1 w1]|] eqn:H1;
      [|discriminate].
    destruct (executeProtocolStep_notifies _ _ _ _ _ _ _ H1) as (log1 & e1 & Hlog1 & He1).
    intros H.
    assert (Hrest : ∃ r2, PromiseAll
      ((fun step => executeProtocolStep fuel protocol step context) <$> steps) w1
      = Some (r2, w')).
    { destruct r1 as [[]|e]; [eauto|].
      destruct (PromiseAll _ w1) as [[r2 w2]|]; [|discriminate]. inversion H; subst. eauto. }
    destruct Hrest as [r2 Hrest]. destruct (IH _ _ Hrest) as (log & Hlog & Hall).
    exists ((log1 ++ [e1]) ++ log). split; [by rewrite Hlog, Hlog1, !app_assoc|].
    intros s Hs. apply elem_of_cons in Hs as [->|Hs].
    + exists e1. split; [|done]. apply elem_of_app. left. apply elem_of_app. right. by left.
    + destruct (Hall s Hs) as (e & He & Hn). exists e. split; [|done].
      apply elem_of_app. by right.
Qed.

(** C4, counterexample: [patrol] is active on [hold] when a definition with
    the same id and another step is loaded over it.  On the next situational
    update its conditions hold, [hold] is in its active steps, and nothing
    is executed: the pass leaves the world as it was. *)
Lemma renamed_step_is_not_reexecuted :
  (loadProtocol patrol ;;; activateProtocol 2 "patrol" ProtocolContext.empty ;;;
   loadProtocol patrolRevised) quietWorld
  = Some (Js.Normal tt, patrolReloaded) ∧
  JsMap.get "patrol" (activeProtocols patrolReloaded) = Some ["hold"] ∧
  protocols patrolReloaded !! "patrol" = Some patrolRevised ∧
  evaluateProtocols 3 quietUpdate patrolReloaded = Some (Js.Normal tt, patrolReloaded).
Proof. repeat (apply conj); vm_compute; reflexivity. Qed.

(** C4, amended: when the iterator of a re-evaluation pass stands at the
    entry of a registered protocol, the context is built from the update and
    the entry's active steps, and the protocol's conditions are evaluated in
    order.  If they come to one that is false, the entry is removed and the
    deactivation notification is the only thing emitted for it; the pass goes
    on with the next entry and, in a world whose active protocols are
    registered under their ids, executes no step of the protocol and gives it
    no entry.  If they all hold, the steps that the active step ids name in
    the registered definition are executed, each once, in order and against
    that same context, each emitting its notification, and the pass goes on
    with the next entry; an id that names no step is skipped. *)
Theorem reevaluation_of_an_entry (fuel : nat) (situationUpdate : Js.Value) (index : nat)
    (w : World) (protocolId : string) (activeSteps : list string) (protocol : Protocol) :
  activeProtocols w !! index = Some (Some (protocolId, activeSteps)) →
  protocols w !! protocolId = Some protocol →
  let context := updateContext situationUpdate activeSteps in
  let conditionsMet :=
    every (Protocol.conditions protocol)
      (fun condition => evaluateCondition condition context) in
  (∀ w1, conditionsMet w = Some (Js.Normal false, w1) →
     let deactivated :=
       withEmitted (fun log => log ++ [protocol_deactivated protocolId])
         (withActiveProtocols (JsMap.delete protocolId) w1) in
     evaluateProtocolsFrom (S fuel) situationUpdate index w
     = evaluateProtocolsFrom fuel situationUpdate (S index) deactivated ∧
     JsMap.get protocolId (activeProtocols deactivated) = None ∧
     emitted deactivated = emitted w ++ [protocol_deactivated protocolId] ∧
     (∀ r w', activeAreRegistered w →
        evaluateProtocolsFrom fuel situationUpdate (S index) deactivated = Some (r, w') →
        JsMap.get protocolId (activeProtocols w') = None ∧
        ∃ log, emitted w' = emitted deactivated ++ log ∧
               Forall (fun e => ¬ stepEventOf protocolId e) log)) ∧
  (∀ w1, conditionsMet w = Some (Js.Normal true, w1) →
     let reexecuted := omap (findStep protocol) activeSteps in
     let executions :=
       PromiseAll ((fun step => executeProtocolStep fuel protocol step context)
                     <$> reexecuted) in
     evaluateProtocolsFrom (S fuel) situationUpdate index w
     = (executions ;;; evaluateProtocolsFrom fuel situationUpdate (S index)) w1 ∧
     emitted w1 = emitted w ∧
     (∀ r w2, executions w1 = Some (r, w2) →
        ∃ log, emitted w2 = emitted w1 ++ log ∧
               ∀ step, step ∈ reexecuted →
                 ∃ e, e ∈ log ∧
                      notifies (Protocol.id protocol) (ProtocolStep.id step) e)).
Proof.
  intros Hentry Hreg context conditionsMet. split.
  - intros w1 Hmet deactivated.
    destruct (every_total (Protocol.conditions protocol) context w)
      as (r0 & w0 & H0 & Hclock).
    unfold conditionsMet in Hmet. rewrite Hmet in H0. inversion H0; subst r0 w0. clear H0.
    assert (Hrun : evaluateProtocolsEntry fuel situationUpdate protocolId activeSteps w
                   = Some (Js.Normal tt, deactivated)).
    { unfold evaluateProtocolsEntry, bind at 1, gets. rewrite Hreg.
      unfold bind at 1. fold context. by rewrite Hmet. }
    split; [|split; [|split]].
    + cbn [evaluateProtocolsFrom]. rewrite Hentry. unfold bind at 1. by rewrite Hrun.
    + apply get_delete_eq.
    + destruct Hclock as (_ & _ & _ & He & _). simpl. by rewrite He.
    + intros r w' Hinv Hrest.
      apply (rest_of_pass_skips protocolId fuel situationUpdate (S index) deactivated w' r);
        [|apply get_delete_eq|exact Hrest].
      by eapply evaluateProtocolsEntry_keeps_registered.
  - intros w1 Hmet reexecuted executions.
    destruct (every_total (Protocol.conditions protocol) context w)
      as (r0 & w0 & H0 & Hclock).
    unfold conditionsMet in Hmet. rewrite Hmet in H0. inversion H0; subst r0 w0. clear H0.
    split; [|split].
    + cbn [evaluateProtocolsFrom]. rewrite Hentry.
      unfold bind at 1, evaluateProtocolsEntry, bind at 1, gets. rewrite Hreg.
      unfold bind at 1. fold context. rewrite Hmet. cbn [negb].
      unfold bind, executions, reexecuted.
      by rewrite (PromiseAll_found protocol
                    (fun step => executeProtocolStep fuel protocol step context)).
    + by destruct Hclock as (_ & _ & _ & He & _).
    + intros r w2. apply PromiseAll_notifies.
Qed.

(** C4, witness: [watch], active past its deadline, is deactivated; [patrol],
    whose conditions hold, has its active step executed again. *)
Lemma reevaluation_of_an_entry_witness :
  (evaluateProtocolsFrom 3 quietUpdate 0 watchActive
   = evaluateProtocolsFrom 2 quietUpdate 1
       (withEmitted (fun log => log ++ [protocol_deactivated "watch"])
          (withActiveProtocols (JsMap.delete "watch") (tick watchActive))) ∧
   evaluateProtocols 3 quietUpdate watchActive
   = Some (Js.Normal tt,
           withEmitted (fun log => log ++ [protocol_deactivated "watch"])
             (withActiveProtocols (JsMap.delete "watch") (tick watchActive)))) ∧
  (evaluateProtocolsFrom 3 quietUpdate 0 patrolActive
   = (PromiseAll [executeProtocolStep 2 patrol hold (updateContext quietUpdate ["hold"])] ;;;
      evaluateProtocolsFrom 2 quietUpdate 1) patrolActive ∧
   emitted (worldAfter (evaluateProtocols 3 quietUpdate) patrolActive)
   = emitted patrolActive ++ [step_executed "patrol" "hold" false]).
Proof.
  split.
  - destruct (proj1 (reevaluation_of_an_entry 2 quietUpdate 0 watchActive "watch" ["lookout"]
                       watch eq_refl eq_refl) (tick watchActive) eq_refl) as [Hstep _].
    split; [exact Hstep|]. unfold evaluateProtocols. rewrite Hstep. reflexivity.
  - destruct (proj2 (reevaluation_of_an_entry 2 quietUpdate 0 patrolActive "patrol" ["hold"]
                       patrol eq_refl eq_refl) patrolActive eq_refl) as [Hstep _].
    split; [exact Hstep|]. reflexivity.
Defined.

(** * Further properties of the engine *)

(** ** Conditions on the maps of a context *)



(** ** Steps that always complete *)

(** The collaborator loses no layer. *)
Lemma executeAction_operational (action : string) (parameters : Js.Properties)
    (context : ProtocolContext) (w w' : World) (r : Js.Completion unit) :
  executeAction action parameters context w = Some (r, w') → operational w → operational w'.
Proof.
  unfold executeAction, addTacticalElement, updateSituationalAwareness,
    bind, DateNow, gets, modify, throw, operational.
  repeat (case_match; simplify_eq); intros Hrun Hop; simplify_eq; cbn; try assumption.
  apply lookup_insert_is_Some'. right. assumption.
Qed.

Lemma completesAlways_dispatch (step : ProtocolStep) (context : ProtocolContext) (w : World) :
  completesAlways step context → operational w →
  ∃ w1 w2,
    executeAction (ProtocolStep.action step) (ProtocolStep.parameters step) context w
    = Some (Js.Normal tt, w1) ∧
    isComplete step context w1 = Some (Js.Normal true, w2) ∧
    activeProtocols w2 = activeProtocols w ∧ operational w2.
Proof.
  intros [Haction Hcriteria] Hop.
  assert (∃ w1, executeAction (ProtocolStep.action step) (ProtocolStep.parameters step)
                  context w = Some (Js.Normal tt, w1)) as [w1 Hw1].
  { destruct Hop as [elements Hop]. destruct Haction as [-> | ->];
      unfold executeAction, addTacticalElement, updateSituationalAwareness,
        bind, DateNow, gets, modify; cbn; [rewrite Hop|]; eexists; reflexivity. }
  destruct (Hcriteria w1) as [w2 Hw2]. exists w1, w2.
  assert (activeProtocols w1 = activeProtocols w) as Hactive.
  { destruct (executeAction_total (ProtocolStep.action step) (ProtocolStep.parameters step)
                context w) as (r & w1' & Hrun & _ & Hactive & _).
    rewrite Hw1 in Hrun. by inversion Hrun; subst. }
  assert (clockOnly w1 w2) as (_ & Hactive' & Hcore & _).
  { destruct (isComplete_total step context w1) as (r & w2' & Hrun & Hclock).
    rewrite Hw2 in Hrun. by inversion Hrun; subst. }
  repeat (apply conj); try done; [congruence|].
  unfold operational. rewrite Hcore. by eapply executeAction_operational.
Qed.

Lemma completing_step_unfold (fuel : nat) (protocol : Protocol) (step : ProtocolStep)
    (context : ProtocolContext) (w : World) :
  completesAlways step context → operational w →
  ∃ w2,
    activeProtocols w2 = activeProtocols w ∧ operational w2 ∧
    executeProtocolStep (S fuel) protocol step context w
    = tryCatch
        (progressProtocolWith (executeProtocolStep fuel) protocol step context ;;;
         emit (step_executed (Protocol.id protocol) (ProtocolStep.id step) true))
        (fun error =>
           emit (step_error (Protocol.id protocol) (ProtocolStep.id step) error)) w2.
Proof.
  intros Hcompletes Hop.
  destruct (completesAlways_dispatch step context w Hcompletes Hop)
    as (w1 & w2 & Haction & Hcomplete & Hactive & Hop2).
  exists w2. split; [assumption|]. split; [assumption|].
  cbn [executeProtocolStep]. unfold tryCatch, bind at 1 2.
  rewrite Haction, Hcomplete. reflexivity.
Qed.

(** A relation on worlds that dispatching, reading the clock, emitting and
    writing the active steps of the protocol keep is kept by an execution of
    a step. *)
Lemma executeProtocolStep_keeps (R : World -> World -> Prop) (protocol : Protocol)
    (context : ProtocolContext) :
  (∀ w, R w w) →
  (∀ w1 w2 w3, R w1 w2 → R w2 w3 → R w1 w3) →
  (∀ action parameters, keeps R (executeAction action parameters context)) →
  (∀ w w', clockOnly w w' → R w w') →
  (∀ e w, R w (withEmitted (fun log => log ++ [e]) w)) →
  (∀ steps w, R w (withActiveProtocols (JsMap.set (Protocol.id protocol) steps) w)) →
  ∀ fuel step, keeps R (executeProtocolStep fuel protocol step context).
Proof.
  intros Hrefl Htrans Haction Hclock Hemit Hset.
  induction fuel as [|fuel IH]; intros step; [by intros w r w'|].
  cbn [executeProtocolStep].
  assert (Hbody : keeps R
            (executeAction (ProtocolStep.action step) (ProtocolStep.parameters step) context ;;;
             complete <- isComplete step context ;;
             (if complete : bool
              then progressProtocolWith (executeProtocolStep fuel) protocol step context
              else ret tt) ;;;
             emit (step_executed (Protocol.id protocol) (ProtocolStep.id step) complete))).
  { apply bind_keeps; [exact Htrans|apply Haction|intros _].
    apply bind_keeps; [exact Htrans| |intros complete].
    { intros w r w' H. destruct (isComplete_total step context w) as (r' & w'' & H' & Hc).
      rewrite H in H'. simplify_eq. by apply Hclock. }
    apply bind_keeps; [exact Htrans| |intros _].
    { destruct complete; [|intros w r w' H; inversion H; apply Hrefl].
      intros w r w'. unfold progressProtocolWith, bind, gets, modify. intros H.
      eapply Htrans; [apply Hset|].
      eapply PromiseAll_keeps with (R := fun w w' =>
        R w w' ∧ cascade (Protocol.id protocol) w w') in H as [_ [H _]]; [exact H | | | ].
      - intros w0. split; [apply Hrefl|apply cascade_refl].
      - intros w1 w2 w3 [H1 H1'] [H2 H2']. split; [by eapply Htrans|by eapply cascade_trans].
      - intros task w0 r0 w0' Htask Hrun.
        apply list_elem_of_In, in_map_iff in Htask as (nextId & <- & _).
        destruct (findStep protocol nextId) as [nextStep|].
        + destruct (executeProtocolStep_cascade _ _ _ _ _ _ _ Hrun) as [-> Hcascade].
          split; [done|]. split; [by eapply IH|done].
        + inversion Hrun. split; [done|]. split; [apply Hrefl|apply cascade_refl]. }
    intros w r w' H. inversion H. apply Hemit. }
  intros w r w' H. apply tryCatch_Some in H as [([] & H & ->)|(e & w1 & H & Hh)].
  - by eapply Hbody.
  - inversion Hh; subst. eapply Htrans; [by eapply Hbody|apply Hemit].
Qed.

(** An execution of a step loses no layer of the collaborator. *)
Lemma executeProtocolStep_operational (fuel : nat) (protocol : Protocol) (step : ProtocolStep)
    (context : ProtocolContext) :
  keeps (fun w w' => operational w → operational w')
    (executeProtocolStep fuel protocol step context).
Proof.
  apply executeProtocolStep_keeps; try done.
  - auto.
  - intros action parameters w r w' H. by eapply executeAction_operational.
  - intros w w' (_ & _ & Hcore & _). unfold operational. by rewrite Hcore.
Qed.

(** ** Cycles in the step graph *)

Lemma PromiseAll_diverges (I : World -> Prop) (task : M unit) (tasks : list (M unit)) :
  task ∈ tasks →
  (∀ w, I w → task w = None) →
  (∀ t w r w', t ∈ tasks → t w = Some (r, w') → I w → I w') →
  ∀ w, I w → PromiseAll tasks w = None.
Proof.
  intros Hin Hnone Hkeeps. induction tasks as [|first rest IH]; [inversion Hin|].
  intros w Hw. cbn.
  destruct (first w) as [[r w1]|] eqn:Hfirst; [|reflexivity].
  assert (I w1) as Hw1 by (eapply Hkeeps; [left|exact Hfirst|exact Hw]).
  apply elem_of_cons in Hin as [<- | Hin].
  - rewrite (Hnone w Hw) in Hfirst. discriminate.
  - rewrite IH; [by destruct r | assumption | | assumption].
    intros t w0 r0 w0' Ht. apply Hkeeps. by right.
Qed.

(** X2: validation does not look for cycles, and a step that lies on a cycle
    of steps that always complete never returns: whatever the bound on the
    nesting of calls, its execution exceeds it. *)
Theorem step_on_a_cycle_never_returns (protocol : Protocol) (step : ProtocolStep)
    (context : ProtocolContext) (fuel : nat) (w : World) :
  tc (leadsTo protocol) step step →
  (∀ s, rtc (leadsTo protocol) step s → completesAlways s context) →
  operational w →
  executeProtocolStep fuel protocol step context w = None.
Proof.
  intros Hcycle Hcompletes. revert w.
  enough (∀ s, rtc (leadsTo protocol) step s → tc (leadsTo protocol) s s →
               ∀ w, operational w → executeProtocolStep fuel protocol s context w = None)
    as Hall by (apply Hall; [reflexivity | assumption]).
  induction fuel as [|fuel IH]; intros s Hreach Hs w Hop; [reflexivity|].
  assert (∃ next, leadsTo protocol s next ∧ rtc (leadsTo protocol) next s)
    as (next & Hnext & Hback).
  { inversion Hs as [? ? Hstep | ? next ? Hstep Hrest]; subst.
    - exists s. split; [assumption | reflexivity].
    - exists next. split; [assumption | apply tc_rtc; assumption]. }
  assert (∀ w', operational w' →
                executeProtocolStep fuel protocol next context w' = None) as Hnone.
  { apply IH.
    - eapply rtc_r; eassumption.
    - eapply tc_rtc_l; [eassumption | apply tc_once; assumption]. }
  destruct (completing_step_unfold fuel protocol s context w (Hcompletes s Hreach) Hop)
    as (w2 & _ & Hop2 & ->).
  destruct Hnext as (nextId & Hin & Hfound).
  unfold tryCatch, bind at 1, progressProtocolWith, bind at 1 2, gets, modify.
  rewrite (PromiseAll_diverges operational (executeProtocolStep fuel protocol next context)).
  - reflexivity.
  - apply list_elem_of_fmap. exists nextId. rewrite Hfound. split; [reflexivity | assumption].
  - assumption.
  - intros t w0 r0 w0' Ht Hrun.
    apply list_elem_of_fmap in Ht as (id & -> & _).
    destruct (findStep protocol id).
    + by eapply executeProtocolStep_operational.
    + by inversion Hrun.
  - exact Hop2.
Qed.

Lemma step_on_a_cycle_never_returns_witness :
  validateProtocol spin quietWorld = Some (Js.Normal tt, quietWorld) ∧
  executeProtocolStep 1000 spin spinStep ProtocolContext.empty quietWorld = None.
Proof.
  split; [reflexivity|].
  assert (leadsTo spin spinStep spinStep) as Hloop.
  { exists "spin". split; [apply list_elem_of_here | reflexivity]. }
  assert (∀ s, rtc (leadsTo spin) spinStep s → s = spinStep) as Honly.
  { apply rtc_ind_r; [reflexivity|].
    intros a b _ (nextId & Hin & Hfound) ->.
    apply list_elem_of_singleton in Hin as ->.
    vm_compute in Hfound. injection Hfound as <-. reflexivity. }
  apply (step_on_a_cycle_never_returns spin spinStep ProtocolContext.empty).
  - apply tc_once. exact Hloop.
  - intros s Hs. rewrite (Honly s Hs).
    split; [right; reflexivity|]. intros w. eexists. reflexivity.
  - eexists. reflexivity.
Defined.

(** ** Steps whose action the engine does not know *)

(** X3: a protocol whose first step names an action other than
    ['mark_location'] and ['update_situation'] is activated all the same,
    when its conditions hold: the failed dispatch is notified, the protocol
    is notified as activated, and its entry holds the first step.  Every
    re-evaluation of that entry in which the conditions hold notifies the
    same failure again and leaves the entry as it is.  The protocol that
    [TonyCore] loads at start-up is one. *)
Theorem unknown_action_fails_at_every_pass (fuel : nat) (protocol : Protocol)
    (first : ProtocolStep) (rest : list ProtocolStep) (w w0 : World)
    (context : ProtocolContext) (situationUpdate : Js.Value) :
  protocols w !! Protocol.id protocol = Some protocol →
  Protocol.steps protocol = first :: rest →
  ProtocolStep.action first ≠ "mark_location" →
  ProtocolStep.action first ≠ "update_situation" →
  let protocolId := Protocol.id protocol in
  let failure :=
    step_error protocolId (ProtocolStep.id first)
      (UnknownAction (ProtocolStep.action first)) in
  (every (Protocol.conditions protocol)
     (fun condition => evaluateCondition condition context) w = Some (Js.Normal true, w0) →
   ∃ w',
     activateProtocol (S fuel) protocolId context w = Some (Js.Normal tt, w') ∧
     emitted w' = emitted w0 ++ [failure; protocol_activated protocolId (ProtocolStep.id first)] ∧
     activeProtocols w' = JsMap.set protocolId [ProtocolStep.id first] (activeProtocols w0) ∧
     tacticalCore w' = tacticalCore w0) ∧
  (every (Protocol.conditions protocol)
     (fun condition =>
        evaluateCondition condition (updateContext situationUpdate [ProtocolStep.id first])) w
   = Some (Js.Normal true, w0) →
   ∃ w',
     evaluateProtocolsEntry (S fuel) situationUpdate protocolId [ProtocolStep.id first] w
     = Some (Js.Normal tt, w') ∧
     emitted w' = emitted w0 ++ [failure] ∧
     activeProtocols w' = activeProtocols w0 ∧
     tacticalCore w' = tacticalCore w0).
Proof.
  intros Hregistered Hsteps Hmark Hupdate protocolId failure. subst protocolId.
  assert (∀ context' v,
            executeProtocolStep (S fuel) protocol first context' v
            = Some (Js.Normal tt, withEmitted (fun log => log ++ [failure]) v)) as Hfails.
  { intros context' v. cbn [executeProtocolStep]. unfold tryCatch, bind at 1, executeAction.
    apply String.eqb_neq in Hmark, Hupdate. rewrite Hmark, Hupdate. reflexivity. }
  split; intros Hmet.
  - unfold activateProtocol, bind at 1, gets. rewrite Hregistered.
    unfold bind at 1. rewrite Hmet. cbn [negb]. rewrite Hsteps.
    unfold bind at 1, modify, bind at 1. rewrite Hfails.
    eexists. split; [reflexivity|].
    cbn. rewrite <- app_assoc. repeat (apply conj); reflexivity.
  - unfold evaluateProtocolsEntry, bind at 1, gets. rewrite Hregistered.
    unfold bind at 1. rewrite Hmet. cbn [negb map PromiseAll].
    unfold findStep. rewrite Hsteps. cbn [find]. rewrite String.eqb_refl.
    rewrite Hfails. eexists. repeat (apply conj); reflexivity.
Qed.

Lemma unknown_action_fails_at_every_pass_witness :
  (∃ w',
     activateProtocol 1 "roger-roger" ProtocolContext.empty coreProtocolsLoaded
     = Some (Js.Normal tt, w') ∧
     emitted w'
     = emitted coreProtocolsLoaded ++
       [step_error "roger-roger" "init-comm" (UnknownAction "establish_communication");
        protocol_activated "roger-roger" "init-comm"] ∧
     activeProtocols w' = [Some ("roger-roger", ["init-comm"])] ∧
     tacticalCore w' = tacticalCore coreProtocolsLoaded) ∧
  (∃ w',
     evaluateProtocolsEntry 1 quietUpdate "roger-roger" ["init-comm"] coreProtocolsLoaded
     = Some (Js.Normal tt, w') ∧
     emitted w'
     = emitted coreProtocolsLoaded ++
       [step_error "roger-roger" "init-comm" (UnknownAction "establish_communication")] ∧
     activeProtocols w' = activeProtocols coreProtocolsLoaded ∧
     tacticalCore w' = tacticalCore coreProtocolsLoaded).
Proof.
  pose proof (unknown_action_fails_at_every_pass 0 rogerRoger initComm [confirmReceipt]
                coreProtocolsLoaded coreProtocolsLoaded ProtocolContext.empty quietUpdate)
    as Hfails.
  destruct Hfails as [Hactivation Hpass]; try reflexivity; try discriminate.
  split; [apply Hactivation | apply Hpass]; reflexivity.
Defined.

(** ** What a completed cascade leaves active *)

Section Cleared.
Variable protocol : Protocol.










End Cleared.







(** ** The re-evaluation pass as a whole *)

Section Slots.
Context {V : Type}.
Implicit Types (m : JsMap.t V) (key : string) (v : V).





End Slots.











(** ** Errors in conditions *)

(** X7: an error raised by a condition of a protocol during a
    re-evaluation pass is not caught, unlike an error of a step: the pass
    ends there with that error.  The entry whose conditions raised it and
    the entries after it are left as they are, no step is executed for
    them and nothing is emitted. *)
Theorem condition_error_aborts_the_pass (fuel : nat) (situationUpdate : Js.Value)
    (index : nat) (protocolId : string) (activeSteps : list string) (protocol : Protocol)
    (e : Js.Error) (w w1 : World) :
  activeProtocols w !! index = Some (Some (protocolId, activeSteps)) →
  protocols w !! protocolId = Some protocol →
  every (Protocol.conditions protocol)
    (fun condition =>
       evaluateCondition condition (updateContext situationUpdate activeSteps)) w
  = Some (Js.Throw e, w1) →
  evaluateProtocolsFrom (S fuel) situationUpdate index w = Some (Js.Throw e, w1) ∧
  activeProtocols w1 = activeProtocols w ∧
  emitted w1 = emitted w ∧
  tacticalCore w1 = tacticalCore w.
Proof.
  intros Hentry Hregistered Hthrows. split.
  - cbn [evaluateProtocolsFrom]. rewrite Hentry.
    unfold bind at 1, evaluateProtocolsEntry, bind at 1, gets. rewrite Hregistered.
    unfold bind at 1. by rewrite Hthrows.
  - destruct (every_total (Protocol.conditions protocol)
                (updateContext situationUpdate activeSteps) w)
      as (r & w' & Hrun & _ & Hactive & Hcore & Hemitted & _).
    rewrite Hthrows in Hrun. by inversion Hrun; subst.
Qed.

Lemma condition_error_aborts_the_pass_witness :
  ∃ w1,
    evaluateProtocolsFrom 1 quietUpdate 0 patrolMisloaded
    = Some (Js.Throw (Js.TypeError "Cannot convert object to primitive value"), w1) ∧
    activeProtocols w1 = activeProtocols patrolMisloaded ∧
    emitted w1 = emitted patrolMisloaded ∧
    tacticalCore w1 = tacticalCore patrolMisloaded.
Proof.
  eexists.
  apply (condition_error_aborts_the_pass 0 quietUpdate 0 "patrol" ["hold"] patrolUnreadable).
  - vm_compute. reflexivity.
  - vm_compute. reflexivity.
  - vm_compute. reflexivity.
Defined.

(** ** Dispatch while the collaborator has its layer *)

Lemma operational_kept_trans (w1 w2 w3 : World) :
  (operational w1 → operational w2) → (operational w2 → operational w3) →
  operational w1 → operational w3.
Proof. auto. Qed.

Lemma every_operational (conditions : list ProtocolCondition) (context : ProtocolContext) :
  keeps (fun w w' => operational w → operational w')
    (every conditions (fun condition => evaluateCondition condition context)).
Proof.
  intros w r w' H. destruct (every_total conditions context w) as (r' & w'' & H' & Hc).
  rewrite H in H'. inversion H'; subst. destruct Hc as (_ & _ & Hcore & _).
  unfold operational. by rewrite Hcore.
Qed.

Lemma evaluateProtocolsEntry_operational (fuel : nat) (situationUpdate : Js.Value)
    (protocolId : string) (activeSteps : list string) :
  keeps (fun w w' => operational w → operational w')
    (evaluateProtocolsEntry fuel situationUpdate protocolId activeSteps).
Proof.
  unfold evaluateProtocolsEntry.
  apply bind_keeps; [apply operational_kept_trans|by intros w r w' [= _ <-]|].
  intros [protocol|]; [|by intros w r w' [= _ <-]].
  apply bind_keeps; [apply operational_kept_trans|apply every_operational|].
  intros met. destruct met; cbn [negb]; [|by intros w r w' [= _ <-]].
  intros w r w' H.
  eapply PromiseAll_keeps with (R := fun w w' => operational w → operational w')
    in H as [_ H]; [exact H|auto|apply operational_kept_trans|].
  intros task w2 r2 w2' Htask Hrun.
  apply list_elem_of_In, in_map_iff in Htask as (stepId & <- & _).
  destruct (findStep protocol stepId) as [step|].
  - destruct (executeProtocolStep_cascade _ _ _ _ _ _ _ Hrun) as [-> _].
    split; [done|]. by eapply executeProtocolStep_operational.
  - by inversion Hrun.
Qed.

Lemma evaluateProtocolsFrom_operational (fuel : nat) (situationUpdate : Js.Value)
    (index : nat) :
  keeps (fun w w' => operational w → operational w')
    (evaluateProtocolsFrom fuel situationUpdate index).
Proof.
  revert index. induction fuel as [|fuel IH]; intros index w r w'; [discriminate|].
  simpl. destruct (activeProtocols w !! index) as [[[protocolId activeSteps]|]|].
  - apply (bind_keeps (fun w w' => operational w → operational w'));
      [apply operational_kept_trans|apply evaluateProtocolsEntry_operational|].
    intros _. apply IH.
  - apply IH.
  - by intros [= _ <-].
Qed.

Lemma run_operational (fuel : nat) (operation : Operation) :
  keeps (fun w w' => operational w → operational w') (run fuel operation).
Proof.
  destruct operation as [protocol|protocolId context|situationUpdate|protocolId];
    cbn [run].
  - intros w r w' H Hop. unfold loadProtocol in H.
    apply bind_Some in H as [([] & w1 & Hvalid & H)|(e & Hvalid & _)].
    + destruct (validateProtocol_cases protocol w) as [[_ Hok]|(_ & e & _ & Hbad)];
        [|by rewrite Hvalid in Hbad].
      rewrite Hvalid in Hok. inversion Hok; subst. by inversion H; subst.
    + destruct (validateProtocol_cases protocol w) as [[_ Hok]|(_ & e' & _ & Hbad)];
        [by rewrite Hvalid in Hok|].
      rewrite Hvalid in Hbad. by inversion Hbad; subst.
  - unfold activateProtocol.
    apply bind_keeps; [apply operational_kept_trans|by intros w r w' [= _ <-]|].
    intros [protocol|]; [|by intros w r w' [= _ <-]].
    apply bind_keeps; [apply operational_kept_trans|apply every_operational|].
    intros met. destruct (negb met); [by intros w r w' [= _ <-]|].
    destruct (Protocol.steps protocol) as [|first rest]; [by intros w r w' [= _ <-]|].
    apply bind_keeps; [apply operational_kept_trans|by intros w r w' [= _ <-]|].
    intros _.
    apply bind_keeps; [apply operational_kept_trans|apply executeProtocolStep_operational|].
    intros _. by intros w r w' [= _ <-].
  - apply evaluateProtocolsFrom_operational.
  - by intros w r w' [= _ <-].
Qed.

(** X8: the layer ['operations'], which [TacticalCore] creates in its
    constructor, stays through every operation of the engine; and while the
    collaborator has it, the only error that a dispatch raises is that of an
    action type that [executeAction] does not know: ['mark_location'] and
    ['update_situation'] always succeed. *)
Theorem dispatch_fails_only_for_unknown_actions (w : World) :
  operational w →
  (∀ fuel operation outcome w',
     run fuel operation w = Some (outcome, w') → operational w') ∧
  (∀ action parameters context,
     ∃ outcome w',
       executeAction action parameters context w = Some (outcome, w') ∧
       (outcome = Js.Normal tt ∨
        outcome = Js.Throw (UnknownAction action) ∧
        action ≠ "mark_location" ∧ action ≠ "update_situation")).
Proof.
  intros Hop. split.
  - intros fuel operation outcome w' Hrun. by eapply run_operational.
  - intros action parameters context. destruct Hop as [elements Hlayer].
    unfold executeAction.
    destruct (String.eqb action "mark_location") eqn:Hmark.
    { unfold bind, DateNow, addTacticalElement, bind, gets. cbn. rewrite Hlayer.
      eexists _, _. split; [reflexivity|by left]. }
    destruct (String.eqb action "update_situation") eqn:Hupdate.
    { eexists _, _. split; [reflexivity|by left]. }
    apply String.eqb_neq in Hmark, Hupdate.
    eexists _, _. split; [reflexivity|]. right. by repeat split.
Qed.

Lemma dispatch_fails_only_for_unknown_actions_witness :
  (∀ fuel operation outcome w',
     run fuel operation p1Active = Some (outcome, w') → operational w') ∧
  (∀ action parameters context,
     ∃ outcome w',
       executeAction action parameters context p1Active = Some (outcome, w') ∧
       (outcome = Js.Normal tt ∨
        outcome = Js.Throw (UnknownAction action) ∧
        action ≠ "mark_location" ∧ action ≠ "update_situation")).
Proof.
  apply (dispatch_fails_only_for_unknown_actions p1Active).
  eexists. vm_compute. reflexivity.
Defined.

(** * Properties of the collaborator *)

(** ** Situational updates *)

Lemma updateSituationalAwareness_unfold (center radius : Js.Value) (core : Tactical.Core) :
  ∃ weather traffic ref elementsRef core',
    Tactical.updateSituationalAwareness center radius core
    = (Js.Normal
         (Js.Object ref
            [("timestamp", Js.Number (Tactical.clock core (Tactical.clockReads core)));
             ("weather", weather); ("traffic", traffic);
             ("tacticalElements", Js.Array elementsRef (Tactical.tacticalElements core))]),
       core') ∧
    Tactical.layers core' = Tactical.layers core ∧
    Tactical.osintFeeds core' = Tactical.osintFeeds core ∧
    Tactical.emitted core'
    = Tactical.emitted core ++
      [Tactical.situation_updated
         (Js.Object ref
            [("timestamp", Js.Number (Tactical.clock core (Tactical.clockReads core)));
             ("weather", weather); ("traffic", traffic);
             ("tacticalElements", Js.Array elementsRef (Tactical.tacticalElements core))])] ∧
    Tactical.clock core' = Tactical.clock core ∧
    Tactical.clockReads core' = S (Tactical.clockReads core).
Proof.
  destruct (Tactical.updateSituationalAwareness center radius core) as [outcome core']
    eqn:Hrun.
  vm_compute in Hrun. injection Hrun as <- <-.
  do 5 eexists. repeat (apply conj); reflexivity.
Qed.

(** X9: [updateSituationalAwareness] always completes normally, whatever
    centre and radius it is given and whatever the layers hold.  The object
    it returns has the four properties [timestamp], [weather], [traffic] and
    [tacticalElements], the last listing the elements of all layers, layer
    after layer; it is emitted once as ['situation:updated'], and layers and
    feeds stay as they are. *)
Theorem situational_update_lists_every_element (center radius : Js.Value)
    (core : Tactical.Core) :
  ∃ weather traffic ref elementsRef core',
    let situationalUpdate :=
      Js.Object ref
        [("timestamp", Js.Number (Tactical.clock core (Tactical.clockReads core)));
         ("weather", weather); ("traffic", traffic);
         ("tacticalElements", Js.Array elementsRef (Tactical.tacticalElements core))] in
    Tactical.updateSituationalAwareness center radius core
    = (Js.Normal situationalUpdate, core') ∧
    Tactical.layers core' = Tactical.layers core ∧
    Tactical.osintFeeds core' = Tactical.osintFeeds core ∧
    Tactical.emitted core'
    = Tactical.emitted core ++ [Tactical.situation_updated situationalUpdate].
Proof.
  destruct (updateSituationalAwareness_unfold center radius core)
    as (weather & traffic & ref & elementsRef & core' & Hrun & Hlayers & Hfeeds & Hemitted & _).
  exists weather, traffic, ref, elementsRef, core'.
  exact (conj Hrun (conj Hlayers (conj Hfeeds Hemitted))).
Qed.

(** ** Elements *)

Lemma get_values {V} (key : string) (m : JsMap.t V) (v : V) :
  JsMap.get key m = Some v → v ∈ Tactical.values m.
Proof.
  unfold Tactical.values.
  induction m as [|[[k v']|] m IH]; cbn; [discriminate| |exact IH].
  destruct (String.eqb k key).
  - intros [= ->]. by left.
  - intros H. right. by apply IH.
Qed.

Lemma get_has {V} (key : string) (m : JsMap.t V) (v : V) :
  JsMap.get key m = Some v → JsMap.has key m = true.
Proof.
  induction m as [|[[k v']|] m IH]; cbn; [discriminate| |exact IH].
  destruct (String.eqb k key); [done|exact IH].
Qed.

Lemma method_bind_Normal {A B} (m : Tactical.Method A) (k : A -> Tactical.Method B)
    (core core' : Tactical.Core) (a : A) :
  m core = (Js.Normal a, core') → Tactical.bind m k core = k a core'.
Proof. unfold Tactical.bind. by intros ->. Qed.

(** [addTacticalElement] on a layer that is there and an element that is
    not [null] or [undefined]. *)
Lemma addTacticalElement_unfold (layerId : string) (element : Js.Value)
    (layer : TacticalLayer) (core : Tactical.Core) :
  JsMap.get layerId (Tactical.layers core) = Some layer →
  element ≠ Js.Undefined → element ≠ Js.Null →
  let id :=
    ("tac-" ++ Js.NumberToString (Tactical.clock core (Tactical.clockReads core)) ++ "-" ++
     Tactical.random core (Tactical.randomReads core))%string in
  let fullElement :=
    Js.Object (Tactical.allocated core)
      (Js.Put (Js.Put (Js.ownEnumerableProperties element) "id" (Js.Str id))
         "metadata"
         (Js.Object (N.succ (Tactical.allocated core))
            (Js.Put
               (Js.ownEnumerableProperties
                  (Js.Get (Js.ownEnumerableProperties element) "metadata"))
               "timestamp"
               (Js.Number (Tactical.clock core (S (Tactical.clockReads core))))))) in
  let outcome := Tactical.addTacticalElement layerId element core in
  fst outcome = Js.Normal id ∧
  Tactical.layers (snd outcome)
  = JsMap.write layerId
      (TacticalLayer.mk (TacticalLayer.id layer) (TacticalLayer.name layer)
         (JsMap.set id fullElement (TacticalLayer.elements layer))
         (TacticalLayer.visible layer))
      (Tactical.layers core) ∧
  Tactical.emitted (snd outcome)
  = Tactical.emitted core ++ [Tactical.element_added layerId fullElement] ∧
  Tactical.clock (snd outcome) = Tactical.clock core ∧
  Tactical.clockReads (snd outcome) = S (S (Tactical.clockReads core)).
Proof.
  intros Hlayer Hundefined Hnull id fullElement outcome.
  assert (JsOps.member element "metadata"
          = Js.Normal (Js.Get (Js.ownEnumerableProperties element) "metadata")) as Hmember
    by (by destruct element).
  subst outcome id fullElement. unfold Tactical.addTacticalElement.
  erewrite method_bind_Normal; [|reflexivity].
  rewrite Hlayer.
  do 4 (erewrite method_bind_Normal; [|reflexivity]).
  erewrite method_bind_Normal; [|unfold Tactical.completion; rewrite Hmember; reflexivity].
  do 3 (erewrite method_bind_Normal; [|reflexivity]).
  unfold Tactical.ret. cbn [fst snd Tactical.layers Tactical.emitted Tactical.clock
    Tactical.clockReads Tactical.random Tactical.randomReads Tactical.allocated
    Tactical.withLayers].
  rewrite Hlayer. repeat (apply conj); exact eq_refl.
Qed.

Lemma Get_Put_eq (props : Js.Properties) (key : string) (v : Js.Value) :
  Js.Get (Js.Put props key v) key = v.
Proof.
  induction props as [|[k old] rest IH]; cbn; [by rewrite String.eqb_refl|].
  destruct (String.eqb k key) eqn:Hk; cbn; by rewrite Hk.
Qed.

Lemma Get_Put_ne (props : Js.Properties) (key other : string) (v : Js.Value) :
  other ≠ key → Js.Get (Js.Put props key v) other = Js.Get props other.
Proof.
  intros Hne. apply String.eqb_neq in Hne.
  induction props as [|[k old] rest IH]; cbn.
  - by rewrite String.eqb_sym, Hne.
  - destruct (String.eqb k key) eqn:Hk; cbn; [|by rewrite IH].
    apply String.eqb_eq in Hk as ->. by rewrite String.eqb_sym, Hne.
Qed.

(** X10: [addTacticalElement] on a layer that does not exist throws and
    leaves the object as it is.  On a layer that exists it returns the
    identifier ["tac-<now>-<random>"], and then the layer holds under that
    identifier an object with that [id] whose [metadata.timestamp] is the
    second reading of the clock, whatever timestamp the caller supplied; the
    other elements of the layer and the other layers are as before, and
    ['element:added'] is emitted once with the element. *)
Theorem addTacticalElement_outcomes (layerId : string) (element : Js.Value)
    (core : Tactical.Core) :
  element ≠ Js.Undefined → element ≠ Js.Null →
  match JsMap.get layerId (Tactical.layers core) with
  | None =>
      Tactical.addTacticalElement layerId element core
      = (Js.Throw (LayerNotFound layerId), core)
  | Some layer =>
      ∃ fullElement metadata layer' core',
        let id :=
          ("tac-" ++ Js.NumberToString (Tactical.clock core (Tactical.clockReads core)) ++
           "-" ++ Tactical.random core (Tactical.randomReads core))%string in
        Tactical.addTacticalElement layerId element core = (Js.Normal id, core') ∧
        JsMap.get layerId (Tactical.layers core') = Some layer' ∧
        JsMap.get id (TacticalLayer.elements layer') = Some fullElement ∧
        JsOps.member fullElement "id" = Js.Normal (Js.Str id) ∧
        JsOps.member fullElement "metadata" = Js.Normal metadata ∧
        JsOps.member metadata "timestamp"
        = Js.Normal (Js.Number (Tactical.clock core (S (Tactical.clockReads core)))) ∧
        (∀ other, other ≠ id →
           JsMap.get other (TacticalLayer.elements layer')
           = JsMap.get other (TacticalLayer.elements layer)) ∧
        (∀ other, other ≠ layerId →
           JsMap.get other (Tactical.layers core')
           = JsMap.get other (Tactical.layers core)) ∧
        Tactical.emitted core'
        = Tactical.emitted core ++ [Tactical.element_added layerId fullElement]
  end.
Proof.
  intros Hundefined Hnull.
  destruct (JsMap.get layerId (Tactical.layers core)) as [layer|] eqn:Hlayer.
  - destruct (addTacticalElement_unfold layerId element layer core Hlayer Hundefined Hnull)
      as (Hid & Hlayers & Hemitted & _).
    destruct (Tactical.addTacticalElement layerId element core) as [outcome core'].
    cbn [fst snd] in Hid, Hlayers, Hemitted. subst outcome.
    eexists _, _, _, core'. cbv zeta.
    split; [reflexivity|]. rewrite Hlayers.
    split; [apply get_write_eq; by eapply get_has|]. cbn [TacticalLayer.elements].
    split; [apply get_set_eq|].
    split.
    { unfold JsOps.member. cbn [Js.ownEnumerableProperties].
      by rewrite Get_Put_ne, Get_Put_eq. }
    split.
    { unfold JsOps.member. cbn [Js.ownEnumerableProperties].
      by rewrite Get_Put_eq. }
    split.
    { unfold JsOps.member. cbn [Js.ownEnumerableProperties].
      by rewrite Get_Put_eq. }
    split; [intros other Hother; by apply get_set_ne|].
    split; [intros other Hother; by apply get_write_ne|].
    exact Hemitted.
  - unfold Tactical.addTacticalElement, Tactical.bind, Tactical.gets. by rewrite Hlayer.
Qed.

Lemma addTacticalElement_outcomes_witness :
  ∃ fullElement metadata layer' core',
    Tactical.addTacticalElement "operations" marker quietCore
    = (Js.Normal "tac-0-k3x9q0z1a", core') ∧
    JsMap.get "operations" (Tactical.layers core') = Some layer' ∧
    JsMap.get "tac-0-k3x9q0z1a" (TacticalLayer.elements layer') = Some fullElement ∧
    JsOps.member fullElement "id" = Js.Normal (Js.Str "tac-0-k3x9q0z1a") ∧
    JsOps.member fullElement "metadata" = Js.Normal metadata ∧
    JsOps.member metadata "timestamp" = Js.Normal (Js.Number 0) ∧
    (∀ other, other ≠ "tac-0-k3x9q0z1a" →
       JsMap.get other (TacticalLayer.elements layer') = None) ∧
    (∀ other, other ≠ "operations" →
       JsMap.get other (Tactical.layers core') = JsMap.get other (Tactical.layers quietCore)) ∧
    Tactical.emitted core'
    = Tactical.emitted quietCore ++ [Tactical.element_added "operations" fullElement].
Proof.
  pose proof (addTacticalElement_outcomes "operations" marker quietCore
                ltac:(discriminate) ltac:(discriminate)) as Houtcome.
  vm_compute in Houtcome. vm_compute. exact Houtcome.
Defined.

(** ** Layers *)

Lemma values_app {V} (m m' : JsMap.t V) :
  Tactical.values (m ++ m') = Tactical.values m ++ Tactical.values m'.
Proof. unfold Tactical.values. apply omap_app. Qed.

Lemma elements_write_empty (id : string) (layer : TacticalLayer) (m : JsMap.t TacticalLayer) :
  TacticalLayer.elements layer = [] →
  flat_map (fun layer => Tactical.values (TacticalLayer.elements layer))
    (Tactical.values (JsMap.write id layer m))
  = flat_map (fun layer => Tactical.values (TacticalLayer.elements layer))
      (Tactical.values (JsMap.delete id m)).
Proof.
  intros Hempty. unfold Tactical.values, JsMap.write, JsMap.delete.
  induction m as [|[[k v]|] m IH]; cbn; [done| |exact IH].
  destruct (String.eqb k id); cbn; [by rewrite Hempty|by rewrite IH].
Qed.

(** X11: [createLayer] always succeeds.  Under an id in use it puts an empty
    layer in the place of the one that was there: the other layers stay, and
    the elements of the former layer are no longer among the tactical
    elements, which are those that remain when the layer is deleted. *)
Theorem createLayer_replaces_the_layer (id name : string) (core : Tactical.Core) :
  ∃ core',
    Tactical.createLayer id name core
    = (Js.Normal (TacticalLayer.mk id name [] true), core') ∧
    JsMap.get id (Tactical.layers core') = Some (TacticalLayer.mk id name [] true) ∧
    (∀ other, other ≠ id →
       JsMap.get other (Tactical.layers core') = JsMap.get other (Tactical.layers core)) ∧
    Tactical.tacticalElements core'
    = Tactical.tacticalElements (Tactical.withLayers (JsMap.delete id) core) ∧
    Tactical.emitted core' = Tactical.emitted core ++ [Tactical.layer_created id name].
Proof.
  eexists. split; [reflexivity|]. cbn [Tactical.layers Tactical.emitted Tactical.withLayers].
  split; [apply get_set_eq|].
  split; [intros other Hother; by apply get_set_ne|].
  split; [|reflexivity].
  unfold Tactical.tacticalElements. cbn [Tactical.layers Tactical.withLayers].
  unfold JsMap.set. destruct (JsMap.has id (Tactical.layers core)) eqn:Hhas.
  - by apply elements_write_empty.
  - rewrite (delete_absent _ _ Hhas), values_app, flat_map_app. cbn. by rewrite app_nil_r.
Qed.

(** ** From an element to the update that reports it *)

Lemma method_bind_Throw {A B} (m : Tactical.Method A) (k : A -> Tactical.Method B)
    (core core' : Tactical.Core) (e : Js.Error) :
  m core = (Js.Throw e, core') → Tactical.bind m k core = (Js.Throw e, core').
Proof. unfold Tactical.bind. by intros ->. Qed.

Lemma addTacticalElement_Normal (layerId : string) (element : Js.Value)
    (core core' : Tactical.Core) (id : string) :
  Tactical.addTacticalElement layerId element core = (Js.Normal id, core') →
  is_Some (JsMap.get layerId (Tactical.layers core)) ∧
  element ≠ Js.Undefined ∧ element ≠ Js.Null.
Proof.
  unfold Tactical.addTacticalElement.
  erewrite method_bind_Normal; [|reflexivity].
  destruct (JsMap.get layerId (Tactical.layers core)) as [layer|]; [|discriminate].
  do 4 (erewrite method_bind_Normal; [|reflexivity]).
  intros Hrun. split; [by eexists|].
  split; intros ->;
    match type of Hrun with
    | Tactical.bind ?m ?k ?c = _ =>
        rewrite (method_bind_Throw m k c _ _ eq_refl) in Hrun
    end; discriminate.
Qed.

(** X12: an element that [addTacticalElement] has added is reported by the
    next situational update: the update's [tacticalElements] hold an object
    with the identifier that the addition returned. *)
Theorem added_element_is_reported (layerId : string) (element center radius : Js.Value)
    (core core1 : Tactical.Core) (id : string) :
  Tactical.addTacticalElement layerId element core = (Js.Normal id, core1) →
  ∃ situationalUpdate core2 ref elements added,
    Tactical.updateSituationalAwareness center radius core1
    = (Js.Normal situationalUpdate, core2) ∧
    JsOps.member situationalUpdate "tacticalElements" = Js.Normal (Js.Array ref elements) ∧
    added ∈ elements ∧
    JsOps.member added "id" = Js.Normal (Js.Str id).
Proof.
  intros Hadd.
  destruct (addTacticalElement_Normal _ _ _ _ _ Hadd) as ([layer Hlayer] & Hundefined & Hnull).
  destruct (addTacticalElement_unfold layerId element layer core Hlayer Hundefined Hnull)
    as (Hid & Hlayers & _).
  rewrite Hadd in Hid, Hlayers. cbn [fst snd] in Hid, Hlayers.
  injection Hid as Hid.
  destruct (updateSituationalAwareness_unfold center radius core1)
    as (weather & traffic & ref & elementsRef & core2 & Hrun & _).
  eexists _, core2, elementsRef, _, _. split; [exact Hrun|].
  split; [reflexivity|].
  split.
  - unfold Tactical.tacticalElements. apply list_elem_of_In, in_flat_map.
    eexists. split; apply list_elem_of_In.
    + apply (get_values layerId). rewrite Hlayers. apply get_write_eq. by eapply get_has.
    + cbn [TacticalLayer.elements]. apply (get_values id). rewrite Hid. apply get_set_eq.
  - unfold JsOps.member. cbn [Js.ownEnumerableProperties].
    rewrite Get_Put_ne, Get_Put_eq; [|done]. by rewrite Hid.
Qed.

Lemma added_element_is_reported_witness :
  ∃ situationalUpdate core2 ref elements added,
    Tactical.updateSituationalAwareness Js.Undefined Js.Undefined
      (snd (Tactical.addTacticalElement "operations" marker quietCore))
    = (Js.Normal situationalUpdate, core2) ∧
    JsOps.member situationalUpdate "tacticalElements" = Js.Normal (Js.Array ref elements) ∧
    added ∈ elements ∧
    JsOps.member added "id" = Js.Normal (Js.Str "tac-0-k3x9q0z1a").
Proof.
  apply (added_element_is_reported "operations" marker Js.Undefined Js.Undefined quietCore).
  vm_compute. reflexivity.
Defined.

(** ** What the class never does *)




(** * The engine and its collaborator *)

(** ** Updates as the collaborator emits them *)

Lemma every_app {A} (l l' : list A) (predicate : A -> M bool) (w : World) :
  every (l ++ l') predicate w
  = (b <- every l predicate ;; if b then every l' predicate else ret false) w.
Proof.
  revert w. induction l as [|a l IH]; intros w; cbn [every app]; [reflexivity|].
  unfold bind. destruct (predicate a w) as [[[[]|e] w1]|]; try reflexivity.
  rewrite IH. reflexivity.
Qed.

Lemma evaluateCondition_without_context (condition : ProtocolCondition)
    (activeSteps : option (list string)) (w : World) :
  unmetWithoutContext condition →
  evaluateCondition condition (ProtocolContext.mk Js.Undefined Js.Undefined activeSteps) w
  = Some (Js.Normal false, w).
Proof.
  destruct condition as [type operator value]. unfold unmetWithoutContext.
  cbn [ProtocolCondition.type ProtocolCondition.operator ProtocolCondition.value].
  intros (Htype & Hequals & Horder).
  assert (getContextValue type (ProtocolContext.mk Js.Undefined Js.Undefined activeSteps) w
          = Some (Js.Normal Js.Undefined, w)) as Hget
    by (destruct Htype as [-> | ->]; reflexivity).
  unfold evaluateCondition, bind.
  cbn [ProtocolCondition.type ProtocolCondition.operator ProtocolCondition.value].
  rewrite Hget.
  destruct (String.eqb operator "equals") eqn:Hop1.
  { apply String.eqb_eq in Hop1. specialize (Hequals Hop1). by destruct value. }
  destruct (String.eqb operator "greater") eqn:Hop2.
  { apply String.eqb_eq in Hop2. destruct Horder as [p Hp]; [by left|].
    unfold completion, Js.greaterThan. cbn [Js.ToPrimitive]. rewrite Hp.
    unfold Js.IsLessThan. cbn [Js.ToNumber].
    replace (PrimFloat.is_nan Js.NaN) with true by reflexivity.
    rewrite orb_true_r. by destruct p. }
  destruct (String.eqb operator "less") eqn:Hop3.
  { apply String.eqb_eq in Hop3. destruct Horder as [p Hp]; [by right|].
    unfold completion, Js.lessThan. cbn [Js.ToPrimitive]. rewrite Hp.
    unfold Js.IsLessThan. cbn [Js.ToNumber].
    replace (PrimFloat.is_nan Js.NaN) with true by reflexivity. reflexivity. }
  by destruct (String.eqb operator "contains").
Qed.

(** X14: the updates that [TacticalCore] emits carry neither [environmental]
    nor [tactical], so the context that a re-evaluation builds from one has
    nothing for either.  A protocol with a condition of one of these types,
    other than an equality with [undefined], is therefore deactivated when
    its entry is re-evaluated on such an update, provided the conditions
    before that one hold: its entry is deleted and ['protocol:deactivated']
    is emitted, and none of its steps is executed. *)
Theorem collaborator_updates_deactivate_conditioned_protocols
    (center radius situationUpdate : Js.Value) (core core' : Tactical.Core)
    (fuel : nat) (protocolId : string) (activeSteps : list string) (protocol : Protocol)
    (before after : list ProtocolCondition) (condition : ProtocolCondition)
    (w w0 : World) :
  Tactical.updateSituationalAwareness center radius core = (Js.Normal situationUpdate, core') →
  protocols w !! protocolId = Some protocol →
  Protocol.conditions protocol = before ++ condition :: after →
  every before
    (fun c => evaluateCondition c (updateContext situationUpdate activeSteps)) w
  = Some (Js.Normal true, w0) →
  unmetWithoutContext condition →
  evaluateProtocolsEntry fuel situationUpdate protocolId activeSteps w
  = Some (Js.Normal tt,
          withEmitted (fun log => log ++ [protocol_deactivated protocolId])
            (withActiveProtocols (JsMap.delete protocolId) w0)).
Proof.
  intros Hupdate Hregistered Hconditions Hbefore Hunmet.
  destruct (updateSituationalAwareness_unfold center radius core)
    as (weather & traffic & ref & elementsRef & core'' & Hrun & _).
  rewrite Hupdate in Hrun. injection Hrun as -> _.
  assert (updateContext
            (Js.Object ref
               [("timestamp", Js.Number (Tactical.clock core (Tactical.clockReads core)));
                ("weather", weather); ("traffic", traffic);
                ("tacticalElements", Js.Array elementsRef (Tactical.tacticalElements core))])
            activeSteps
          = ProtocolContext.mk Js.Undefined Js.Undefined (Some activeSteps)) as Hcontext
    by reflexivity.
  unfold evaluateProtocolsEntry, bind at 1, gets. rewrite Hregistered.
  rewrite Hcontext in *. unfold bind at 1. rewrite Hconditions, every_app.
  unfold bind at 1. rewrite Hbefore. cbn [every]. unfold bind at 1.
  rewrite (evaluateCondition_without_context condition _ w0 Hunmet).
  reflexivity.
Qed.

Lemma collaborator_updates_deactivate_conditioned_protocols_witness :
  JsMap.get "guarded" (activeProtocols guardedActive) = Some ["stand"] ∧
  evaluateProtocolsEntry 2 firstUpdate "guarded" ["stand"] guardedActive
  = Some (Js.Normal tt,
          withEmitted (fun log => log ++ [protocol_deactivated "guarded"])
            (withActiveProtocols (JsMap.delete "guarded") guardedActive)).
Proof.
  split; [vm_compute; reflexivity|].
  apply (collaborator_updates_deactivate_conditioned_protocols
           Js.Undefined Js.Undefined firstUpdate quietCore
           (snd (Tactical.updateSituationalAwareness Js.Undefined Js.Undefined quietCore))
           2 "guarded" ["stand"] guarded [] [] whileClear guardedActive guardedActive).
  - vm_compute. reflexivity.
  - vm_compute. reflexivity.
  - reflexivity.
  - reflexivity.
  - split; [by right|]. split; [discriminate|]. intros [H | H]; discriminate.
Defined.

(** ** The engine's view of the collaborator *)




(** * Properties of the vector store *)

(** ** Storing *)

(** X16: [storeVector] refuses a vector whose length is not the store's
    dimension and leaves the store as it is; otherwise it returns
    ["mem-<nanoid>"], and [getMemory] then returns under that id the vector
    and the metadata stored, while every other id reads as before. *)
Theorem storeVector_then_getMemory (vector : list float) (metadata : MemoryMetadata)
    (store : ConvexStore.t) :
  if PrimFloat.eqb (ConvexStore.lengthOf vector) (ConvexStore.dimensions store)
  then
    ∃ store',
      let id :=
        ("mem-" ++ ConvexStore.nanoid store (ConvexStore.nanoidCalls store))%string in
      ConvexStore.storeVector vector metadata store = (Js.Normal id, store') ∧
      ConvexStore.getMemory id store' = Some (MemoryVector.mk id vector metadata) ∧
      (∀ other, other ≠ id →
         ConvexStore.getMemory other store' = ConvexStore.getMemory other store) ∧
      ConvexStore.dimensions store' = ConvexStore.dimensions store
  else
    ConvexStore.storeVector vector metadata store
    = (Js.Throw (ConvexStore.DimensionMismatch (ConvexStore.dimensions store)), store).
Proof.
  unfold ConvexStore.storeVector.
  destruct (PrimFloat.eqb _ _); cbn [negb]; [|reflexivity].
  eexists. cbv zeta. split; [reflexivity|].
  unfold ConvexStore.getMemory. cbn [ConvexStore.memories ConvexStore.dimensions].
  split; [apply get_set_eq|]. split; [|reflexivity].
  intros other Hother. by apply get_set_ne.
Qed.

(** ** Similarity *)

Section NaN.
Local Open Scope float_scope.

Lemma Prim2SF_NaN : Prim2SF Js.NaN = S754_nan.
Proof. reflexivity. Qed.

Lemma is_NaN (x : float) : Prim2SF x = S754_nan → x = Js.NaN.
Proof. intros H. apply Prim2SF_inj. by rewrite H. Qed.

Lemma add_NaN_l (x : float) : Js.NaN + x = Js.NaN.
Proof. apply is_NaN. by rewrite add_spec, Prim2SF_NaN. Qed.

Lemma add_NaN_r (x : float) : x + Js.NaN = Js.NaN.
Proof. apply is_NaN. rewrite add_spec, Prim2SF_NaN. by destruct (Prim2SF x). Qed.

Lemma mul_NaN_r (x : float) : x * Js.NaN = Js.NaN.
Proof. apply is_NaN. rewrite mul_spec, Prim2SF_NaN. by destruct (Prim2SF x). Qed.

Lemma mul_NaN_l (x : float) : Js.NaN * x = Js.NaN.
Proof. apply is_NaN. by rewrite mul_spec, Prim2SF_NaN. Qed.

Lemma div_NaN_l (x : float) : Js.NaN / x = Js.NaN.
Proof. apply is_NaN. by rewrite div_spec, Prim2SF_NaN. Qed.

End NaN.

Lemma sums_NaN (a b : list float) (indices : list nat) (normA normB : float) :
  ∃ normA' normB',
    ConvexStore.sums a b indices (Js.NaN, normA, normB) = (Js.NaN, normA', normB').
Proof.
  revert normA normB. induction indices as [|i indices IH]; intros normA normB.
  - by eexists _, _.
  - unfold ConvexStore.sums. cbn [fold_left]. rewrite add_NaN_l. apply IH.
Qed.

Lemma sums_ext (a b b' : list float) (indices : list nat) (start : float * float * float) :
  (∀ i, i ∈ indices → ConvexStore.component b i = ConvexStore.component b' i) →
  ConvexStore.sums a b indices start = ConvexStore.sums a b' indices start.
Proof.
  revert start. induction indices as [|i indices IH]; intros [[dotProduct normA] normB] Hsame;
    [reflexivity|].
  unfold ConvexStore.sums. cbn [fold_left]. rewrite (Hsame i) by by left.
  apply IH. intros j Hj. apply Hsame. by right.
Qed.

(** X17: [cosineSimilarity(a, b)] runs over the indices of [a].  When [a] is
    the longer vector the result is [NaN]: the missing components of [b]
    read [undefined].  When [a] is the shorter one the components of [b]
    beyond its length are not looked at: the result is the similarity of [a]
    with the prefix of [b]. *)
Theorem cosineSimilarity_of_unequal_lengths (a b : list float) :
  (length b < length a → ConvexStore.cosineSimilarity a b = Js.NaN) ∧
  (length a ≤ length b →
   ConvexStore.cosineSimilarity a b
   = ConvexStore.cosineSimilarity a (take (length a) b)).
Proof.
  split; intros Hlength.
  - unfold ConvexStore.cosineSimilarity.
    replace (seq 0 (length a))
      with (seq 0 (length b) ++ length b :: seq (S (length b)) (length a - S (length b))).
    2:{ change (length b :: seq (S (length b)) (length a - S (length b)))
          with (seq (length b) (S (length a - S (length b)))).
        rewrite <- seq_app. f_equal. lia. }
    unfold ConvexStore.sums. rewrite fold_left_app. cbn [fold_left].
    destruct (fold_left _ (seq 0 (length b)) _) as [[dotProduct normA] normB].
    assert (ConvexStore.component b (length b) = Js.NaN) as ->.
    { unfold ConvexStore.component. by rewrite lookup_ge_None_2. }
    rewrite mul_NaN_r, add_NaN_r.
    destruct (sums_NaN a b (seq (S (length b)) (length a - S (length b)))
                (normA + ConvexStore.component a (length b) * ConvexStore.component a (length b))
                (normB + Js.NaN * Js.NaN)) as (normA' & normB' & Hrest).
    unfold ConvexStore.sums in Hrest. rewrite Hrest. apply div_NaN_l.
  - unfold ConvexStore.cosineSimilarity.
    rewrite (sums_ext a b (take (length a) b)); [reflexivity|].
    intros i Hi. apply elem_of_seq in Hi. unfold ConvexStore.component.
    by rewrite lookup_take_lt by lia.
Qed.

Lemma cosineSimilarity_of_unequal_lengths_witness :
  ConvexStore.cosineSimilarity [1; 2; 3]%float [1; 2]%float = Js.NaN ∧
  ConvexStore.cosineSimilarity [1; 2]%float [1; 2; 3]%float
  = ConvexStore.cosineSimilarity [1; 2]%float [1; 2]%float.
Proof.
  split.
  - apply (proj1 (cosineSimilarity_of_unequal_lengths [1; 2; 3]%float [1; 2]%float)).
    cbn. lia.
  - apply (proj2 (cosineSimilarity_of_unequal_lengths [1; 2]%float [1; 2; 3]%float)).
    cbn. lia.
Defined.

Lemma SFmul_comm (x y : spec_float) : SFmul prec emax x y = SFmul prec emax y x.
Proof.
  destruct x as [sx|sx| |sx mx ex], y as [sy|sy| |sy my ey]; cbn;
    rewrite ?(xorb_comm sx sy); try reflexivity.
  by rewrite (Pos.mul_comm mx my), (Z.add_comm ex ey).
Qed.

Lemma float_mul_comm (x y : float) : (x * y = y * x)%float.
Proof. apply Prim2SF_inj. rewrite !mul_spec. apply SFmul_comm. Qed.

Lemma sums_swap (a b : list float) (indices : list nat) (dotProduct normA normB : float) :
  ConvexStore.sums b a indices (dotProduct, normB, normA)
  = (let '(dotProduct', normA', normB') :=
       ConvexStore.sums a b indices (dotProduct, normA, normB) in
     (dotProduct', normB', normA')).
Proof.
  revert dotProduct normA normB.
  induction indices as [|i indices IH]; intros dotProduct normA normB; [reflexivity|].
  unfold ConvexStore.sums. cbn [fold_left].
  rewrite (float_mul_comm (ConvexStore.component b i) (ConvexStore.component a i)).
  apply IH.
Qed.

(** X18: between vectors of one length [cosineSimilarity] is symmetric, to
    the last bit: the products and the sums are the same numbers in both
    orders. *)
Theorem cosineSimilarity_symmetric (a b : list float) :
  length a = length b →
  ConvexStore.cosineSimilarity a b = ConvexStore.cosineSimilarity b a.
Proof.
  intros Hlength. unfold ConvexStore.cosineSimilarity.
  rewrite <- Hlength, (sums_swap a b).
  destruct (ConvexStore.sums a b _ _) as [[dotProduct normA] normB].
  by rewrite float_mul_comm.
Qed.

Lemma cosineSimilarity_symmetric_witness :
  ConvexStore.cosineSimilarity [1; 2]%float [3; 4]%float
  = ConvexStore.cosineSimilarity [3; 4]%float [1; 2]%float.
Proof. apply cosineSimilarity_symmetric. reflexivity. Defined.

(** ** Vectors of zeros *)

Section Zeros.
Local Open Scope float_scope.

Lemma mul_zero_l (y : float) : zeroOrNaN (0 * y).
Proof.
  unfold zeroOrNaN. rewrite mul_spec.
  change (Prim2SF 0) with (S754_zero false). by destruct (Prim2SF y).
Qed.

Lemma add_zeroOrNaN (x y : float) : zeroOrNaN x → zeroOrNaN y → zeroOrNaN (x + y).
Proof.
  unfold zeroOrNaN. rewrite add_spec.
  destruct (Prim2SF x) as [sx| | |], (Prim2SF y) as [sy| | |]; try done.
  by destruct sx, sy.
Qed.

Lemma div_zeroOrNaN (x y : float) : zeroOrNaN x → zeroOrNaN y → x / y = Js.NaN.
Proof.
  unfold zeroOrNaN. intros Hx Hy. apply is_NaN. rewrite div_spec.
  by destruct (Prim2SF x), (Prim2SF y).
Qed.

End Zeros.

Lemma lookup_repeat {A} (x : A) (n i : nat) : i < n → List.repeat x n !! i = Some x.
Proof.
  revert i. induction n as [|n IH]; intros [|i] Hi; cbn; try lia; [done|].
  apply IH. lia.
Qed.

Lemma sums_of_zeros (n : nat) (b : list float) (indices : list nat)
    (dotProduct normB : float) :
  (∀ i, i ∈ indices → i < n) → zeroOrNaN dotProduct →
  ∃ dotProduct' normB',
    ConvexStore.sums (List.repeat 0%float n) b indices (dotProduct, 0%float, normB)
    = (dotProduct', 0%float, normB') ∧
    zeroOrNaN dotProduct'.
Proof.
  revert dotProduct normB. induction indices as [|i indices IH];
    intros dotProduct normB Hindices Hzero; [by eexists _, _|].
  unfold ConvexStore.sums. cbn [fold_left].
  assert (ConvexStore.component (List.repeat 0%float n) i = 0%float) as ->.
  { unfold ConvexStore.component.
    assert (List.repeat 0%float n !! i = Some 0%float) as ->; [|done].
    apply lookup_repeat, Hindices. by left. }
  change (0 + 0 * 0)%float with 0%float.
  apply IH.
  - intros j Hj. apply Hindices. by right.
  - apply add_zeroOrNaN; [done|apply mul_zero_l].
Qed.

Lemma cosineSimilarity_zeros (n : nat) (b : list float) :
  ConvexStore.cosineSimilarity (List.repeat 0%float n) b = Js.NaN.
Proof.
  unfold ConvexStore.cosineSimilarity.
  destruct (sums_of_zeros n b (seq 0 (length (List.repeat 0%float n))) 0%float 0%float)
    as (dotProduct & normB & -> & Hzero).
  - intros i Hi. apply elem_of_seq in Hi. rewrite repeat_length in Hi. lia.
  - exact I.
  - apply div_zeroOrNaN; [done|].
    change (PrimFloat.sqrt 0) with 0%float. apply mul_zero_l.
Qed.

(** * Properties of the sensory system *)

(** X19: on an empty queue [process] handles the input it is given and
    leaves the queue empty.  An input that is not an audio [Blob] or an image
    (any other [Blob] included) is processed as text, with confidence 1 and
    the input itself as [context.text]; an image is processed as visual,
    with confidence 0.8; the transcription service is called for an audio
    [Blob] only, once, and what is thrown then is its rejection or a
    [TypeError] from reading its response.  The errors that [processNext]
    and [processAudio] raise themselves do not occur. *)
Theorem process_handles_its_own_input (input : SensorySystem.Input)
    (system : SensorySystem.t) :
  SensorySystem.processingQueue system = [] →
  ∃ outcome system',
    SensorySystem.process input system = (outcome, system') ∧
    SensorySystem.processingQueue system' = [] ∧
    SensorySystem.clockReads system' = S (SensorySystem.clockReads system) ∧
    (SensorySystem.detectInputType input = "text" →
     outcome
     = Js.Normal
         (SensorySystem.ProcessedData.mk SensorySystem.emptyVector "text" (Js.Number 1)
            (SensorySystem.textOf input)) ∧
     SensorySystem.transcriptions system' = SensorySystem.transcriptions system) ∧
    (SensorySystem.detectInputType input = "visual" →
     outcome
     = Js.Normal
         (SensorySystem.ProcessedData.mk SensorySystem.emptyVector "visual"
            (Js.Number SensorySystem.visualConfidence) SensorySystem.noContext) ∧
     SensorySystem.transcriptions system' = SensorySystem.transcriptions system) ∧
    (SensorySystem.detectInputType input = "audio" →
     SensorySystem.transcriptions system' = S (SensorySystem.transcriptions system) ∧
     match SensorySystem.preRecorded system (SensorySystem.transcriptions system) with
     | Js.Throw e => outcome = Js.Throw e
     | Js.Normal response =>
         (∃ confidence transcript,
            outcome
            = Js.Normal
                (SensorySystem.ProcessedData.mk SensorySystem.emptyVector "audio" confidence
                   (SensorySystem.transcriptOf transcript))) ∨
         (∃ message, outcome = Js.Throw (Js.TypeError message))
     end).
Proof.
  intros Hqueue. unfold SensorySystem.process, SensorySystem.categorizeInput,
    SensorySystem.processNext, SensorySystem.withQueue.
  cbn [SensorySystem.processingQueue]. rewrite Hqueue. cbn [app SensorySystem.SensoryInput.type].
  assert (∀ response key,
            (∃ v, SensorySystem.firstAlternative response key = Js.Normal v) ∨
            (∃ message, SensorySystem.firstAlternative response key
                        = Js.Throw (Js.TypeError message))) as Hread.
  { intros response key. unfold SensorySystem.firstAlternative.
    assert (∀ v k, (∃ v', JsOps.member v k = Js.Normal v') ∨
                   (∃ message, JsOps.member v k = Js.Throw (Js.TypeError message))) as Hmember
      by (intros [] k; cbn; eauto).
    destruct (Hmember response "results") as [[results ->] | [? ->]]; [|eauto].
    destruct (JsOps.nullish results); [eauto|].
    destruct (Hmember results "channels") as [[channels ->] | [? ->]]; [|eauto].
    destruct (Hmember channels "0") as [[channel ->] | [? ->]]; [|eauto].
    destruct (JsOps.nullish channel); [eauto|].
    destruct (Hmember channel "alternatives") as [[alternatives ->] | [? ->]]; [|eauto].
    destruct (Hmember alternatives "0") as [[alternative ->] | [? ->]]; [|eauto].
    destruct (JsOps.nullish alternative); [eauto|]. apply Hmember. }
  destruct input as [type content| | |v]; cbn [SensorySystem.detectInputType].
  - destruct (String.prefix "audio/" type).
    + change (String.eqb "audio" "audio") with true. cbv iota.
      unfold SensorySystem.processAudio.
      cbn [SensorySystem.SensoryInput.data SensorySystem.preRecorded
           SensorySystem.transcriptions].
      destruct (SensorySystem.preRecorded system (SensorySystem.transcriptions system))
        as [response|e].
      * destruct (Hread response "confidence") as [[confidence ->] | [message ->]].
        -- destruct (Hread response "transcript") as [[transcript ->] | [message ->]];
             eexists _, _; (split; [reflexivity|]); cbn;
             repeat (apply conj); try done; intros _; (split; [done|]); eauto.
        -- eexists _, _; (split; [reflexivity|]); cbn;
             repeat (apply conj); try done; intros _; (split; [done|]); eauto.
      * eexists _, _; (split; [reflexivity|]); cbn; repeat (apply conj); done.
    + change (String.eqb "text" "audio") with false.
      change (String.eqb "text" "visual") with false.
      change (String.eqb "text" "text") with true. cbv iota.
      eexists _, _; (split; [reflexivity|]); cbn; repeat (apply conj); done.
  - eexists _, _; (split; [reflexivity|]); cbn; repeat (apply conj); done.
  - eexists _, _; (split; [reflexivity|]); cbn; repeat (apply conj); done.
  - eexists _, _; (split; [reflexivity|]); cbn; repeat (apply conj); done.
Qed.

Lemma process_handles_its_own_input_witness :
  ∃ outcome system',
    SensorySystem.process videoClip quietSenses = (outcome, system') ∧
    SensorySystem.processingQueue system' = [] ∧
    outcome
    = Js.Normal
        (SensorySystem.ProcessedData.mk SensorySystem.emptyVector "text" (Js.Number 1)
           (SensorySystem.textOf videoClip)).
Proof.
  destruct (process_handles_its_own_input videoClip quietSenses eq_refl)
    as (outcome & system' & Hrun & Hqueue & _ & Htext & _).
  exists outcome, system'. split; [exact Hrun|]. split; [exact Hqueue|].
  apply Htext. reflexivity.
Defined.

(** ** The vectors that the system returns *)

Lemma processNext_vector (system system' : SensorySystem.t)
    (data : SensorySystem.ProcessedData) :
  SensorySystem.processNext system = (Js.Normal data, system') →
  SensorySystem.ProcessedData.vector data = SensorySystem.emptyVector.
Proof.
  unfold SensorySystem.processNext.
  destruct (SensorySystem.processingQueue system) as [|input rest]; [done|].
  cbv zeta.
  destruct (String.eqb (SensorySystem.SensoryInput.type input) "audio").
  { unfold SensorySystem.processAudio.
    destruct (SensorySystem.SensoryInput.data input); try done.
    destruct (SensorySystem.preRecorded _ _) as [response|]; [|done].
    destruct (SensorySystem.firstAlternative response "confidence"); [|done].
    destruct (SensorySystem.firstAlternative response "transcript"); [|done].
    by intros [= <- _]. }
  destruct (String.eqb (SensorySystem.SensoryInput.type input) "visual").
  { by intros [= <- _]. }
  destruct (String.eqb (SensorySystem.SensoryInput.type input) "text"); [|done].
  by intros [= <- _].
Qed.

(** X20: whatever the input and whatever waits in the queue, the vector of
    the data that [process] returns is a vector of 1536 zeros, and the cosine
    similarity that the memory store computes between it and any vector is
    [NaN]. *)
Theorem processed_vector_is_similar_to_nothing (input : SensorySystem.Input)
    (system system' : SensorySystem.t) (data : SensorySystem.ProcessedData)
    (b : list float) :
  SensorySystem.process input system = (Js.Normal data, system') →
  SensorySystem.ProcessedData.vector data = List.repeat 0%float 1536 ∧
  ConvexStore.cosineSimilarity (SensorySystem.ProcessedData.vector data) b = Js.NaN.
Proof.
  unfold SensorySystem.process.
  destruct (SensorySystem.categorizeInput input system) as [sensoryInput categorized].
  intros Hrun. apply processNext_vector in Hrun. rewrite Hrun.
  split; [reflexivity|]. apply cosineSimilarity_zeros.
Qed.

Lemma processed_vector_is_similar_to_nothing_witness :
  ∃ data system',
    SensorySystem.process videoClip quietSenses = (Js.Normal data, system') ∧
    ConvexStore.cosineSimilarity (SensorySystem.ProcessedData.vector data) [1%float]
    = Js.NaN.
Proof.
  eexists _, _. split; [reflexivity|].
  exact (proj2 (processed_vector_is_similar_to_nothing videoClip quietSenses _ _
                  [1%float] eq_refl)).
Defined.

(** * Properties of the swarm *)

Lemma processInput_agents (input : string) (swarm swarm' : SwarmCore.t)
    (outcome : Js.Completion (option SwarmCore.Response)) :
  SwarmCore.processInput input swarm = (outcome, swarm') →
  SwarmCore.agents swarm' = SwarmCore.agents swarm.
Proof.
  unfold SwarmCore.processInput, SwarmCore.evaluateAndRespond, SwarmCore.generateResponse,
    SwarmCore.updateEvaluationMetrics.
  destruct (SwarmCore.getActiveAgent swarm) as [agent|]; [|by intros [= _ <-]].
  destruct (SensorySystem.process _ _) as [[data|e] senses]; [|by intros [= _ <-]].
  destruct (SwarmCore.recall swarm (SwarmCore.recalls swarm)); by intros [= _ <-].
Qed.

(** X21: in the swarm that the constructor sets up, the agent that handles
    an input is always the first one created, [tony]: [getActiveAgent]
    returns it after any number of inputs, and so [processInput] never
    returns [null] and the second primary agent never handles an input. *)
Theorem tony_handles_every_input (senses : SensorySystem.t) (random : nat -> float)
    (recall : nat -> Js.Completion Js.Value) (swarm : SwarmCore.t) :
  rtc serves (SwarmCore.new senses random recall) swarm →
  SwarmCore.getActiveAgent swarm
  = Some (SwarmCore.SwarmAgent.mk
            ("agent-tony-" ++
             Js.NumberToString
               (SensorySystem.clock senses (SensorySystem.clockReads senses)))%string
            "tony" SwarmCore.primary true) ∧
  ∀ input outcome swarm',
    SwarmCore.processInput input swarm = (outcome, swarm') →
    outcome ≠ Js.Normal None.
Proof.
  intros Hserved.
  assert (SwarmCore.agents swarm
          = SwarmCore.agents (SwarmCore.new senses random recall)) as Hagents.
  { induction Hserved as [|swarm1 swarm2 swarm3 (input & outcome & Hrun) _ IH]; [done|].
    rewrite IH. by eapply processInput_agents. }
  assert (SwarmCore.getActiveAgent swarm
          = Some (SwarmCore.SwarmAgent.mk
                    ("agent-tony-" ++
                     Js.NumberToString
                       (SensorySystem.clock senses (SensorySystem.clockReads senses)))%string
                    "tony" SwarmCore.primary true)) as Hactive.
  { unfold SwarmCore.getActiveAgent. rewrite Hagents.
    unfold SwarmCore.new, SwarmCore.initializeSwarm, SwarmCore.createAgent.
    cbn -[Js.NumberToString]. reflexivity. }
  split; [exact Hactive|].
  intros input outcome swarm'. unfold SwarmCore.processInput. rewrite Hactive.
  destruct (SensorySystem.process _ _) as [[data|e] senses']; [|by intros [= <- _]].
  destruct (SwarmCore.recall swarm (SwarmCore.recalls swarm)); [|by intros [= <- _]].
  unfold SwarmCore.evaluateAndRespond, SwarmCore.generateResponse. by intros [= <- _].
Qed.

Lemma tony_handles_every_input_witness :
  SwarmCore.getActiveAgent quietSwarm
  = Some (SwarmCore.SwarmAgent.mk "agent-tony-0" "tony" SwarmCore.primary true) ∧
  ∀ input outcome swarm',
    SwarmCore.processInput input quietSwarm = (outcome, swarm') →
    outcome ≠ Js.Normal None.
Proof.
  pose proof (tony_handles_every_input quietSenses (fun _ => 0.5%float)
                (fun _ => Js.Normal Js.Undefined) quietSwarm (rtc_refl _ _)) as Htony.
  destruct Htony as [Hactive Hnever]. split; [|exact Hnever].
  rewrite Hactive. vm_compute. reflexivity.
Defined.

(** X22: an input that [processInput] answers is answered in the name of
    the active primary agent, with the confidence that [Math.random()]
    gave; that confidence is added to the agent's evaluation metric, which
    counts from 0 when there is none, and no other metric changes. *)
Theorem answered_input_adds_to_the_metric (input : string) (swarm swarm' : SwarmCore.t)
    (response : SwarmCore.Response) :
  SwarmCore.processInput input swarm = (Js.Normal (Some response), swarm') →
  ∃ agent,
    SwarmCore.getActiveAgent swarm = Some agent ∧
    response
    = SwarmCore.Response.mk (SwarmCore.SwarmAgent.id agent) "Processing input..."
        (SwarmCore.random swarm (SwarmCore.randomReads swarm)) ∧
    JsMap.get (SwarmCore.SwarmAgent.id agent) (SwarmCore.evaluationMetrics swarm')
    = Some (SwarmCore.currentScore (SwarmCore.SwarmAgent.id agent) swarm +
            SwarmCore.Response.confidence response)%float ∧
    ∀ other, other ≠ SwarmCore.SwarmAgent.id agent →
      JsMap.get other (SwarmCore.evaluationMetrics swarm')
      = JsMap.get other (SwarmCore.evaluationMetrics swarm).
Proof.
  unfold SwarmCore.processInput.
  destruct (SwarmCore.getActiveAgent swarm) as [agent|]; [|discriminate].
  destruct (SensorySystem.process _ _) as [[data|e] senses]; [|discriminate].
  destruct (SwarmCore.recall swarm (SwarmCore.recalls swarm)); [|discriminate].
  unfold SwarmCore.evaluateAndRespond, SwarmCore.generateResponse,
    SwarmCore.updateEvaluationMetrics.
  intros [= <- <-]. exists agent. split; [reflexivity|]. split; [reflexivity|].
  cbn [SwarmCore.evaluationMetrics SwarmCore.Response.confidence]. split.
  - rewrite get_set_eq. reflexivity.
  - intros other Hother. by apply get_set_ne.
Qed.

Lemma answered_input_adds_to_the_metric_witness :
  ∃ agent,
    SwarmCore.getActiveAgent quietSwarm = Some agent ∧
    SwarmCore.Response.mk "agent-tony-0" "Processing input..." 0.5%float
    = SwarmCore.Response.mk (SwarmCore.SwarmAgent.id agent) "Processing input..."
        (SwarmCore.random quietSwarm (SwarmCore.randomReads quietSwarm)) ∧
    JsMap.get (SwarmCore.SwarmAgent.id agent)
      (SwarmCore.evaluationMetrics (snd (SwarmCore.processInput "status" quietSwarm)))
    = Some (SwarmCore.currentScore (SwarmCore.SwarmAgent.id agent) quietSwarm +
            SwarmCore.Response.confidence
              (SwarmCore.Response.mk "agent-tony-0" "Processing input..." 0.5%float))%float ∧
    ∀ other, other ≠ SwarmCore.SwarmAgent.id agent →
      JsMap.get other
        (SwarmCore.evaluationMetrics (snd (SwarmCore.processInput "status" quietSwarm)))
      = JsMap.get other (SwarmCore.evaluationMetrics quietSwarm).
Proof.
  apply (answered_input_adds_to_the_metric "status" quietSwarm).
  vm_compute. reflexivity.
Defined.

(** * Properties of the map system *)

Lemma mapElements_length {A} (callback : Js.Value -> Js.Completion A)
    (elems : list Js.Value) (result : list A) :
  MapSystem.mapElements callback elems = Js.Normal result → length result = length elems.
Proof.
  revert result. induction elems as [|e elems IH]; intros result; cbn.
  - by intros [= <-].
  - destruct (callback e) as [a|err]; [|discriminate].
    destruct (MapSystem.mapElements callback elems) as [others|err]; [|discriminate].
    intros [= <-]. cbn. by rewrite (IH others).
Qed.

(** X23: [processRoutes] takes the steps of a route from its first leg
    alone: the legs after the first, which a route through waypoints has, do
    not matter to the result, so their steps are not among those returned.
    When it succeeds it returns as many routes as the response holds. *)
Theorem processRoutes_takes_the_first_leg (ref legsRef : N) (props : Js.Properties)
    (leg : Js.Value) (legs : list Js.Value) :
  Js.Get props "legs" = Js.Array legsRef (leg :: legs) →
  MapSystem.processRoute (Js.Object ref props)
  = MapSystem.processRoute (Js.Object ref (Js.Put props "legs" (Js.Array legsRef [leg]))) ∧
  ∀ routesRef routes result,
    MapSystem.processRoutes (Js.Array routesRef routes) = Js.Normal result →
    length result = length routes.
Proof.
  intros Hlegs. split.
  - unfold MapSystem.processRoute, JsOps.member. cbn [Js.ownEnumerableProperties].
    rewrite !Get_Put_ne by done. rewrite Get_Put_eq, Hlegs. reflexivity.
  - intros routesRef routes result. apply mapElements_length.
Qed.

Lemma processRoutes_takes_the_first_leg_witness :
  MapSystem.processRoute twoLegs
  = Js.Normal
      (MapSystem.Route.mk (Js.Number 1200) (Js.Number 300) Js.Undefined
         [MapSystem.RouteStep.mk (Js.Str "Head north") (Js.Number 500) (Js.Number 120)]) ∧
  ∀ routesRef routes result,
    MapSystem.processRoutes (Js.Array routesRef routes) = Js.Normal result →
    length result = length routes.
Proof.
  destruct (processRoutes_takes_the_first_leg 1 2
              [("distance", Js.Number 1200); ("duration", Js.Number 300);
               ("legs", Js.Array 2 [firstLeg; secondLeg])]
              firstLeg [secondLeg] eq_refl) as [Hfirst Hlength].
  split; [|exact Hlength]. unfold twoLegs. rewrite Hfirst. reflexivity.
Defined.

Lemma mapElements_fails {A} (callback : Js.Value -> Js.Completion A)
    (before after : list Js.Value) (bad : Js.Value) (e : Js.Error) :
  callback bad = Js.Throw e →
  (∃ e', MapSystem.mapElements callback (before ++ bad :: after) = Js.Throw e') ∧
  ((∀ v, v ∈ before → ∃ a, callback v = Js.Normal a) →
   MapSystem.mapElements callback (before ++ bad :: after) = Js.Throw e).
Proof.
  intros Hbad. induction before as [|v before [[e' IHsome] IHfirst]]; cbn.
  - rewrite Hbad. split; [by exists e|done].
  - destruct (callback v) as [a|err] eqn:Hv.
    + split; [exists e'; by rewrite IHsome|].
      intros Hbefore. rewrite IHfirst; [done|].
      intros v' Hv'. apply Hbefore. by right.
    + split; [by exists err|].
      intros Hbefore. destruct (Hbefore v) as [a Ha]; [by left|]. congruence.
Qed.

(** X24: a route without legs makes the whole of [processRoutes] fail: there
    is no result for the other routes.  The error is that of the first route
    that fails; for a route with an empty array of legs it is the
    [TypeError] of reading [steps] of [undefined]. *)
Theorem route_without_legs_fails_every_route (routesRef ref legsRef : N)
    (props : Js.Properties) (before after : list Js.Value) :
  Js.Get props "legs" = Js.Array legsRef [] →
  (∃ e,
     MapSystem.processRoutes (Js.Array routesRef (before ++ Js.Object ref props :: after))
     = Js.Throw e) ∧
  ((∀ route, route ∈ before → ∃ result, MapSystem.processRoute route = Js.Normal result) →
   MapSystem.processRoutes (Js.Array routesRef (before ++ Js.Object ref props :: after))
   = Js.Throw (Js.TypeError "Cannot read properties of undefined (reading 'steps')")).
Proof.
  intros Hlegs. apply mapElements_fails.
  unfold MapSystem.processRoute, JsOps.member. cbn [Js.ownEnumerableProperties].
  rewrite Hlegs. reflexivity.
Qed.

Lemma route_without_legs_fails_every_route_witness :
  MapSystem.processRoutes (Js.Array 0 [twoLegs; Js.Object 9 [("legs", Js.Array 10 [])]; twoLegs])
  = Js.Throw (Js.TypeError "Cannot read properties of undefined (reading 'steps')").
Proof.
  apply (route_without_legs_fails_every_route 0 9 10 [("legs", Js.Array 10 [])]
           [twoLegs] [twoLegs] eq_refl).
  intros route Hroute. apply list_elem_of_singleton in Hroute as ->.
  eexists. reflexivity.
Defined.
